(** * Sorted-table blocks: BlockBuilder, Block and BlockIterator

    A shallow embedding of [cpp/misc/sst/block_builder.cpp],
    [cpp/misc/sst/block.cpp] and [cpp/misc/sst/comparator.cpp], and the
    properties of the block format stated over it.

    Conventions.
    - A byte string ([std::string], or the bytes a [Binary] views) is a
      [list byte].
    - [uint32_t] values are integers in [Z]; every place where the source
      narrows to 32 bits is written [u32].
    - A pointer into the block is its offset from [data_].
    - Code that can read outside the buffer, fail an [assert] or spin
      forever returns an [outcome]; a loop whose end depends on the bytes
      of the block takes fuel. *)

From Stdlib Require Import String Strings.Byte.
From Stdlib Require Import ZArith List Lia Bool Sorted.
Import ListNotations.
Local Open Scope Z_scope.

(* ================================================================== *)
(** ** Bytes, machine integers, outcomes *)

Definition bytes := list byte.

Definition size (s : bytes) : Z := Z.of_nat (length s).

Definition u32 (x : Z) : Z := x mod 2 ^ 32.

Definition Z_of_byte (b : byte) : Z := Z.of_N (Byte.to_N b).

Definition byte_of_Z (x : Z) : byte :=
  match Byte.of_N (Z.to_N (x mod 256)) with
  | Some b => b
  | None => x00
  end.

Definition bytes_of_string (s : string) : bytes := list_byte_of_string s.

Inductive fault : Set :=
| OutOfBounds       (* a read outside the block's buffer *)
| AssertionFailed   (* an [assert] of the source does not hold *)
| ForeignPointer    (* pointer difference with a pointer not into the block *)
| OutOfFuel.        (* a loop did not finish within the fuel given *)

Inductive outcome (A : Type) : Type :=
| Done (a : A)
| Fault (f : fault).

Arguments Done {A} a.
Arguments Fault {A} f.

Definition bind {A B : Type} (m : outcome A) (k : A -> outcome B) : outcome B :=
  match m with
  | Done a => k a
  | Fault f => Fault f
  end.

Notation "x <- m ;; k" := (bind m (fun x => k))
  (at level 61, m at next level, right associativity).
Notation "' p <- m ;; k" := (bind m (fun x => match x with p => k end))
  (at level 61, p pattern, m at next level, right associativity).

Definition assert (c : bool) : outcome unit :=
  if c then Done tt else Fault AssertionFailed.

(** [std::string::resize(n)]: cut to [n] bytes, or pad with zero bytes. *)
Definition resize (s : bytes) (n : Z) : bytes :=
  firstn (Z.to_nat n) s ++ repeat x00 (Z.to_nat n - length s).

(** Modelled from the spec: [encodeInt<uint32_t>] of encoding.h, which is
    not among the sources: a fixed-width integer written as four bytes,
    least significant byte first; the result is what is appended to the
    destination string. *)
Definition encodeInt (x : Z) : bytes :=
  [ byte_of_Z x; byte_of_Z (x / 2 ^ 8); byte_of_Z (x / 2 ^ 16); byte_of_Z (x / 2 ^ 24) ].

(** Modelled from the spec: [decodeInt<uint32_t>] of encoding.h, the inverse
    of [encodeInt] on the four bytes at the pointer. *)
Definition decodeInt (p : bytes) : Z :=
  match p with
  | [b0; b1; b2; b3] =>
      Z_of_byte b0 + 2 ^ 8 * Z_of_byte b1 + 2 ^ 16 * Z_of_byte b2 + 2 ^ 24 * Z_of_byte b3
  | _ => 0
  end.

(** Reading [n] bytes at offset [off] of a buffer. *)
Definition load (data : bytes) (off n : Z) : outcome bytes :=
  if (0 <=? off) && (0 <=? n) && (off + n <=? size data)
  then Done (firstn (Z.to_nat n) (skipn (Z.to_nat off) data))
  else Fault OutOfBounds.

Definition decodeInt_at (data : bytes) (off : Z) : outcome Z :=
  p <- load data off 4 ;; Done (decodeInt p).

(** Modelled from the spec: [Binary::compare] of cpp/tools/binary.h, which
    is not among the sources: bytewise comparison of the common part, then
    by length. *)
Fixpoint Binary_compare (a b : bytes) : Z :=
  match a, b with
  | [], [] => 0
  | [], _ :: _ => -1
  | _ :: _, [] => 1
  | x :: a', y :: b' =>
      if Z_of_byte x <? Z_of_byte y then -1
      else if Z_of_byte y <? Z_of_byte x then 1
      else Binary_compare a' b'
  end.

(** comparator.cpp, [BytewiseComparator::compare]. *)
Definition BytewiseComparator (a b : bytes) : Z := Binary_compare a b.

Record Options : Type := mkOptions {
  comparator : bytes -> bytes -> Z;
  block_restart_interval : Z
}.

(* ================================================================== *)
(** ** block_builder.cpp *)

Module BlockBuilder.

Record t : Type := mk {
  comparator_ : bytes -> bytes -> Z;
  block_restart_interval_ : Z;
  buffer_ : bytes;
  restarts_ : list Z;
  last_key_ : bytes;
  counter_ : Z;
  finished_ : bool
}.

(** The constructor: [restarts_.push_back(0)]; the other members start
    empty, zero and false. *)
Definition BlockBuilder (options : Options) : t :=
  mk (comparator options) (block_restart_interval options) [] [0] [] 0 false.

(** The loop [while (shared < min_length && last_key_pice[shared] == key[shared]) shared++]. *)
Fixpoint shared_loop (min_length : nat) (last_key_pice key : bytes) : Z :=
  match min_length, last_key_pice, key with
  | S n, x :: l, y :: k =>
      if Byte.eqb x y then 1 + shared_loop n l k else 0
  | _, _, _ => 0
  end.

Definition add (b : t) (key value : bytes) : outcome t :=
  _ <- assert (negb (finished_ b)) ;;
  let last_key_pice := last_key_ b in
  _ <- assert (match buffer_ b with [] => true | _ => false end
               || (comparator_ b key last_key_pice >? 0)) ;;
  let '(shared, restarts, counter) :=
    if counter_ b <? block_restart_interval_ b then
      let min_length := u32 (Z.min (size last_key_pice) (size key)) in
      (shared_loop (Z.to_nat min_length) last_key_pice key, restarts_ b, counter_ b)
    else
      (0, restarts_ b ++ [u32 (size (buffer_ b))], 0) in
  let non_shared := u32 (size key - shared) in
  let key_tail := firstn (Z.to_nat non_shared) (skipn (Z.to_nat shared) key) in
  let buffer := buffer_ b ++ encodeInt shared in
  let buffer := buffer ++ encodeInt non_shared in
  let buffer := buffer ++ encodeInt (u32 (size value)) in
  let buffer := buffer ++ key_tail in
  let buffer := buffer ++ value in
  let last_key := resize (last_key_ b) shared ++ key_tail in
  _ <- assert (Binary_compare last_key key =? 0) ;;
  Done (mk (comparator_ b) (block_restart_interval_ b)
           buffer restarts last_key (counter + 1) (finished_ b)).

(** [finish] returns the builder it leaves behind and the bytes. *)
Definition finish (b : t) : t * bytes :=
  let buffer :=
    fold_left (fun buf restart => buf ++ encodeInt restart) (restarts_ b) (buffer_ b) in
  let buffer := buffer ++ encodeInt (u32 (Z.of_nat (length (restarts_ b)))) in
  (mk (comparator_ b) (block_restart_interval_ b)
      buffer (restarts_ b) (last_key_ b) (counter_ b) true,
   buffer).

Definition sizeEstimate (b : t) : Z :=
  size (buffer_ b) + Z.of_nat (length (restarts_ b)) * 4 + 4.

Definition reset (b : t) : t :=
  mk (comparator_ b) (block_restart_interval_ b) [] [0] [] 0 false.

End BlockBuilder.

(* ================================================================== *)
(** ** block.cpp: Block *)

Module Block.

Record t : Type := mk {
  data_ : bytes;
  size_ : Z;
  num_restarts_ : Z;
  restart_offset_ : Z
}.

(** The constructor.  On the invalid-block path the source assigns nothing
    to [restart_offset_]; what the member then holds is decided by block.h,
    which is not among the sources, so it is the parameter
    [restart_offset_init]. *)
Definition Block (restart_offset_init : Z) (content : bytes) : outcome t :=
  num_restarts <- decodeInt_at content (size content - 4) ;;
  let max_num_restarts := (size content - 4) / 4 in
  if num_restarts >? max_num_restarts then
    Done (mk content 0 num_restarts restart_offset_init)
  else
    Done (mk content (size content) num_restarts
             (u32 (size content - u32 (u32 (1 + num_restarts) * 4)))).

End Block.

(* ================================================================== *)
(** ** block.cpp: Block::BlockIterator *)

Module BlockIterator.

Inductive Status : Set :=
| OK
| Corruption (msg : string).

Definition isOk (s : Status) : bool :=
  match s with OK => true | Corruption _ => false end.

(** A [Binary] held by the iterator: a view [(pointer, size)].  The pointer
    is an offset from the block's [data_]; a default-constructed [Binary]
    does not point into the block and has [None]. *)
Record Binary : Type := mkBinary {
  data : option Z;
  len : Z
}.

Record t : Type := mk {
  comparator_ : bytes -> bytes -> Z;
  data_ : bytes;
  restarts_ : Z;
  num_restarts_ : Z;
  current_ : Z;
  current_restart_ : Z;
  key_ : bytes;
  val_ : Binary;
  status_ : Status
}.

(** The constructor; [current_] and [current_restart_] start at 0, the key
    is empty, the value is a default [Binary], the status is OK. *)
Definition BlockIterator (comparator : bytes -> bytes -> Z) (data : bytes)
    (restarts num_restarts : Z) : t :=
  mk comparator data restarts num_restarts 0 0 [] (mkBinary None 0) OK.

Definition set_current (it : t) (v : Z) : t :=
  mk (comparator_ it) (data_ it) (restarts_ it) (num_restarts_ it)
     v (current_restart_ it) (key_ it) (val_ it) (status_ it).

Definition set_current_restart (it : t) (v : Z) : t :=
  mk (comparator_ it) (data_ it) (restarts_ it) (num_restarts_ it)
     (current_ it) v (key_ it) (val_ it) (status_ it).

Definition set_key (it : t) (v : bytes) : t :=
  mk (comparator_ it) (data_ it) (restarts_ it) (num_restarts_ it)
     (current_ it) (current_restart_ it) v (val_ it) (status_ it).

Definition set_val (it : t) (v : Binary) : t :=
  mk (comparator_ it) (data_ it) (restarts_ it) (num_restarts_ it)
     (current_ it) (current_restart_ it) (key_ it) v (status_ it).

Definition set_status (it : t) (v : Status) : t :=
  mk (comparator_ it) (data_ it) (restarts_ it) (num_restarts_ it)
     (current_ it) (current_restart_ it) (key_ it) (val_ it) v.

Definition valid (it : t) : bool := current_ it <? restarts_ it.

Definition key (it : t) : bytes := key_ it.

(** [val()] hands out the view; [val_bytes] is what a caller reads
    through it. *)
Definition val (it : t) : Binary := val_ it.

Definition val_bytes (it : t) : outcome bytes :=
  match data (val_ it) with
  | Some off => load (data_ it) off (len (val_ it))
  | None => if len (val_ it) =? 0 then Done [] else Fault ForeignPointer
  end.

Definition status (it : t) : Status := status_ it.

Definition compare (it : t) (a b : bytes) : Z := comparator_ it a b.

Definition getRestartOffset (it : t) (idx : Z) : outcome Z :=
  _ <- assert (idx <? num_restarts_ it) ;;
  decodeInt_at (data_ it) (idx * 4).

Definition seekToRestartPoint (it : t) (idx : Z) : outcome t :=
  let it := set_key it [] in
  let it := set_current_restart it idx in
  offset <- getRestartOffset it idx ;;
  Done (set_val it (mkBinary (Some offset) 0)).

Definition nextEntryOffset (it : t) : outcome Z :=
  match data (val_ it) with
  | Some off => Done (u32 (off + len (val_ it)))
  | None => Fault ForeignPointer
  end.

(** [decodeEntry]: [None] is the null pointer; otherwise the advanced
    pointer and the three fields. *)
Definition decodeEntry (it : t) (p limit : Z) : outcome (option (Z * Z * Z * Z)) :=
  if p + 3 >? limit then Done None
  else
    shared <- decodeInt_at (data_ it) p ;;
    non_shared <- decodeInt_at (data_ it) (p + 4) ;;
    value_size <- decodeInt_at (data_ it) (p + 4 * 2) ;;
    Done (Some (p + 4 * 3, shared, non_shared, value_size)).

(** The loop at the end of [parseNextKeyVal]; it runs at most
    [num_restarts_] times, which is the fuel it is given there. *)
Fixpoint advance_restart (fuel : nat) (it : t) : outcome t :=
  match fuel with
  | O => Done it
  | S f =>
      if u32 (current_restart_ it + 1) <? num_restarts_ it then
        off <- getRestartOffset it (current_restart_ it) ;;
        if off <? current_ it
        then advance_restart f (set_current_restart it (u32 (current_restart_ it + 1)))
        else Done it
      else Done it
  end.

Definition parseNextKeyVal (it : t) : outcome (bool * t) :=
  current <- nextEntryOffset it ;;
  let it := set_current it current in
  let p := current_ it in
  let limit := restarts_ it in
  if p >=? limit then
    let it := set_current it (restarts_ it) in
    let it := set_current_restart it (num_restarts_ it) in
    Done (false, it)
  else
    e <- decodeEntry it p limit ;;
    match e with
    | None => Done (false, it)
    | Some (p, shared, non_shared, value_size) =>
        if size (key_ it) <? shared then Done (false, it)
        else
          suffix <- load (data_ it) p non_shared ;;
          let it := set_key it (resize (key_ it) shared ++ suffix) in
          let it := set_val it (mkBinary (Some (p + non_shared)) value_size) in
          it <- advance_restart (Z.to_nat (num_restarts_ it)) it ;;
          Done (true, it)
    end.

Definition first (it : t) : outcome t :=
  it <- seekToRestartPoint it 0 ;;
  '(_, it) <- parseNextKeyVal it ;;
  Done it.

Definition next (it : t) : outcome t :=
  _ <- assert (valid it) ;;
  '(_, it) <- parseNextKeyVal it ;;
  Done it.

(** [while (parseNextKeyVal() && nextEntryOffset() < restarts_) {}] *)
Fixpoint last_loop (fuel : nat) (it : t) : outcome t :=
  match fuel with
  | O => Fault OutOfFuel
  | S f =>
      '(ok, it) <- parseNextKeyVal it ;;
      if ok then
        n <- nextEntryOffset it ;;
        if n <? restarts_ it then last_loop f it else Done it
      else Done it
  end.

Definition last (fuel : nat) (it : t) : outcome t :=
  it <- seekToRestartPoint it (u32 (num_restarts_ it - 1)) ;;
  last_loop fuel it.

(** The first loop of [prev]: [inl] is the early return, [inr] the state
    to go on with. *)
Fixpoint prev_restart (fuel : nat) (it : t) (old : Z) : outcome (t + t) :=
  match fuel with
  | O => Fault OutOfFuel
  | S f =>
      off <- getRestartOffset it (current_restart_ it) ;;
      if off >=? old then
        if current_restart_ it =? 0 then
          let it := set_current it (restarts_ it) in
          let it := set_current_restart it (num_restarts_ it) in
          Done (inl it)
        else prev_restart f (set_current_restart it (u32 (current_restart_ it - 1))) old
      else Done (inr it)
  end.

(** [do {} while (parseNextKeyVal() && nextEntryOffset() < old);] *)
Fixpoint prev_loop (fuel : nat) (it : t) (old : Z) : outcome t :=
  match fuel with
  | O => Fault OutOfFuel
  | S f =>
      '(ok, it) <- parseNextKeyVal it ;;
      if ok then
        n <- nextEntryOffset it ;;
        if n <? old then prev_loop f it old else Done it
      else Done it
  end.

Definition prev (fuel : nat) (it : t) : outcome t :=
  _ <- assert (valid it) ;;
  let old := current_ it in
  r <- prev_restart fuel it old ;;
  match r with
  | inl it => Done it
  | inr it =>
      it <- seekToRestartPoint it (current_restart_ it) ;;
      prev_loop fuel it old
  end.

(** The binary search of [seek]: [inl] is the corruption return, [inr] the
    restart index [left] the search ends with. *)
Fixpoint seek_search (fuel : nat) (it : t) (target : bytes) (left right : Z)
    : outcome (t + Z) :=
  match fuel with
  | O => Fault OutOfFuel
  | S f =>
      if left <? right then
        let mid := u32 (left + right + 1) / 2 in
        offset <- getRestartOffset it mid ;;
        e <- decodeEntry it offset (restarts_ it) ;;
        let corrupt :=
          let it := set_status it (Corruption "invalid entry in block") in
          let it := set_current it (restarts_ it) in
          let it := set_current_restart it (num_restarts_ it) in
          let it := set_key it [] in
          let it := set_val it (mkBinary None 0) in
          Done (inl it) in
        match e with
        | None => corrupt
        | Some (key_ptr, shared, non_shared, value_size) =>
            if negb (shared =? 0) then corrupt
            else
              mid_key <- load (data_ it) key_ptr non_shared ;;
              if compare it mid_key target <? 0
              then seek_search f it target mid right
              else seek_search f it target left (u32 (mid - 1))
        end
      else Done (inr left)
  end.

(** The closing [while (true)] of [seek]. *)
Fixpoint seek_scan (fuel : nat) (it : t) (target : bytes) : outcome t :=
  match fuel with
  | O => Fault OutOfFuel
  | S f =>
      '(ok, it) <- parseNextKeyVal it ;;
      if negb ok then Done it
      else if compare it (key_ it) target >=? 0 then Done it
      else seek_scan f it target
  end.

Definition seek (fuel : nat) (it : t) (target : bytes) : outcome t :=
  let left := 0 in
  let right := u32 (num_restarts_ it - 1) in
  let current_key_compare := 0 in
  let go (left right current_key_compare : Z) : outcome t :=
    r <- seek_search fuel it target left right ;;
    match r with
    | inl it => Done it
    | inr left_ =>
        _ <- assert ((current_key_compare =? 0) || valid it) ;;
        let skip_seek :=
          (left_ =? current_restart_ it) && (current_key_compare <? 0) in
        it <- (if negb skip_seek then seekToRestartPoint it left_ else Done it) ;;
        seek_scan fuel it target
    end in
  if valid it then
    let current_key_compare := compare it (key_ it) target in
    if current_key_compare <? 0 then go (current_restart_ it) right current_key_compare
    else if current_key_compare >? 0 then go left (current_restart_ it) current_key_compare
    else Done it
  else go left right current_key_compare.

End BlockIterator.

(** [Block::iterator]. *)
Definition iterator (b : Block.t) (comparator : bytes -> bytes -> Z) : BlockIterator.t :=
  BlockIterator.BlockIterator comparator (Block.data_ b)
    (Block.restart_offset_ b) (Block.num_restarts_ b).

(* ================================================================== *)
(** ** table_iterator.cpp: TableIterator *)

(** The [Iterator] interface, as far as [TableIterator] calls it. *)
Class Iterator (I : Type) : Type := {
  it_valid : I -> bool;
  it_key : I -> bytes;
  it_val : I -> outcome bytes;
  it_status : I -> BlockIterator.Status;
  it_seek : nat -> I -> bytes -> outcome I;
  it_first : I -> outcome I;
  it_next : I -> outcome I
}.

#[global] Instance BlockIterator_Iterator : Iterator BlockIterator.t := {
  it_valid := BlockIterator.valid;
  it_key := BlockIterator.key;
  it_val := BlockIterator.val_bytes;
  it_status := BlockIterator.status;
  it_seek := BlockIterator.seek;
  it_first := BlockIterator.first;
  it_next := BlockIterator.next
}.

Module TableIterator.

Section WithIterator.

Context {I : Type} `{Iterator I}.

(** [data_iter_] is a pointer that may be null; [block_func_] makes the
    iterator of the data block a handle names. *)
Record t : Type := mk {
  index_iter_ : I;
  data_iter_ : option I;
  block_func_ : bytes -> option I;
  data_block_handle_ : bytes;
  status_ : BlockIterator.Status
}.

Definition set_index_iter (ti : t) (v : I) : t :=
  mk v (data_iter_ ti) (block_func_ ti) (data_block_handle_ ti) (status_ ti).

Definition set_data_iter (ti : t) (v : option I) : t :=
  mk (index_iter_ ti) v (block_func_ ti) (data_block_handle_ ti) (status_ ti).

Definition set_data_block_handle (ti : t) (v : bytes) : t :=
  mk (index_iter_ ti) (data_iter_ ti) (block_func_ ti) v (status_ ti).

Definition valid (ti : t) : bool :=
  match data_iter_ ti with
  | Some d => it_valid d
  | None => false
  end.

Definition key (ti : t) : outcome bytes :=
  _ <- assert (valid ti) ;;
  match data_iter_ ti with
  | Some d => Done (it_key d)
  | None => Fault AssertionFailed
  end.

Definition val (ti : t) : outcome bytes :=
  _ <- assert (valid ti) ;;
  match data_iter_ ti with
  | Some d => it_val d
  | None => Fault AssertionFailed
  end.

Definition status (ti : t) : BlockIterator.Status :=
  if negb (BlockIterator.isOk (it_status (index_iter_ ti))) then it_status (index_iter_ ti)
  else
    match data_iter_ ti with
    | Some d => if negb (BlockIterator.isOk (it_status d)) then it_status d else status_ ti
    | None => status_ ti
    end.

Definition initDataBlock (ti : t) : outcome t :=
  if negb (it_valid (index_iter_ ti)) then Done (set_data_iter ti None)
  else
    handle <- it_val (index_iter_ ti) ;;
    if match data_iter_ ti with Some _ => true | None => false end
       && (Binary_compare handle (data_block_handle_ ti) =? 0)
    then Done ti
    else
      let ti := set_data_iter ti (block_func_ ti handle) in
      Done (set_data_block_handle ti handle).

Fixpoint skipEmptyDataBlock (fuel : nat) (ti : t) : outcome t :=
  match fuel with
  | O => Fault OutOfFuel
  | S f =>
      if match data_iter_ ti with Some d => negb (it_valid d) | None => true end then
        if negb (it_valid (index_iter_ ti)) then Done (set_data_iter ti None)
        else
          idx <- it_next (index_iter_ ti) ;;
          ti <- initDataBlock (set_index_iter ti idx) ;;
          ti <- match data_iter_ ti with
                | Some d => d' <- it_first d ;; Done (set_data_iter ti (Some d'))
                | None => Done ti
                end ;;
          skipEmptyDataBlock f ti
      else Done ti
  end.

Definition seek (fuel : nat) (ti : t) (target : bytes) : outcome t :=
  idx <- it_seek fuel (index_iter_ ti) target ;;
  ti <- initDataBlock (set_index_iter ti idx) ;;
  ti <- match data_iter_ ti with
        | Some d => d' <- it_seek fuel d target ;; Done (set_data_iter ti (Some d'))
        | None => Done ti
        end ;;
  skipEmptyDataBlock fuel ti.

End WithIterator.

Arguments t I : clear implicits.

End TableIterator.

(* ================================================================== *)
(** ** Client loops: what a caller of the builder and the iterator runs *)

Definition entry : Type := (bytes * bytes)%type.

(** [add] called for each entry in order. *)
Fixpoint add_all (b : BlockBuilder.t) (kvs : list entry) : outcome BlockBuilder.t :=
  match kvs with
  | [] => Done b
  | (k, v) :: rest => b' <- BlockBuilder.add b k v ;; add_all b' rest
  end.

(** The adds, then [finish()]: the bytes returned. *)
Definition add_all_finish (b : BlockBuilder.t) (kvs : list entry) : outcome bytes :=
  b' <- add_all b kvs ;; Done (snd (BlockBuilder.finish b')).

Definition build (options : Options) (kvs : list entry) : outcome bytes :=
  add_all_finish (BlockBuilder.BlockBuilder options) kvs.

(** [while (it->valid()) { emit(it->key(), it->val()); it->next(); }] *)
Fixpoint collect_next (fuel : nat) (it : BlockIterator.t)
    : outcome (list entry * BlockIterator.t) :=
  match fuel with
  | O => Fault OutOfFuel
  | S f =>
      if BlockIterator.valid it then
        v <- BlockIterator.val_bytes it ;;
        it' <- BlockIterator.next it ;;
        '(rest, itf) <- collect_next f it' ;;
        Done ((BlockIterator.key it, v) :: rest, itf)
      else Done ([], it)
  end.

Definition scan_forward (fuel : nat) (it : BlockIterator.t)
    : outcome (list entry * BlockIterator.t) :=
  it <- BlockIterator.first it ;; collect_next fuel it.

(** [while (it->valid()) { emit(it->key(), it->val()); it->prev(); }] *)
Fixpoint collect_prev (fuel : nat) (it : BlockIterator.t)
    : outcome (list entry * BlockIterator.t) :=
  match fuel with
  | O => Fault OutOfFuel
  | S f =>
      if BlockIterator.valid it then
        v <- BlockIterator.val_bytes it ;;
        it' <- BlockIterator.prev (S f) it ;;
        '(rest, itf) <- collect_prev f it' ;;
        Done ((BlockIterator.key it, v) :: rest, itf)
      else Done ([], it)
  end.

Definition scan_backward (fuel : nat) (it : BlockIterator.t)
    : outcome (list entry * BlockIterator.t) :=
  it <- BlockIterator.last fuel it ;; collect_prev fuel it.

(** The entry the iterator shows, when it is valid. *)
Definition current_entry (it : BlockIterator.t) : outcome (option entry) :=
  if BlockIterator.valid it then
    v <- BlockIterator.val_bytes it ;; Done (Some (BlockIterator.key it, v))
  else Done None.

Definition str (s : string) : bytes := bytes_of_string s.

(* ================================================================== *)
(** ** Specification-side vocabulary *)

(** Length of the longest common byte prefix of two keys. *)
Fixpoint common_prefix_length (a b : bytes) : Z :=
  match a, b with
  | x :: a', y :: b' =>
      if Byte.eqb x y then 1 + common_prefix_length a' b' else 0
  | _, _ => 0
  end.

(** Keys strictly increasing under a comparator: each key compares
    greater than the one before it. *)
Fixpoint increasing_from (cmp : bytes -> bytes -> Z) (prev : bytes) (kvs : list entry) : Prop :=
  match kvs with
  | [] => True
  | (k, _) :: rest => cmp k prev > 0 /\ increasing_from cmp k rest
  end.

Definition strictly_increasing (cmp : bytes -> bytes -> Z) (kvs : list entry) : Prop :=
  match kvs with
  | [] => True
  | (k, _) :: rest => increasing_from cmp k rest
  end.

(** An upper bound on the bytes a block for [kvs] takes: per entry the
    three length fields, the key, the value and one restart offset; the
    first restart offset and the restart count. *)
Fixpoint input_bytes (kvs : list entry) : Z :=
  match kvs with
  | [] => 8
  | (k, v) :: rest => 16 + size k + size v + input_bytes rest
  end.

(** The block can be addressed with 32-bit offsets. *)
Definition fits_u32 (kvs : list entry) : Prop := input_bytes kvs < 2 ^ 32.

(** One entry record as the format lays it out. *)
Definition encode_entry (e : Z * bytes * bytes) : bytes :=
  let '(shared, k, v) := e in
  encodeInt shared ++ encodeInt (size k - shared) ++ encodeInt (size v)
    ++ skipn (Z.to_nat shared) k ++ v.

Definition encode_entries (es : list (Z * bytes * bytes)) : bytes :=
  concat (map encode_entry es).

(** The restart rule in the words of the format: the entry with index [i]
    stores its key in full when [i] is a multiple of the interval, and
    otherwise shares the longest common prefix with the key before it. *)
Definition expected_shared (N : Z) (i : nat) (prev k : bytes) : Z :=
  if Z.of_nat i mod N =? 0 then 0 else common_prefix_length prev k.

Fixpoint expected_entries (N : Z) (i : nat) (prev : bytes) (kvs : list entry)
    : list (Z * bytes * bytes) :=
  match kvs with
  | [] => []
  | (k, v) :: rest => (expected_shared N i prev k, k, v) :: expected_entries N (S i) k rest
  end.

(** Buffer offsets of the entries whose index is a multiple of the interval. *)
Fixpoint expected_restarts (N : Z) (i : nat) (off : Z) (es : list (Z * bytes * bytes))
    : list Z :=
  match es with
  | [] => []
  | e :: rest =>
      (if Z.of_nat i mod N =? 0 then [off] else [])
        ++ expected_restarts N (S i) (off + size (encode_entry e)) rest
  end.

(** The builder's restart counter after one more [add]. *)
Definition next_counter (N c : Z) : Z := (if c <? N then c else 0) + 1.

(** The shared length [add] chooses in a builder whose counter is [c] and
    whose previous key is [last]. *)
Definition chosen_shared (N c : Z) (last k : bytes) : Z :=
  if c <? N then common_prefix_length last k else 0.

(** The records a builder with counter [c] and previous key [last] appends
    for [kvs], and the restart offsets it pushes while doing so. *)
Fixpoint layout (N c : Z) (last : bytes) (kvs : list entry) : list (Z * bytes * bytes) :=
  match kvs with
  | [] => []
  | (k, v) :: rest => (chosen_shared N c last k, k, v) :: layout N (next_counter N c) k rest
  end.

Fixpoint layout_restarts (N c off : Z) (last : bytes) (kvs : list entry) : list Z :=
  match kvs with
  | [] => []
  | (k, v) :: rest =>
      (if c <? N then [] else [off])
        ++ layout_restarts N (next_counter N c)
             (off + size (encode_entry (chosen_shared N c last k, k, v))) k rest
  end.

(** Records that decode in sequence: each shared length is a prefix length
    of the key before it on which the two keys agree. *)
Fixpoint chain (prev : bytes) (es : list (Z * bytes * bytes)) : Prop :=
  match es with
  | [] => True
  | (s, k, v) :: rest =>
      0 <= s <= size prev /\ s <= size k /\ size k < 2 ^ 32 /\ size v < 2 ^ 32
      /\ firstn (Z.to_nat s) prev = firstn (Z.to_nat s) k
      /\ chain k rest
  end.

Definition entry_of (e : Z * bytes * bytes) : entry :=
  let '(_, k, v) := e in (k, v).

(** The bytes of a finished block, as records followed by the trailer. *)
Definition block_bytes (es : list (Z * bytes * bytes)) (rs : list Z) : bytes :=
  encode_entries es ++ concat (map encodeInt (0 :: rs))
    ++ encodeInt (Z.of_nat (length (0 :: rs))).

(** The [shared] and [non_shared] fields of the record at offset [off]. *)
Definition read_fields (buffer : bytes) (off : Z) : outcome (Z * Z) :=
  shared <- decodeInt_at buffer off ;;
  non_shared <- decodeInt_at buffer (off + 4) ;;
  Done (shared, non_shared).

(** An iterator created for a given block, in any state. *)
Definition iterator_over (blk : Block.t) (it : BlockIterator.t) : Prop :=
  BlockIterator.data_ it = Block.data_ blk
  /\ BlockIterator.restarts_ it = Block.restart_offset_ blk
  /\ BlockIterator.num_restarts_ it = Block.num_restarts_ blk
  /\ 0 <= BlockIterator.current_ it.

(** An operation that returned, leaving the iterator invalid and OK. *)
Definition ends_invalid_ok (r : outcome BlockIterator.t) : Prop :=
  exists it', r = Done it'
    /\ BlockIterator.valid it' = false
    /\ BlockIterator.status it' = BlockIterator.OK.

(** The block a builder returns when nothing was added. *)
Definition empty_block : Block.t := Block.mk (encodeInt 0 ++ encodeInt 1) 8 1 0.

(** Concrete inputs used below. *)
Definition bytewise (N : Z) : Options := mkOptions BytewiseComparator N.

Definition ab_entries : list entry := [(str "a", str "1"); (str "b", str "2")].

Definition a_entry : list entry := [(str "a", str "1")].

Definition fruit_entries : list entry :=
  [(str "apple", str "1"); (str "application", str "2"); (str "banana", str "3")].

(** The fields of the three records of the fruit block, interval 2, read
    back from the builder's buffer at the offsets where the records start,
    and the builder's restart list. *)
Definition fruit_fields : outcome (list (Z * Z)) :=
  b <- add_all (BlockBuilder.BlockBuilder (bytewise 2)) fruit_entries ;;
  f0 <- read_fields (BlockBuilder.buffer_ b) 0 ;;
  f1 <- read_fields (BlockBuilder.buffer_ b) 18 ;;
  f2 <- read_fields (BlockBuilder.buffer_ b) 38 ;;
  Done [f0; f1; f2].

Definition fruit_restarts : outcome (list Z) :=
  b <- add_all (BlockBuilder.BlockBuilder (bytewise 2)) fruit_entries ;;
  Done (BlockBuilder.restarts_ b).

(** A block whose data region is a single byte: too short for an entry. *)
Definition short_entry_block : bytes := [x00] ++ encodeInt 0 ++ encodeInt 1.

(** A block whose first record, at a restart point, claims a shared
    prefix of one byte. *)
Definition shared_at_restart_block : bytes :=
  encodeInt 1 ++ encodeInt 1 ++ encodeInt 1 ++ str "a" ++ str "1"
    ++ encodeInt 0 ++ encodeInt 1.

(** The finished bytes with the first restart offset overwritten by [v]
    (the trailer of a block with one restart point is its last 8 bytes). *)
Definition overwrite_restart (content : bytes) (v : Z) : bytes :=
  firstn (length content - 8) content ++ encodeInt v
    ++ skipn (length content - 4) content.

(** What an iterator shows to its caller. *)
Definition observe (r : outcome BlockIterator.t)
    : outcome (option entry * bool * BlockIterator.Status) :=
  it <- r ;;
  e <- current_entry it ;;
  Done (e, BlockIterator.valid it, BlockIterator.status it).

Definition observe_scan (r : outcome (list entry * BlockIterator.t))
    : outcome (list entry * bool * BlockIterator.Status) :=
  '(l, it) <- r ;;
  Done (l, BlockIterator.valid it, BlockIterator.status it).

(** The block built from [kvs], opened. *)
Definition open_block (options : Options) (kvs : list entry) : outcome Block.t :=
  content <- build options kvs ;; Block.Block 0 content.

(** The operations that move an iterator without a target. *)
Inductive motion : Set := First | Next | Last | Prev.

Definition run_motion (fuel : nat) (m : motion) (it : BlockIterator.t)
    : outcome BlockIterator.t :=
  match m with
  | First => BlockIterator.first it
  | Next => BlockIterator.next it
  | Last => BlockIterator.last fuel it
  | Prev => BlockIterator.prev fuel it
  end.

(** Two iterator states over the same block, with the same comparator and
    status; their positions may differ. *)
Definition same_block (it1 it2 : BlockIterator.t) : Prop :=
  BlockIterator.comparator_ it1 = BlockIterator.comparator_ it2
  /\ BlockIterator.data_ it1 = BlockIterator.data_ it2
  /\ BlockIterator.restarts_ it1 = BlockIterator.restarts_ it2
  /\ BlockIterator.num_restarts_ it1 = BlockIterator.num_restarts_ it2
  /\ BlockIterator.status_ it1 = BlockIterator.status_ it2.

(** [next()] called [j] times. *)
Fixpoint next_times (j : nat) (it : BlockIterator.t) : outcome BlockIterator.t :=
  match j with
  | O => Done it
  | S j' => it' <- BlockIterator.next it ;; next_times j' it'
  end.

(** The first entry, in storage order, whose key is not below the target. *)
Definition lower_bound (cmp : bytes -> bytes -> Z) (target : bytes) (kvs : list entry)
    : option entry :=
  find (fun kv => cmp (fst kv) target >=? 0) kvs.

(** A comparator that orders keys: greater one way is less the other way,
    and less-than carries over less-or-equal. *)
Definition orders_keys (cmp : bytes -> bytes -> Z) : Prop :=
  (forall a b, cmp a b > 0 -> cmp b a < 0)
  /\ (forall a b c, cmp a b < 0 -> cmp b c <= 0 -> cmp a c < 0).

(** Records that store every key in full. *)
Definition full_key_records (kvs : list entry) : list (Z * bytes * bytes) :=
  map (fun kv => (0, fst kv, snd kv)) kvs.

(** The state of an iterator over a block with a single restart point
    that shows the record [e] stored after the records [pre]; [it0] gives
    the block, the comparator and the status. *)
Definition positioned (it0 : BlockIterator.t) (pre : list (Z * bytes * bytes))
    (e : Z * bytes * bytes) : BlockIterator.t :=
  let '(s, k, v) := e in
  BlockIterator.mk (BlockIterator.comparator_ it0) (BlockIterator.data_ it0)
    (BlockIterator.restarts_ it0) (BlockIterator.num_restarts_ it0)
    (size (encode_entries pre)) 0 k
    (BlockIterator.mkBinary (Some (size (encode_entries pre) + 12 + (size k - s))) (size v))
    (BlockIterator.status_ it0).

(** The key of the last of [es], or [prev] when there is none. *)
Definition last_key_of (prev : bytes) (es : list (Z * bytes * bytes)) : bytes :=
  match rev es with
  | [] => prev
  | (_, k, _) :: _ => k
  end.

(** An iterator state over the finished block that holds the records
    [es] in a single restart group. *)
Definition over_single_group (es : list (Z * bytes * bytes)) (it0 : BlockIterator.t) : Prop :=
  BlockIterator.data_ it0 = block_bytes es []
  /\ BlockIterator.restarts_ it0 = size (encode_entries es)
  /\ BlockIterator.num_restarts_ it0 = 1.

(** The states [first()] and [next()] lead to on such a block: showing
    one of the records, or not valid. *)
Definition shows_record_or_ended (es : list (Z * bytes * bytes))
    (it0 it : BlockIterator.t) : Prop :=
  (exists pre e post, es = pre ++ e :: post /\ it = positioned it0 pre e)
  \/ (BlockIterator.valid it = false /\ same_block it it0).

(** What a caller can do with an iterator, and a run of such calls. *)
Inductive move : Type :=
| Move (m : motion)
| Seek (target : bytes).

Definition run_move (fuel : nat) (mv : move) (it : BlockIterator.t)
    : outcome BlockIterator.t :=
  match mv with
  | Move m => run_motion fuel m it
  | Seek target => BlockIterator.seek fuel it target
  end.

Fixpoint run_moves (fuel : nat) (mvs : list move) (it : BlockIterator.t)
    : outcome BlockIterator.t :=
  match mvs with
  | [] => Done it
  | mv :: rest => it' <- run_move fuel mv it ;; run_moves fuel rest it'
  end.

(* ================================================================== *)
(** ** Bytes and fixed-width integers *)

Lemma size_nonneg (s : bytes) : 0 <= size s.
Proof. unfold size. lia. Qed.

Lemma size_app (a b : bytes) : size (a ++ b) = size a + size b.
Proof. unfold size. rewrite length_app. lia. Qed.

Lemma size_nil : size [] = 0.
Proof. reflexivity. Qed.

Lemma Z_of_byte_of_Z (x : Z) : Z_of_byte (byte_of_Z x) = x mod 256.
Proof.
  unfold Z_of_byte, byte_of_Z.
  assert (Hr : 0 <= x mod 256 < 256) by (apply Z.mod_pos_bound; lia).
  destruct (Byte.of_N (Z.to_N (x mod 256))) as [b|] eqn:E.
  - apply Byte.to_of_N in E. rewrite E. rewrite Z2N.id; lia.
  - apply Byte.of_N_None_iff in E. lia.
Qed.

Lemma decodeInt_encodeInt (x : Z) : decodeInt (encodeInt x) = u32 x.
Proof.
  unfold decodeInt, encodeInt, u32.
  rewrite !Z_of_byte_of_Z.
  change (2 ^ 8) with 256. change (2 ^ 16) with 65536.
  change (2 ^ 24) with 16777216. change (2 ^ 32) with 4294967296.
  Z.to_euclidean_division_equations. lia.
Qed.

Lemma size_encodeInt (x : Z) : size (encodeInt x) = 4.
Proof. reflexivity. Qed.

Lemma u32_small (x : Z) : 0 <= x < 2 ^ 32 -> u32 x = x.
Proof. intros H. unfold u32. apply Z.mod_small. exact H. Qed.

Lemma u32_range (x : Z) : 0 <= u32 x < 2 ^ 32.
Proof. unfold u32. apply Z.mod_pos_bound. lia. Qed.

Lemma skipn_length_app {A : Type} (pre rest : list A) :
  skipn (length pre) (pre ++ rest) = rest.
Proof. induction pre as [|x pre IH]; simpl; auto. Qed.

Lemma firstn_length_app {A : Type} (pre rest : list A) :
  firstn (length pre) (pre ++ rest) = pre.
Proof. induction pre as [|x pre IH]; simpl; [|rewrite IH]; auto. Qed.

Lemma load_middle (pre mid post : bytes) :
  load (pre ++ mid ++ post) (size pre) (size mid) = Done mid.
Proof.
  unfold load.
  assert (Hc : (0 <=? size pre) && (0 <=? size mid)
               && (size pre + size mid <=? size (pre ++ mid ++ post)) = true).
  { rewrite !size_app. pose proof (size_nonneg pre). pose proof (size_nonneg mid).
    pose proof (size_nonneg post).
    rewrite !andb_true_iff, !Z.leb_le. lia. }
  rewrite Hc. unfold size. rewrite !Nat2Z.id.
  rewrite skipn_length_app, firstn_length_app. reflexivity.
Qed.

Lemma load_at (data pre mid post : bytes) (off n : Z) :
  data = pre ++ mid ++ post -> off = size pre -> n = size mid ->
  load data off n = Done mid.
Proof. intros -> -> ->. apply load_middle. Qed.

Lemma decodeInt_at_middle (data pre post : bytes) (x off : Z) :
  data = pre ++ encodeInt x ++ post -> off = size pre ->
  decodeInt_at data off = Done (u32 x).
Proof.
  intros Hd Ho. unfold decodeInt_at.
  rewrite (load_at data pre (encodeInt x) post off 4 Hd Ho eq_refl).
  unfold bind. rewrite decodeInt_encodeInt. reflexivity.
Qed.

Lemma Binary_compare_refl (a : bytes) : Binary_compare a a = 0.
Proof.
  induction a as [|x a IH]; simpl; auto.
  rewrite Z.ltb_irrefl. exact IH.
Qed.

(* ================================================================== *)
(** ** The builder *)

Lemma common_prefix_length_bounds (a b : bytes) :
  0 <= common_prefix_length a b /\ common_prefix_length a b <= size a
  /\ common_prefix_length a b <= size b.
Proof.
  revert b. induction a as [|x a IH]; intros [|y b]; cbn [common_prefix_length];
    try (unfold size; cbn [length]; lia).
  destruct (Byte.eqb x y).
  - specialize (IH b). unfold size in *. cbn [length]. lia.
  - unfold size. cbn [length]. lia.
Qed.

Lemma common_prefix_length_agree (a b : bytes) :
  firstn (Z.to_nat (common_prefix_length a b)) a
  = firstn (Z.to_nat (common_prefix_length a b)) b.
Proof.
  revert b. induction a as [|x a IH]; intros [|y b]; cbn [common_prefix_length]; auto.
  destruct (Byte.eqb x y) eqn:E; auto.
  apply Byte.byte_dec_bl in E. subst y.
  pose proof (common_prefix_length_bounds a b) as [H0 _].
  replace (Z.to_nat (1 + common_prefix_length a b))
    with (S (Z.to_nat (common_prefix_length a b))) by lia.
  simpl. rewrite IH. reflexivity.
Qed.

Lemma shared_loop_is_common_prefix (n : nat) (a b : bytes) :
  (Nat.min (length a) (length b) <= n)%nat ->
  BlockBuilder.shared_loop n a b = common_prefix_length a b.
Proof.
  revert a b. induction n as [|n IH]; intros [|x a] [|y b] H;
    cbn [BlockBuilder.shared_loop common_prefix_length length Nat.min] in *; auto; try lia.
  destruct (Byte.eqb x y); auto. rewrite IH; auto. lia.
Qed.

Lemma size_skipn (n : Z) (k : bytes) :
  0 <= n <= size k -> size (skipn (Z.to_nat n) k) = size k - n.
Proof. intros H. unfold size in *. rewrite length_skipn. lia. Qed.

Lemma resize_shared_prefix (prev k : bytes) (s : Z) :
  0 <= s <= size prev ->
  firstn (Z.to_nat s) prev = firstn (Z.to_nat s) k ->
  resize prev s ++ skipn (Z.to_nat s) k = k.
Proof.
  intros Hs Hp. unfold resize.
  replace (Z.to_nat s - length prev)%nat with 0%nat by (unfold size in Hs; lia).
  simpl. rewrite app_nil_r, Hp. apply firstn_skipn.
Qed.

Lemma size_encode_entry (s : Z) (k v : bytes) :
  0 <= s <= size k -> size (encode_entry (s, k, v)) = 12 + (size k - s) + size v.
Proof.
  intros H. unfold encode_entry. rewrite !size_app, !size_encodeInt, size_skipn by lia. lia.
Qed.

Lemma chosen_shared_bounds (N c : Z) (last k : bytes) :
  0 <= chosen_shared N c last k /\ chosen_shared N c last k <= size last
  /\ chosen_shared N c last k <= size k.
Proof.
  unfold chosen_shared. destruct (c <? N).
  - apply common_prefix_length_bounds.
  - pose proof (size_nonneg last). pose proof (size_nonneg k). lia.
Qed.

Lemma chosen_shared_agree (N c : Z) (last k : bytes) :
  firstn (Z.to_nat (chosen_shared N c last k)) last
  = firstn (Z.to_nat (chosen_shared N c last k)) k.
Proof.
  unfold chosen_shared. destruct (c <? N).
  - apply common_prefix_length_agree.
  - reflexivity.
Qed.

(** One [add], spelled out: the record appended, the restart pushed, the
    counter and previous key left behind. *)
Lemma add_step (b : BlockBuilder.t) (k v : bytes) :
  BlockBuilder.finished_ b = false ->
  (BlockBuilder.buffer_ b = [] \/ BlockBuilder.comparator_ b k (BlockBuilder.last_key_ b) > 0) ->
  size (BlockBuilder.last_key_ b) < 2 ^ 32 -> size k < 2 ^ 32 -> size v < 2 ^ 32 ->
  size (BlockBuilder.buffer_ b) < 2 ^ 32 ->
  let N := BlockBuilder.block_restart_interval_ b in
  let c := BlockBuilder.counter_ b in
  BlockBuilder.add b k v =
  Done (BlockBuilder.mk (BlockBuilder.comparator_ b) N
          (BlockBuilder.buffer_ b
             ++ encode_entry (chosen_shared N c (BlockBuilder.last_key_ b) k, k, v))
          (BlockBuilder.restarts_ b
             ++ (if c <? N then [] else [size (BlockBuilder.buffer_ b)]))
          k (next_counter N c) false).
Proof.
  intros Hf Hord Hl Hk Hv Hb N c.
  pose proof (chosen_shared_bounds N c (BlockBuilder.last_key_ b) k) as (Hs0 & Hs1 & Hs2).
  pose proof (chosen_shared_agree N c (BlockBuilder.last_key_ b) k) as Hag.
  pose proof (size_nonneg k) as Hk0. pose proof (size_nonneg v) as Hv0.
  pose proof (size_nonneg (BlockBuilder.buffer_ b)) as Hb0.
  pose proof (size_nonneg (BlockBuilder.last_key_ b)) as Hl0.
  unfold BlockBuilder.add. rewrite Hf. cbn [negb assert bind].
  assert (Ha : (match BlockBuilder.buffer_ b with [] => true | _ :: _ => false end
                || (BlockBuilder.comparator_ b k (BlockBuilder.last_key_ b) >? 0)) = true).
  { destruct Hord as [-> | Hgt]; [reflexivity|].
    apply orb_true_iff. right. apply Z.gtb_lt. lia. }
  rewrite Ha. cbn [assert bind].
  unfold chosen_shared, next_counter in *. fold N c.
  destruct (c <? N) eqn:Hc.
  - set (s := common_prefix_length (BlockBuilder.last_key_ b) k) in *.
    assert (Hloop : BlockBuilder.shared_loop
              (Z.to_nat (u32 (Z.min (size (BlockBuilder.last_key_ b)) (size k))))
              (BlockBuilder.last_key_ b) k = s).
    { apply shared_loop_is_common_prefix. rewrite u32_small by lia. unfold size. lia. }
    rewrite Hloop.
    rewrite (u32_small (size k - s)) by lia. rewrite (u32_small (size v)) by lia.
    assert (Htail : firstn (Z.to_nat (size k - s)) (skipn (Z.to_nat s) k) = skipn (Z.to_nat s) k).
    { apply firstn_all2. rewrite length_skipn. unfold size. lia. }
    rewrite Htail, resize_shared_prefix by (auto; lia).
    rewrite Binary_compare_refl. cbn [Z.eqb assert bind].
    unfold encode_entry. rewrite <- !app_assoc, app_nil_r. reflexivity.
  - rewrite Z.sub_0_r. rewrite (u32_small (size k)) by lia.
    rewrite (u32_small (size v)) by lia.
    rewrite (u32_small (size (BlockBuilder.buffer_ b))) by lia.
    change (Z.to_nat 0) with 0%nat. cbn [skipn].
    assert (Htail : firstn (Z.to_nat (size k)) k = k).
    { apply firstn_all2. unfold size. lia. }
    rewrite Htail. unfold resize. cbn [Z.to_nat firstn Nat.sub repeat app].
    rewrite Binary_compare_refl. cbn [Z.eqb assert bind].
    unfold encode_entry. rewrite Z.sub_0_r. change (Z.to_nat 0) with 0%nat. cbn [skipn].
    rewrite <- !app_assoc. reflexivity.
Qed.

Lemma input_bytes_lower (kvs : list entry) : 8 <= input_bytes kvs.
Proof.
  induction kvs as [|[k v] rest IH]; cbn [input_bytes]; [lia|].
  pose proof (size_nonneg k). pose proof (size_nonneg v). lia.
Qed.

Lemma size_encode_entries_cons (e : Z * bytes * bytes) (es : list (Z * bytes * bytes)) :
  encode_entries (e :: es) = encode_entry e ++ encode_entries es.
Proof. reflexivity. Qed.

(** What a run of [add] calls leaves in the buffer and the restart list. *)
Lemma add_all_layout (kvs : list entry) : forall (b : BlockBuilder.t),
  BlockBuilder.finished_ b = false ->
  size (BlockBuilder.last_key_ b) < 2 ^ 32 ->
  size (BlockBuilder.buffer_ b) + input_bytes kvs <= 2 ^ 32 ->
  (BlockBuilder.buffer_ b = [] /\ strictly_increasing (BlockBuilder.comparator_ b) kvs)
  \/ increasing_from (BlockBuilder.comparator_ b) (BlockBuilder.last_key_ b) kvs ->
  exists b' : BlockBuilder.t,
    add_all b kvs = Done b'
    /\ BlockBuilder.comparator_ b' = BlockBuilder.comparator_ b
    /\ BlockBuilder.block_restart_interval_ b' = BlockBuilder.block_restart_interval_ b
    /\ BlockBuilder.finished_ b' = false
    /\ BlockBuilder.buffer_ b'
       = BlockBuilder.buffer_ b
           ++ encode_entries (layout (BlockBuilder.block_restart_interval_ b)
                                (BlockBuilder.counter_ b) (BlockBuilder.last_key_ b) kvs)
    /\ BlockBuilder.restarts_ b'
       = BlockBuilder.restarts_ b
           ++ layout_restarts (BlockBuilder.block_restart_interval_ b)
                (BlockBuilder.counter_ b) (size (BlockBuilder.buffer_ b))
                (BlockBuilder.last_key_ b) kvs.
Proof.
  induction kvs as [|[k v] rest IH]; intros b Hf Hl Hsz Hord.
  - exists b. cbn [add_all layout layout_restarts encode_entries map concat].
    rewrite !app_nil_r. repeat split; auto.
  - cbn [input_bytes] in Hsz.
    pose proof (size_nonneg k) as Hk0. pose proof (size_nonneg v) as Hv0.
    pose proof (size_nonneg (BlockBuilder.buffer_ b)) as Hb0.
    pose proof (input_bytes_lower rest) as Hr0.
    set (N := BlockBuilder.block_restart_interval_ b) in *.
    set (c := BlockBuilder.counter_ b) in *.
    set (s := chosen_shared N c (BlockBuilder.last_key_ b) k).
    pose proof (chosen_shared_bounds N c (BlockBuilder.last_key_ b) k) as (Hs0 & Hs1 & Hs2).
    fold s in Hs0, Hs1, Hs2.
    assert (Hstep := add_step b k v Hf).
    cbv zeta in Hstep. fold N c s in Hstep.
    assert (Hord1 : BlockBuilder.buffer_ b = []
                    \/ BlockBuilder.comparator_ b k (BlockBuilder.last_key_ b) > 0).
    { destruct Hord as [[He _] | [Hgt _]]; [left | right]; auto. }
    specialize (Hstep Hord1 Hl ltac:(lia) ltac:(lia) ltac:(lia)).
    set (b1 := BlockBuilder.mk (BlockBuilder.comparator_ b) N
                 (BlockBuilder.buffer_ b ++ encode_entry (s, k, v))
                 (BlockBuilder.restarts_ b ++ (if c <? N then [] else [size (BlockBuilder.buffer_ b)]))
                 k (next_counter N c) false) in *.
    assert (Hsize1 : size (BlockBuilder.buffer_ b1)
                     = size (BlockBuilder.buffer_ b) + size (encode_entry (s, k, v))).
    { unfold b1. cbn [BlockBuilder.buffer_]. apply size_app. }
    assert (Hes : size (encode_entry (s, k, v)) = 12 + (size k - s) + size v)
      by (apply size_encode_entry; lia).
    destruct (IH b1) as (b' & Hrun & Hcmp & Hint & Hfin & Hbuf & Hres).
    + reflexivity.
    + unfold b1. cbn [BlockBuilder.last_key_]. lia.
    + lia.
    + right. unfold b1. cbn [BlockBuilder.comparator_ BlockBuilder.last_key_].
      destruct Hord as [[_ Hs] | [_ Hs]]; exact Hs.
    + exists b'. cbn [add_all]. rewrite Hstep. cbn [bind].
      repeat split; auto.
      * rewrite Hbuf. unfold b1.
        cbn [BlockBuilder.buffer_ BlockBuilder.block_restart_interval_
             BlockBuilder.counter_ BlockBuilder.last_key_ layout].
        fold s. rewrite size_encode_entries_cons, <- app_assoc. reflexivity.
      * rewrite Hres, Hsize1. unfold b1.
        cbn [BlockBuilder.restarts_ BlockBuilder.block_restart_interval_
             BlockBuilder.counter_ BlockBuilder.last_key_ layout_restarts].
        fold s. rewrite <- app_assoc. reflexivity.
Qed.

Lemma layout_chain (N : Z) (kvs : list entry) : forall (c : Z) (last : bytes),
  input_bytes kvs <= 2 ^ 32 -> chain last (layout N c last kvs).
Proof.
  induction kvs as [|[k v] rest IH]; intros c last Hsz; cbn [layout chain]; auto.
  cbn [input_bytes] in Hsz.
  pose proof (size_nonneg k). pose proof (size_nonneg v).
  pose proof (input_bytes_lower rest).
  pose proof (chosen_shared_bounds N c last k) as (Hs0 & Hs1 & Hs2).
  repeat split; try lia.
  - apply chosen_shared_agree.
  - apply IH. lia.
Qed.

Lemma map_entry_of_layout (N : Z) (kvs : list entry) : forall (c : Z) (last : bytes),
  map entry_of (layout N c last kvs) = kvs.
Proof.
  induction kvs as [|[k v] rest IH]; intros c last; cbn [layout map entry_of]; auto.
  rewrite IH. reflexivity.
Qed.

(** The space the records and the pushed restarts take stays within
    [input_bytes]. *)
Lemma layout_size (N : Z) (kvs : list entry) : forall (c off : Z) (last : bytes),
  size (encode_entries (layout N c last kvs))
    + 4 * Z.of_nat (length (layout_restarts N c off last kvs)) + 8
  <= input_bytes kvs.
Proof.
  induction kvs as [|[k v] rest IH]; intros c off last.
  - cbn. lia.
  - cbn [layout layout_restarts input_bytes].
    rewrite size_encode_entries_cons, size_app, length_app.
    pose proof (chosen_shared_bounds N c last k) as (Hs0 & Hs1 & Hs2).
    rewrite size_encode_entry by lia.
    specialize (IH (next_counter N c)
                  (off + (12 + (size k - chosen_shared N c last k) + size v)) k).
    destruct (c <? N); cbn [length] in *; lia.
Qed.

Lemma fold_left_encode (rs : list Z) : forall (buf : bytes),
  fold_left (fun buf restart => buf ++ encodeInt restart) rs buf
  = buf ++ concat (map encodeInt rs).
Proof.
  induction rs as [|r rs IH]; intros buf; cbn [fold_left map concat].
  - rewrite app_nil_r. reflexivity.
  - rewrite IH, <- app_assoc. reflexivity.
Qed.

Lemma size_concat_encodeInt (rs : list Z) :
  size (concat (map encodeInt rs)) = 4 * Z.of_nat (length rs).
Proof.
  induction rs as [|r rs IH]; cbn [map concat length].
  - reflexivity.
  - rewrite size_app, IH, size_encodeInt. lia.
Qed.

Lemma finish_bytes (b : BlockBuilder.t) :
  snd (BlockBuilder.finish b)
  = BlockBuilder.buffer_ b ++ concat (map encodeInt (BlockBuilder.restarts_ b))
      ++ encodeInt (u32 (Z.of_nat (length (BlockBuilder.restarts_ b)))).
Proof.
  unfold BlockBuilder.finish. cbn [snd].
  rewrite fold_left_encode, <- app_assoc. reflexivity.
Qed.

(* ================================================================== *)
(** ** The iterator on a well-formed block *)

Lemma load_in_bounds (data : bytes) (off n : Z) :
  0 <= off -> 0 <= n -> off + n <= size data ->
  exists bs, load data off n = Done bs.
Proof.
  intros H0 H1 H2. unfold load.
  replace ((0 <=? off) && (0 <=? n) && (off + n <=? size data)) with true.
  - eexists. reflexivity.
  - symmetry. rewrite !andb_true_iff, !Z.leb_le. lia.
Qed.

(** Projections of updated iterator states. *)
Ltac it_simpl :=
  cbn [BlockIterator.set_current BlockIterator.set_current_restart BlockIterator.set_key
       BlockIterator.set_val BlockIterator.set_status
       BlockIterator.comparator_ BlockIterator.data_ BlockIterator.restarts_
       BlockIterator.num_restarts_ BlockIterator.current_ BlockIterator.current_restart_
       BlockIterator.key_ BlockIterator.val_ BlockIterator.status_
       BlockIterator.data BlockIterator.len bind assert].

Ltac it_simpl_in H :=
  cbn [BlockIterator.set_current BlockIterator.set_current_restart BlockIterator.set_key
       BlockIterator.set_val BlockIterator.set_status
       BlockIterator.comparator_ BlockIterator.data_ BlockIterator.restarts_
       BlockIterator.num_restarts_ BlockIterator.current_ BlockIterator.current_restart_
       BlockIterator.key_ BlockIterator.val_ BlockIterator.status_
       BlockIterator.data BlockIterator.len bind assert] in H.

Lemma set_current_restart_twice (it : BlockIterator.t) (a b : Z) :
  BlockIterator.set_current_restart (BlockIterator.set_current_restart it a) b
  = BlockIterator.set_current_restart it b.
Proof. reflexivity. Qed.

Lemma set_current_restart_same (it : BlockIterator.t) :
  BlockIterator.set_current_restart it (BlockIterator.current_restart_ it) = it.
Proof. destruct it. reflexivity. Qed.

(** The loop that moves [current_restart_] reads inside the buffer and
    changes nothing else. *)
Lemma advance_restart_ok (fuel : nat) : forall (it : BlockIterator.t),
  0 <= BlockIterator.current_restart_ it < BlockIterator.num_restarts_ it ->
  4 * BlockIterator.num_restarts_ it <= size (BlockIterator.data_ it) ->
  BlockIterator.num_restarts_ it < 2 ^ 32 ->
  exists cr,
    0 <= cr < BlockIterator.num_restarts_ it
    /\ BlockIterator.advance_restart fuel it = Done (BlockIterator.set_current_restart it cr).
Proof.
  induction fuel as [|f IH]; intros it Hcr Hsz Hn; cbn [BlockIterator.advance_restart].
  - exists (BlockIterator.current_restart_ it). rewrite set_current_restart_same. auto.
  - destruct (u32 (BlockIterator.current_restart_ it + 1) <? BlockIterator.num_restarts_ it) eqn:E.
    + apply Z.ltb_lt in E.
      unfold BlockIterator.getRestartOffset.
      replace (BlockIterator.current_restart_ it <? BlockIterator.num_restarts_ it) with true
        by (symmetry; apply Z.ltb_lt; lia).
      cbn [assert bind]. unfold decodeInt_at.
      destruct (load_in_bounds (BlockIterator.data_ it)
                  (BlockIterator.current_restart_ it * 4) 4) as [bs Hbs]; try lia.
      rewrite Hbs. cbn [bind].
      destruct (decodeInt bs <? BlockIterator.current_ it).
      * pose proof (u32_range (BlockIterator.current_restart_ it + 1)) as Hr.
        destruct (IH (BlockIterator.set_current_restart it
                        (u32 (BlockIterator.current_restart_ it + 1))))
          as (cr & Hcr' & Hrun); auto.
        { cbn [BlockIterator.set_current_restart BlockIterator.current_restart_
               BlockIterator.num_restarts_]. lia. }
        exists cr. rewrite Hrun, set_current_restart_twice. auto.
      * exists (BlockIterator.current_restart_ it). rewrite set_current_restart_same. auto.
    + exists (BlockIterator.current_restart_ it). rewrite set_current_restart_same. auto.
Qed.

(** Parsing one record that sits where the previous value ends. *)
Lemma parse_at_record (it : BlockIterator.t) (pre post prev : bytes)
    (s : Z) (k v : bytes) :
  BlockIterator.data_ it = pre ++ encode_entry (s, k, v) ++ post ->
  BlockIterator.nextEntryOffset it = Done (size pre) ->
  size pre + size (encode_entry (s, k, v)) <= BlockIterator.restarts_ it ->
  BlockIterator.key_ it = prev ->
  0 <= s <= size prev -> s <= size k -> size k < 2 ^ 32 -> size v < 2 ^ 32 ->
  firstn (Z.to_nat s) prev = firstn (Z.to_nat s) k ->
  0 <= BlockIterator.current_restart_ it < BlockIterator.num_restarts_ it ->
  4 * BlockIterator.num_restarts_ it <= size (BlockIterator.data_ it) ->
  BlockIterator.num_restarts_ it < 2 ^ 32 ->
  exists cr,
    0 <= cr < BlockIterator.num_restarts_ it
    /\ BlockIterator.parseNextKeyVal it
       = Done (true,
               BlockIterator.mk (BlockIterator.comparator_ it) (BlockIterator.data_ it)
                 (BlockIterator.restarts_ it) (BlockIterator.num_restarts_ it)
                 (size pre) cr k
                 (BlockIterator.mkBinary (Some (size pre + 12 + (size k - s))) (size v))
                 (BlockIterator.status_ it)).
Proof.
  intros Hdata Hnext Hlim Hkey Hs Hsk Hk Hv Hag Hcr Hsz Hn.
  pose proof (size_nonneg pre) as Hp0. pose proof (size_nonneg v) as Hv0.
  pose proof (size_encode_entry s k v ltac:(lia)) as Hes.
  destruct it as [cmp data L R cur cr0 key val st].
  it_simpl_in Hdata. it_simpl_in Hlim. it_simpl_in Hkey. it_simpl_in Hcr.
  it_simpl_in Hsz. it_simpl_in Hn. it_simpl.
  unfold BlockIterator.parseNextKeyVal. rewrite Hnext. it_simpl.
  replace (size pre >=? L) with false by (symmetry; rewrite Z.geb_leb; apply Z.leb_gt; lia).
  unfold BlockIterator.decodeEntry. it_simpl.
  replace (size pre + 3 >? L) with false by (symmetry; rewrite Z.gtb_ltb; apply Z.ltb_ge; lia).
  unfold encode_entry in Hdata.
  rewrite (decodeInt_at_middle data pre
             (encodeInt (size k - s) ++ encodeInt (size v) ++ skipn (Z.to_nat s) k ++ v ++ post)
             s (size pre)); auto.
  2:{ rewrite Hdata, <- !app_assoc. reflexivity. }
  it_simpl.
  rewrite (decodeInt_at_middle data (pre ++ encodeInt s)
             (encodeInt (size v) ++ skipn (Z.to_nat s) k ++ v ++ post)
             (size k - s) (size pre + 4)).
  2:{ rewrite Hdata, <- !app_assoc. reflexivity. }
  2:{ rewrite size_app, size_encodeInt. reflexivity. }
  it_simpl.
  rewrite (decodeInt_at_middle data (pre ++ encodeInt s ++ encodeInt (size k - s))
             (skipn (Z.to_nat s) k ++ v ++ post)
             (size v) (size pre + 4 * 2)).
  2:{ rewrite Hdata, <- !app_assoc. reflexivity. }
  2:{ rewrite !size_app, !size_encodeInt. lia. }
  it_simpl.
  rewrite (u32_small s) by lia. rewrite (u32_small (size k - s)) by lia.
  rewrite (u32_small (size v)) by lia.
  subst key.
  replace (size prev <? s) with false by (symmetry; apply Z.ltb_ge; lia).
  rewrite (load_at data (pre ++ encodeInt s ++ encodeInt (size k - s) ++ encodeInt (size v))
             (skipn (Z.to_nat s) k) (v ++ post) (size pre + 4 * 3) (size k - s)).
  2:{ rewrite Hdata, <- !app_assoc. reflexivity. }
  2:{ rewrite !size_app, !size_encodeInt. lia. }
  2:{ rewrite size_skipn; lia. }
  it_simpl. rewrite resize_shared_prefix by auto.
  match goal with
  | |- context [BlockIterator.advance_restart ?f ?i] =>
      destruct (advance_restart_ok f i) as (cr & Hcr' & Hrun)
  end; it_simpl; auto.
  exists cr. split; auto. it_simpl_in Hrun. rewrite Hrun. it_simpl.
  replace (size pre + 4 * 3 + (size k - s)) with (size pre + 12 + (size k - s)) by lia.
  reflexivity.
Qed.

(** From the gap before a run of records, [parseNextKeyVal] followed by
    the caller's [valid]/[next] loop walks the whole run and ends invalid. *)
Lemma scan_records (post : bytes) (es : list (Z * bytes * bytes)) :
  forall (pre prev : bytes) (it : BlockIterator.t),
  BlockIterator.data_ it = pre ++ encode_entries es ++ post ->
  BlockIterator.restarts_ it = size pre + size (encode_entries es) ->
  size (BlockIterator.data_ it) < 2 ^ 32 ->
  4 * BlockIterator.num_restarts_ it <= size (BlockIterator.data_ it) ->
  0 <= BlockIterator.current_restart_ it < BlockIterator.num_restarts_ it ->
  BlockIterator.key_ it = prev ->
  chain prev es ->
  BlockIterator.nextEntryOffset it = Done (size pre) ->
  exists (ok : bool) (it1 : BlockIterator.t),
    BlockIterator.parseNextKeyVal it = Done (ok, it1)
    /\ forall fuel, (length es < fuel)%nat ->
       exists itf,
         collect_next fuel it1 = Done (map entry_of es, itf)
         /\ BlockIterator.valid itf = false
         /\ BlockIterator.status_ itf = BlockIterator.status_ it.
Proof.
  induction es as [|[[s k] v] rest IH]; intros pre prev it Hdata Hres Hsz Hnum Hcr Hkey Hch Hnext.
  - (* no record left: the next offset is the restart array *)
    cbn [encode_entries map concat] in Hres. rewrite size_nil, Z.add_0_r in Hres.
    unfold BlockIterator.parseNextKeyVal. rewrite Hnext. it_simpl.
    rewrite Hres, Z.geb_leb, Z.leb_refl.
    eexists. eexists. split; [reflexivity|].
    intros [|f] Hf; [cbn [length] in Hf; lia|].
    cbn [collect_next]. unfold BlockIterator.valid. it_simpl.
    rewrite Hres, Z.ltb_irrefl.
    eexists. split; [reflexivity|]. split.
    + it_simpl. rewrite Hres. apply Z.ltb_irrefl.
    + reflexivity.
  - cbn [chain] in Hch. destruct Hch as (Hs & Hsk & Hk & Hv & Hag & Hch).
    rewrite size_encode_entries_cons in Hdata, Hres.
    rewrite size_app in Hres. rewrite <- app_assoc in Hdata.
    pose proof (size_nonneg pre) as Hp0. pose proof (size_nonneg v) as Hv0.
    pose proof (size_nonneg (encode_entries rest)) as Hr0.
    pose proof (size_encode_entry s k v ltac:(lia)) as Hes.
    destruct (parse_at_record it pre (encode_entries rest ++ post) prev s k v)
      as (cr & Hcr' & Hparse); auto; try lia.
    set (it1 := BlockIterator.mk (BlockIterator.comparator_ it) (BlockIterator.data_ it)
                  (BlockIterator.restarts_ it) (BlockIterator.num_restarts_ it)
                  (size pre) cr k
                  (BlockIterator.mkBinary (Some (size pre + 12 + (size k - s))) (size v))
                  (BlockIterator.status_ it)) in *.
    exists true, it1. split; [exact Hparse|].
    assert (Hsize_data : size (BlockIterator.data_ it)
                         = size pre + size (encode_entry (s, k, v))
                           + size (encode_entries rest) + size post).
    { rewrite Hdata, !size_app. lia. }
    pose proof (size_nonneg post) as Hpost0.
    destruct (IH (pre ++ encode_entry (s, k, v)) k it1) as (ok2 & it2 & Hparse2 & Hcollect).
    + unfold it1. it_simpl. rewrite Hdata, <- !app_assoc. reflexivity.
    + unfold it1. it_simpl. rewrite Hres, size_app. lia.
    + unfold it1. it_simpl. exact Hsz.
    + unfold it1. it_simpl. exact Hnum.
    + unfold it1. it_simpl. exact Hcr'.
    + reflexivity.
    + exact Hch.
    + unfold it1, BlockIterator.nextEntryOffset. it_simpl.
      rewrite size_app, Hes. f_equal. rewrite u32_small; lia.
    + intros [|f] Hf; [lia|]. cbn [length] in Hf.
      destruct (Hcollect f ltac:(lia)) as (itf & Hrun & Hinv & Hst).
      exists itf. cbn [collect_next].
      assert (Hvalid : BlockIterator.valid it1 = true).
      { unfold it1, BlockIterator.valid. it_simpl. apply Z.ltb_lt. lia. }
      rewrite Hvalid.
      assert (Hval : BlockIterator.val_bytes it1 = Done v).
      { unfold it1, BlockIterator.val_bytes. it_simpl.
        apply (load_at _ (pre ++ encodeInt s ++ encodeInt (size k - s)
                            ++ encodeInt (size v) ++ skipn (Z.to_nat s) k)
                 v (encode_entries rest ++ post)).
        - rewrite Hdata. unfold encode_entry. rewrite <- !app_assoc. reflexivity.
        - rewrite !size_app, !size_encodeInt, size_skipn by lia. lia.
        - reflexivity. }
      rewrite Hval. cbn [bind]. unfold BlockIterator.next. rewrite Hvalid.
      cbn [assert bind]. rewrite Hparse2. cbn [bind]. rewrite Hrun. cbn [bind].
      split; [|split].
      * cbn [map entry_of]. reflexivity.
      * exact Hinv.
      * rewrite Hst. reflexivity.
Qed.

Lemma size_block_bytes (es : list (Z * bytes * bytes)) (rs : list Z) :
  size (block_bytes es rs) = size (encode_entries es) + 4 * Z.of_nat (length (0 :: rs)) + 4.
Proof.
  unfold block_bytes. rewrite !size_app, size_concat_encodeInt, size_encodeInt. lia.
Qed.

Lemma block_bytes_head (es : list (Z * bytes * bytes)) (rs : list Z) :
  chain [] es -> exists tail, block_bytes es rs = [] ++ encodeInt 0 ++ tail.
Proof.
  intros Hch. unfold block_bytes. destruct es as [|[[s k] v] rest].
  - cbn [encode_entries map concat app]. eexists. rewrite <- app_assoc. reflexivity.
  - cbn [chain] in Hch. destruct Hch as (Hs & _). rewrite size_nil in Hs.
    assert (s = 0) by lia. subst s.
    rewrite size_encode_entries_cons. unfold encode_entry.
    eexists. rewrite <- !app_assoc. cbn [app]. reflexivity.
Qed.

(** Opening a finished block: the constructor finds the restart count and
    the start of the restart array. *)
Lemma Block_of_block_bytes (init : Z) (es : list (Z * bytes * bytes)) (rs : list Z) :
  size (block_bytes es rs) < 2 ^ 32 ->
  Block.Block init (block_bytes es rs)
  = Done (Block.mk (block_bytes es rs) (size (block_bytes es rs))
            (Z.of_nat (length (0 :: rs))) (size (encode_entries es))).
Proof.
  intros Hsz. pose proof (size_block_bytes es rs) as Hsize.
  pose proof (size_nonneg (encode_entries es)) as He0.
  set (R := Z.of_nat (length (0 :: rs))) in *.
  assert (HR : 1 <= R) by (unfold R; cbn [length]; lia).
  unfold Block.Block.
  rewrite (decodeInt_at_middle (block_bytes es rs)
             (encode_entries es ++ concat (map encodeInt (0 :: rs))) [] R).
  2:{ unfold block_bytes. fold R. rewrite app_nil_r, <- app_assoc. reflexivity. }
  2:{ rewrite size_app, size_concat_encodeInt. fold R. lia. }
  cbn [bind]. rewrite (u32_small R) by lia.
  replace (R >? (size (block_bytes es rs) - 4) / 4) with false.
  2:{ symmetry. rewrite Z.gtb_ltb. apply Z.ltb_ge.
      apply Z.div_le_lower_bound; lia. }
  rewrite (u32_small (1 + R)) by lia.
  rewrite (u32_small ((1 + R) * 4)) by lia.
  rewrite u32_small by lia.
  f_equal. f_equal. lia.
Qed.

(** [first()] and the caller's loop over a block made of a chain of
    records. *)
Lemma scan_forward_block_bytes (cmp : bytes -> bytes -> Z) (init : Z)
    (es : list (Z * bytes * bytes)) (rs : list Z) :
  chain [] es ->
  size (block_bytes es rs) < 2 ^ 32 ->
  exists blk,
    Block.Block init (block_bytes es rs) = Done blk
    /\ forall fuel, (length es < fuel)%nat ->
       exists itf,
         scan_forward fuel (iterator blk cmp) = Done (map entry_of es, itf)
         /\ BlockIterator.valid itf = false
         /\ BlockIterator.status itf = BlockIterator.OK.
Proof.
  intros Hch Hsz. eexists. split; [apply Block_of_block_bytes; exact Hsz|].
  pose proof (size_block_bytes es rs) as Hsize.
  pose proof (size_nonneg (encode_entries es)) as He0.
  set (R := Z.of_nat (length (0 :: rs))) in *.
  assert (HR : 1 <= R) by (unfold R; cbn [length]; lia).
  unfold iterator, BlockIterator.BlockIterator.
  cbn [Block.data_ Block.restart_offset_ Block.num_restarts_].
  set (it0 := BlockIterator.mk cmp (block_bytes es rs) (size (encode_entries es)) R
                0 0 [] (BlockIterator.mkBinary None 0) BlockIterator.OK).
  destruct (block_bytes_head es rs Hch) as (tail & Hhead).
  assert (Hseek : BlockIterator.seekToRestartPoint it0 0
                  = Done (BlockIterator.mk cmp (block_bytes es rs) (size (encode_entries es)) R
                            0 0 [] (BlockIterator.mkBinary (Some 0) 0) BlockIterator.OK)).
  { unfold BlockIterator.seekToRestartPoint, BlockIterator.getRestartOffset, it0. it_simpl.
    replace (0 <? R) with true by (symmetry; apply Z.ltb_lt; lia).
    it_simpl. rewrite (decodeInt_at_middle _ [] tail 0 (0 * 4) Hhead eq_refl).
    reflexivity. }
  set (it' := BlockIterator.mk cmp (block_bytes es rs) (size (encode_entries es)) R
                0 0 [] (BlockIterator.mkBinary (Some 0) 0) BlockIterator.OK) in *.
  destruct (scan_records
              (concat (map encodeInt (0 :: rs)) ++ encodeInt (Z.of_nat (length (0 :: rs))))
              es [] [] it')
    as (ok & it1 & Hparse & Hcollect); unfold it'; it_simpl; auto.
  - rewrite Hsize. lia.
  - lia.
  - intros fuel Hfuel. destruct (Hcollect fuel Hfuel) as (itf & Hrun & Hinv & Hst).
    exists itf. unfold scan_forward, BlockIterator.first. rewrite Hseek. cbn [bind].
    fold it'. rewrite Hparse. cbn [bind]. rewrite Hrun.
    repeat split; auto.
Qed.

(** What [build] returns for sorted input that fits 32-bit offsets. *)
Lemma build_layout (options : Options) (kvs : list entry) :
  strictly_increasing (comparator options) kvs ->
  fits_u32 kvs ->
  let N := block_restart_interval options in
  build options kvs
  = Done (block_bytes (layout N 0 [] kvs) (layout_restarts N 0 0 [] kvs))
  /\ size (block_bytes (layout N 0 [] kvs) (layout_restarts N 0 0 [] kvs)) < 2 ^ 32.
Proof.
  intros Hinc Hfit N. unfold fits_u32 in Hfit.
  destruct (add_all_layout kvs (BlockBuilder.BlockBuilder options))
    as (b' & Hrun & _ & _ & _ & Hbuf & Hres); cbn; auto; try lia.
  split.
  - unfold build, add_all_finish. rewrite Hrun. cbn [bind].
    rewrite finish_bytes, Hbuf, Hres. cbn [BlockBuilder.BlockBuilder BlockBuilder.buffer_
      BlockBuilder.restarts_ BlockBuilder.block_restart_interval_ BlockBuilder.counter_
      BlockBuilder.last_key_ app]. fold N.
    rewrite ?size_nil. unfold block_bytes. rewrite u32_small; [reflexivity|].
    pose proof (layout_size N kvs 0 0 []).
    pose proof (size_nonneg (encode_entries (layout N 0 [] kvs))). cbn [length]. lia.
  - rewrite size_block_bytes. pose proof (layout_size N kvs 0 0 []).
    cbn [length]. lia.
Qed.

(* ================================================================== *)
(** ** Properties of the builder *)

(** C9.  At any point, [sizeEstimate()] is the buffer length plus four
    bytes per recorded restart offset plus four bytes for the count, and
    that is exactly the length of what [finish()] returns there. *)
Theorem sizeEstimate_is_finish_length (b : BlockBuilder.t) :
  BlockBuilder.sizeEstimate b
  = size (BlockBuilder.buffer_ b)
    + (4 * Z.of_nat (length (BlockBuilder.restarts_ b)) + 4)
  /\ size (snd (BlockBuilder.finish b)) = BlockBuilder.sizeEstimate b.
Proof.
  unfold BlockBuilder.sizeEstimate. split; [lia|].
  rewrite finish_bytes, !size_app, size_concat_encodeInt, size_encodeInt. lia.
Qed.

Lemma reset_is_fresh (used : BlockBuilder.t) :
  BlockBuilder.reset used
  = BlockBuilder.BlockBuilder
      (mkOptions (BlockBuilder.comparator_ used) (BlockBuilder.block_restart_interval_ used)).
Proof. reflexivity. Qed.

(** C8.  After [reset()] a used builder, whatever its state, given sorted
    input returns from the adds and [finish()] the very bytes a freshly
    constructed builder with the same options returns. *)
Theorem reset_then_build_same_bytes (used : BlockBuilder.t) (kvs : list entry) :
  strictly_increasing (BlockBuilder.comparator_ used) kvs ->
  fits_u32 kvs ->
  exists content,
    add_all_finish (BlockBuilder.reset used) kvs = Done content
    /\ build (mkOptions (BlockBuilder.comparator_ used)
                (BlockBuilder.block_restart_interval_ used)) kvs
       = Done content.
Proof.
  intros Hinc Hfit.
  destruct (build_layout
              (mkOptions (BlockBuilder.comparator_ used)
                 (BlockBuilder.block_restart_interval_ used)) kvs Hinc Hfit)
    as [Hbuild _].
  eexists. split; [|exact Hbuild].
  rewrite reset_is_fresh. exact Hbuild.
Qed.

Lemma reset_then_build_same_bytes_witness :
  strictly_increasing BytewiseComparator ab_entries
  /\ fits_u32 ab_entries
  /\ exists content,
       add_all_finish
         (BlockBuilder.reset
            (fst (BlockBuilder.finish (BlockBuilder.BlockBuilder (bytewise 1)))))
         ab_entries = Done content
       /\ build (bytewise 1) ab_entries = Done content.
Proof.
  assert (Hinc : strictly_increasing BytewiseComparator ab_entries)
    by (vm_compute; split; [reflexivity | exact I]).
  assert (Hfit : fits_u32 ab_entries) by (vm_compute; reflexivity).
  split; [exact Hinc|]. split; [exact Hfit|].
  exact (reset_then_build_same_bytes
           (fst (BlockBuilder.finish (BlockBuilder.BlockBuilder (bytewise 1))))
           ab_entries Hinc Hfit).
Defined.

(* ================================================================== *)
(** ** Forward iteration *)

(** C1.  Entries with strictly increasing keys, added in order to a fresh
    builder and finished, opened as a [Block] and walked with [first()]
    and [next()], come back exactly and in order, and the iterator is
    then invalid.  The block is required to fit 32-bit offsets, which is
    the width of every length and offset field of the format. *)
Theorem roundtrip_first_next (options : Options) (restart_offset_init : Z)
    (kvs : list entry) :
  strictly_increasing (comparator options) kvs ->
  fits_u32 kvs ->
  exists content blk,
    build options kvs = Done content
    /\ Block.Block restart_offset_init content = Done blk
    /\ forall fuel, (length kvs < fuel)%nat ->
       exists itf,
         scan_forward fuel (iterator blk (comparator options)) = Done (kvs, itf)
         /\ BlockIterator.valid itf = false.
Proof.
  intros Hinc Hfit.
  destruct (build_layout options kvs Hinc Hfit) as [Hbuild Hsize].
  set (N := block_restart_interval options) in *.
  assert (Hch : chain [] (layout N 0 [] kvs)).
  { apply layout_chain. unfold fits_u32 in Hfit. lia. }
  destruct (scan_forward_block_bytes (comparator options) restart_offset_init
              (layout N 0 [] kvs) (layout_restarts N 0 0 [] kvs) Hch Hsize)
    as (blk & Hblk & Hscan).
  exists (block_bytes (layout N 0 [] kvs) (layout_restarts N 0 0 [] kvs)), blk.
  split; [exact Hbuild|]. split; [exact Hblk|].
  intros fuel Hfuel.
  assert (Hlen : length (layout N 0 [] kvs) = length kvs).
  { rewrite <- (map_entry_of_layout N kvs 0 []) at 2. rewrite length_map. reflexivity. }
  destruct (Hscan fuel ltac:(lia)) as (itf & Hrun & Hinv & _).
  exists itf. rewrite map_entry_of_layout in Hrun. auto.
Qed.

Lemma roundtrip_first_next_witness :
  strictly_increasing BytewiseComparator ab_entries
  /\ fits_u32 ab_entries
  /\ exists content blk,
       build (bytewise 1) ab_entries = Done content
       /\ Block.Block 0 content = Done blk
       /\ forall fuel, (length ab_entries < fuel)%nat ->
          exists itf,
            scan_forward fuel (iterator blk BytewiseComparator) = Done (ab_entries, itf)
            /\ BlockIterator.valid itf = false.
Proof.
  assert (Hinc : strictly_increasing BytewiseComparator ab_entries)
    by (vm_compute; split; [reflexivity | exact I]).
  assert (Hfit : fits_u32 ab_entries) by (vm_compute; reflexivity).
  split; [exact Hinc|]. split; [exact Hfit|].
  exact (roundtrip_first_next (bytewise 1) 0 ab_entries Hinc Hfit).
Defined.

(* ================================================================== *)
(** ** The empty block *)

(** C10.  A builder finished with no [add] returns eight bytes: the restart
    offset 0, then the restart count 1.  A [Block] is constructed from
    them, and [first()], [last()] and [seek(t)] for any target, from any
    state of an iterator over it, leave the iterator invalid with an OK
    status. *)
Theorem empty_block_positioning (options : Options) (restart_offset_init : Z)
    (target : bytes) (fuel : nat) (it : BlockIterator.t) :
  (0 < fuel)%nat ->
  let content := encodeInt 0 ++ encodeInt 1 in
  let blk := Block.mk content 8 1 0 in
  build options [] = Done content
  /\ size content = 8
  /\ Block.Block restart_offset_init content = Done blk
  /\ ends_invalid_ok (BlockIterator.first (iterator blk (comparator options)))
  /\ ends_invalid_ok (BlockIterator.last fuel (iterator blk (comparator options)))
  /\ ends_invalid_ok (BlockIterator.seek fuel (iterator blk (comparator options)) target)
  /\ (iterator_over blk it -> BlockIterator.status it = BlockIterator.OK ->
      ends_invalid_ok (BlockIterator.first it)
      /\ ends_invalid_ok (BlockIterator.last fuel it)
      /\ ends_invalid_ok (BlockIterator.seek fuel it target)).
Proof.
  intros Hfuel content blk.
  destruct fuel as [|f]; [lia|].
  assert (Hany : forall it0 : BlockIterator.t,
             iterator_over blk it0 -> BlockIterator.status it0 = BlockIterator.OK ->
             ends_invalid_ok (BlockIterator.first it0)
             /\ ends_invalid_ok (BlockIterator.last (S f) it0)
             /\ ends_invalid_ok (BlockIterator.seek (S f) it0 target)).
  { intros [cmp data L R cur cr key val st] (Hd & Hl & Hr & Hc) Hst.
    unfold blk, content in Hd, Hl, Hr. cbn in Hd, Hl, Hr, Hc, Hst. subst data L R st.
    unfold ends_invalid_ok. repeat split.
    - eexists. split; [vm_compute; reflexivity|]. split; reflexivity.
    - eexists. split; [vm_compute; reflexivity|]. split; reflexivity.
    - unfold BlockIterator.seek, BlockIterator.valid. it_simpl.
      replace (cur <? 0) with false by (symmetry; apply Z.ltb_ge; lia).
      change (u32 (1 - 1)) with 0.
      cbn [BlockIterator.seek_search Z.ltb Z.compare Z.eqb orb]. it_simpl.
      rewrite andb_false_r. cbn [negb].
      eexists. split; [vm_compute; reflexivity|]. split; reflexivity. }
  split; [reflexivity|]. split; [reflexivity|]. split; [reflexivity|].
  assert (Hfresh : iterator_over blk (iterator blk (comparator options))).
  { unfold iterator_over. cbn. repeat split; lia. }
  destruct (Hany _ Hfresh eq_refl) as (H1 & H2 & H3).
  split; [exact H1|]. split; [exact H2|]. split; [exact H3|].
  intros Hover Hst. apply Hany; assumption.
Qed.

Lemma empty_block_positioning_witness :
  (0 < 1)%nat
  /\ iterator_over empty_block (iterator empty_block BytewiseComparator)
  /\ BlockIterator.status (iterator empty_block BytewiseComparator) = BlockIterator.OK
  /\ ends_invalid_ok (BlockIterator.first (iterator empty_block BytewiseComparator))
  /\ ends_invalid_ok (BlockIterator.last 1 (iterator empty_block BytewiseComparator))
  /\ ends_invalid_ok
       (BlockIterator.seek 1 (iterator empty_block BytewiseComparator) (str "k")).
Proof.
  assert (Hfuel : (0 < 1)%nat) by apply Nat.lt_0_1.
  assert (Hover : iterator_over empty_block (iterator empty_block BytewiseComparator)).
  { unfold iterator_over. cbn. repeat split. discriminate. }
  assert (Hst : BlockIterator.status (iterator empty_block BytewiseComparator)
                = BlockIterator.OK) by reflexivity.
  split; [exact Hfuel|]. split; [exact Hover|]. split; [exact Hst|].
  destruct (empty_block_positioning (bytewise 16) 0 (str "k") 1
              (iterator empty_block BytewiseComparator) Hfuel)
    as (_ & _ & _ & _ & _ & _ & Hany).
  exact (Hany Hover Hst).
Defined.

(* ================================================================== *)
(** ** The restart rule *)

Lemma counter_mod_step (N j : Z) :
  1 <= N -> 0 <= j ->
  (j mod N + 1 <? N) = negb ((j + 1) mod N =? 0)
  /\ next_counter N (j mod N + 1) = (j + 1) mod N + 1.
Proof.
  intros HN Hj. unfold next_counter.
  pose proof (Z.mod_pos_bound j N ltac:(lia)) as Hr.
  pose proof (Z.div_mod j N ltac:(lia)) as Hdm.
  destruct (j mod N + 1 <? N) eqn:E.
  - apply Z.ltb_lt in E.
    assert (Hm : j mod N + 1 = (j + 1) mod N).
    { apply (Z.mod_unique (j + 1) N (j / N) (j mod N + 1)); lia. }
    rewrite <- Hm. split; [|reflexivity].
    symmetry. apply negb_true_iff, Z.eqb_neq. lia.
  - apply Z.ltb_ge in E.
    assert (Hm : 0 = (j + 1) mod N).
    { apply (Z.mod_unique (j + 1) N (j / N + 1) 0); lia. }
    rewrite <- Hm. split; reflexivity.
Qed.

(** From the second entry on, the builder's counter is one more than the
    previous index modulo the interval, and its choices are the rule's. *)
Lemma layout_expected_from (N : Z) (kvs : list entry) : forall (i : nat) (last : bytes) (off : Z),
  1 <= N ->
  let c := Z.of_nat i mod N + 1 in
  layout N c last kvs = expected_entries N (S i) last kvs
  /\ layout_restarts N c off last kvs
     = expected_restarts N (S i) off (expected_entries N (S i) last kvs).
Proof.
  induction kvs as [|[k v] rest IH]; intros i last off HN c.
  - split; reflexivity.
  - destruct (counter_mod_step N (Z.of_nat i) HN ltac:(lia)) as [Hlt Hnext].
    fold c in Hlt, Hnext.
    replace (Z.of_nat i + 1) with (Z.of_nat (S i)) in Hlt, Hnext by lia.
    assert (Hsh : chosen_shared N c last k = expected_shared N (S i) last k).
    { unfold chosen_shared, expected_shared. rewrite Hlt.
      destruct (Z.of_nat (S i) mod N =? 0); reflexivity. }
    cbn [layout layout_restarts expected_entries expected_restarts].
    rewrite Hsh, Hnext.
    destruct (IH (S i) k (off + size (encode_entry (expected_shared N (S i) last k, k, v))) HN)
      as [IH1 IH2].
    cbv zeta in IH1, IH2. rewrite IH1, IH2. split; [reflexivity|].
    rewrite Hlt. destruct (Z.of_nat (S i) mod N =? 0); reflexivity.
Qed.

Lemma layout_expected_fresh (N : Z) (kvs : list entry) :
  1 <= N ->
  layout N 0 [] kvs = expected_entries N 0 [] kvs
  /\ 0 :: layout_restarts N 0 0 [] kvs
     = match kvs with
       | [] => [0]
       | _ :: _ => expected_restarts N 0 0 (expected_entries N 0 [] kvs)
       end.
Proof.
  intros HN. destruct kvs as [|[k v] rest]; [split; reflexivity|].
  cbn [layout layout_restarts expected_entries expected_restarts].
  assert (Hc : next_counter N 0 = Z.of_nat 0 mod N + 1).
  { unfold next_counter. replace (0 <? N) with true by (symmetry; apply Z.ltb_lt; lia).
    rewrite Z.mod_0_l by lia. reflexivity. }
  assert (Hsh : chosen_shared N 0 [] k = expected_shared N 0 [] k).
  { unfold chosen_shared, expected_shared. rewrite Z.mod_0_l by lia.
    cbn [Z.of_nat Z.eqb]. destruct (0 <? N); reflexivity. }
  rewrite Hsh, Hc.
  destruct (layout_expected_from N rest 0 k
              (0 + size (encode_entry (expected_shared N 0 [] k, k, v))) HN) as [H1 H2].
  cbv zeta in H1, H2. rewrite H1, H2.
  replace (0 <? N) with true by (symmetry; apply Z.ltb_lt; lia).
  rewrite Z.mod_0_l by lia. cbn [Z.of_nat Z.eqb app]. split; reflexivity.
Qed.

(** C5, as the code has it.  With interval [N >= 1] and sorted input, the
    buffer is the sequence of records in which every entry whose index is
    a multiple of [N] has shared length 0 and every other entry shares the
    longest common prefix with the key before it, and the restart list
    holds exactly the buffer offsets of the entries whose index is a
    multiple of [N].  For the fruit keys with interval 2 the
    (shared, non_shared) fields are (0,5), (4,7), (0,6) and the restart
    list is [0; 38], 38 being the offset of the third record. *)
Theorem restart_rule (cmp : bytes -> bytes -> Z) (N : Z) (kvs : list entry) :
  1 <= N ->
  strictly_increasing cmp kvs ->
  fits_u32 kvs ->
  (exists b,
      add_all (BlockBuilder.BlockBuilder (mkOptions cmp N)) kvs = Done b
      /\ BlockBuilder.buffer_ b = encode_entries (expected_entries N 0 [] kvs)
      /\ BlockBuilder.restarts_ b
         = match kvs with
           | [] => [0]
           | _ :: _ => expected_restarts N 0 0 (expected_entries N 0 [] kvs)
           end)
  /\ fruit_fields = Done [(0, 5); (4, 7); (0, 6)]
  /\ fruit_restarts = Done [0; 38].
Proof.
  intros HN Hinc Hfit. split; [|split; vm_compute; reflexivity].
  unfold fits_u32 in Hfit.
  destruct (add_all_layout kvs (BlockBuilder.BlockBuilder (mkOptions cmp N)))
    as (b & Hrun & _ & _ & _ & Hbuf & Hres).
  - reflexivity.
  - cbn. lia.
  - cbn [BlockBuilder.BlockBuilder BlockBuilder.buffer_]. rewrite size_nil. lia.
  - left. split; [reflexivity | exact Hinc].
  - destruct (layout_expected_fresh N kvs HN) as [Hl Hr].
    exists b. split; [exact Hrun|].
    cbn [BlockBuilder.BlockBuilder BlockBuilder.buffer_ BlockBuilder.restarts_
         BlockBuilder.block_restart_interval_ BlockBuilder.counter_
         BlockBuilder.last_key_ comparator block_restart_interval app] in Hbuf, Hres.
    rewrite size_nil in Hres. rewrite Hl in Hbuf. split; [exact Hbuf|].
    rewrite Hres. exact Hr.
Qed.

Lemma restart_rule_witness :
  1 <= 2
  /\ strictly_increasing BytewiseComparator fruit_entries
  /\ fits_u32 fruit_entries
  /\ exists b,
       add_all (BlockBuilder.BlockBuilder (mkOptions BytewiseComparator 2)) fruit_entries
       = Done b
       /\ BlockBuilder.buffer_ b = encode_entries (expected_entries 2 0 [] fruit_entries)
       /\ BlockBuilder.restarts_ b
          = expected_restarts 2 0 0 (expected_entries 2 0 [] fruit_entries).
Proof.
  assert (HN : 1 <= 2) by lia.
  assert (Hinc : strictly_increasing BytewiseComparator fruit_entries)
    by (vm_compute; repeat split; reflexivity).
  assert (Hfit : fits_u32 fruit_entries) by (vm_compute; reflexivity).
  split; [exact HN|]. split; [exact Hinc|]. split; [exact Hfit|].
  exact (proj1 (restart_rule BytewiseComparator 2 fruit_entries HN Hinc Hfit)).
Defined.

(** C5, with the figures (0,5), (5,7), (0,6) of the specification's
    example: the second record of the fruit block does not carry the
    fields (5,7); "apple" and "application" agree on four bytes only. *)
Lemma fruit_fields_not_as_claimed :
  fruit_fields <> Done [(0, 5); (5, 7); (0, 6)]
  /\ common_prefix_length (str "apple") (str "application") = 4.
Proof.
  split; [|reflexivity].
  vm_compute. intros H. discriminate H.
Qed.

(* ================================================================== *)
(** ** Fuel and status *)

(** In states within [uint32_t] range the fuel given to the restart loop
    in [parseNextKeyVal] is never what stops it: more fuel changes
    nothing. *)
Lemma advance_restart_fuel (fuel : nat) : forall (it : BlockIterator.t) (k : nat),
  0 <= BlockIterator.current_restart_ it < 2 ^ 32 ->
  BlockIterator.num_restarts_ it < 2 ^ 32 ->
  BlockIterator.num_restarts_ it - BlockIterator.current_restart_ it <= Z.of_nat fuel ->
  (1 <= fuel)%nat \/ BlockIterator.num_restarts_ it <= 0 ->
  BlockIterator.advance_restart (fuel + k) it = BlockIterator.advance_restart fuel it.
Proof.
  induction fuel as [|f IH]; intros it k Hcr Hn Hfuel Hpos.
  - destruct Hpos as [Hpos | Hpos]; [lia|].
    destruct k as [|k]; [reflexivity|].
    cbn [Nat.add BlockIterator.advance_restart].
    pose proof (u32_range (BlockIterator.current_restart_ it + 1)).
    replace (u32 (BlockIterator.current_restart_ it + 1) <? BlockIterator.num_restarts_ it)
      with false by (symmetry; apply Z.ltb_ge; lia).
    reflexivity.
  - cbn [Nat.add BlockIterator.advance_restart].
    destruct (u32 (BlockIterator.current_restart_ it + 1) <? BlockIterator.num_restarts_ it) eqn:E;
      [|reflexivity].
    destruct (BlockIterator.getRestartOffset it (BlockIterator.current_restart_ it)) as [off|e] eqn:G;
      [|reflexivity].
    cbn [bind]. destruct (off <? BlockIterator.current_ it); [|reflexivity].
    apply Z.ltb_lt in E.
    assert (Hlt : BlockIterator.current_restart_ it < BlockIterator.num_restarts_ it).
    { unfold BlockIterator.getRestartOffset in G.
      destruct (BlockIterator.current_restart_ it <? BlockIterator.num_restarts_ it) eqn:A.
      - apply Z.ltb_lt in A. exact A.
      - cbn in G. discriminate G. }
    rewrite (u32_small (BlockIterator.current_restart_ it + 1)) in * by lia.
    apply IH; it_simpl; lia.
Qed.

Lemma advance_restart_status (fuel : nat) : forall (it it' : BlockIterator.t),
  BlockIterator.advance_restart fuel it = Done it' ->
  BlockIterator.status_ it' = BlockIterator.status_ it.
Proof.
  induction fuel as [|f IH]; intros it it' H; cbn [BlockIterator.advance_restart] in H.
  - inversion H. reflexivity.
  - destruct (u32 (BlockIterator.current_restart_ it + 1) <? BlockIterator.num_restarts_ it).
    + destruct (BlockIterator.getRestartOffset it (BlockIterator.current_restart_ it))
        as [off|]; cbn [bind] in H; [|discriminate H].
      destruct (off <? BlockIterator.current_ it).
      * apply IH in H. exact H.
      * inversion H. reflexivity.
    + inversion H. reflexivity.
Qed.

(** [parseNextKeyVal] never touches the status, whatever it meets. *)
Lemma parseNextKeyVal_status (it it' : BlockIterator.t) (ok : bool) :
  BlockIterator.parseNextKeyVal it = Done (ok, it') ->
  BlockIterator.status_ it' = BlockIterator.status_ it.
Proof.
  unfold BlockIterator.parseNextKeyVal. intros H.
  destruct (BlockIterator.nextEntryOffset it) as [cur|]; cbn [bind] in H; [|discriminate H].
  it_simpl_in H.
  destruct (cur >=? BlockIterator.restarts_ it).
  - inversion H. reflexivity.
  - destruct (BlockIterator.decodeEntry (BlockIterator.set_current it cur) cur
                (BlockIterator.restarts_ it)) as [[[[[p sh] ns] vs]|]|];
      cbn [bind] in H; try discriminate H.
    + destruct (size (BlockIterator.key_ it) <? sh).
      * inversion H. reflexivity.
      * destruct (load (BlockIterator.data_ it) p ns) as [suffix|]; cbn [bind] in H;
          [|discriminate H].
        match type of H with
        | context [BlockIterator.advance_restart ?f ?i] =>
            destruct (BlockIterator.advance_restart f i) as [it2|] eqn:A
        end; cbn [bind] in H; [|discriminate H].
        inversion H. subst. apply advance_restart_status in A. exact A.
    + inversion H. reflexivity.
Qed.

(** So [first()] and [next()] cannot report corruption: whenever they
    return, the status is the one they started with. *)
Lemma first_keeps_status (it it' : BlockIterator.t) :
  BlockIterator.first it = Done it' ->
  BlockIterator.status it' = BlockIterator.status it.
Proof.
  unfold BlockIterator.first, BlockIterator.seekToRestartPoint, BlockIterator.status.
  intros H.
  match type of H with
  | context [BlockIterator.getRestartOffset ?i ?x] =>
      destruct (BlockIterator.getRestartOffset i x) as [off|]
  end; cbn [bind] in H; [|discriminate H].
  match type of H with
  | context [BlockIterator.parseNextKeyVal ?i] =>
      destruct (BlockIterator.parseNextKeyVal i) as [[ok it1]|] eqn:P
  end; cbn [bind] in H; [|discriminate H].
  inversion H. subst. apply parseNextKeyVal_status in P. exact P.
Qed.

Lemma next_keeps_status (it it' : BlockIterator.t) :
  BlockIterator.next it = Done it' ->
  BlockIterator.status it' = BlockIterator.status it.
Proof.
  unfold BlockIterator.next, BlockIterator.status. intros H.
  destruct (BlockIterator.valid it); cbn [assert bind] in H; [|discriminate H].
  destruct (BlockIterator.parseNextKeyVal it) as [[ok it1]|] eqn:P;
    cbn [bind] in H; [|discriminate H].
  inversion H. subst. apply parseNextKeyVal_status in P. exact P.
Qed.

(** The one-entry block with its last byte removed: the constructor takes
    it for an invalid block, and whatever the unassigned member holds,
    [first()] returns, if at all, with status OK. *)
Lemma truncated_block_first_status (restart_offset_init : Z)
    (cmp : bytes -> bytes -> Z) (it' : BlockIterator.t) :
  (content <- build (bytewise 16) a_entry ;;
   blk <- Block.Block restart_offset_init (removelast content) ;;
   BlockIterator.first (iterator blk cmp)) = Done it' ->
  BlockIterator.status it' = BlockIterator.OK.
Proof.
  destruct (build (bytewise 16) a_entry) as [content|] eqn:Hbuild;
    [|vm_compute in Hbuild; discriminate Hbuild].
  vm_compute in Hbuild. injection Hbuild as <-. cbn [bind].
  match goal with
  | |- context [Block.Block ?i ?c] =>
      assert (Hblk : Block.Block i c = Done (Block.mk c 0 256 i))
        by (vm_compute; reflexivity)
  end.
  rewrite Hblk. cbn [bind].
  intros H. apply first_keeps_status in H. rewrite H. reflexivity.
Qed.

(* ================================================================== *)
(** ** Where the iterator departs from the format's rules *)

(** C2.  On the block built from "a" and "b" with restart interval 1,
    [seek("b")] ends invalid with a corruption status, on a new iterator
    and after [first()] alike, although "b" is stored; on the one-entry
    block with interval 16, [seek("")] on a new iterator returns at once
    and shows an empty key and value rather than the entry ("a","1"). *)
Theorem seek_misses_stored_key :
  observe (blk <- open_block (bytewise 1) ab_entries ;;
           BlockIterator.seek 10 (iterator blk BytewiseComparator) (str "b"))
  = Done (None, false, BlockIterator.Corruption "invalid entry in block")
  /\ observe (blk <- open_block (bytewise 1) ab_entries ;;
              it <- BlockIterator.first (iterator blk BytewiseComparator) ;;
              BlockIterator.seek 10 it (str "b"))
     = Done (None, false, BlockIterator.Corruption "invalid entry in block")
  /\ observe (blk <- open_block (bytewise 16) a_entry ;;
              BlockIterator.seek 10 (iterator blk BytewiseComparator) (str ""))
     = Done (Some ([], []), true, BlockIterator.OK).
Proof. repeat split; vm_compute; reflexivity. Qed.

(** C3.  [first()] over a block whose only entry is cut short (the decode
    helper returns the null pointer), and over a block whose first record
    claims a shared prefix, returns with the status still OK and the
    iterator still valid. *)
Theorem parse_failure_leaves_status_ok :
  observe (blk <- Block.Block 0 short_entry_block ;;
           BlockIterator.first (iterator blk BytewiseComparator))
  = Done (Some ([], []), true, BlockIterator.OK)
  /\ observe (blk <- Block.Block 0 shared_at_restart_block ;;
              BlockIterator.first (iterator blk BytewiseComparator))
     = Done (Some ([], []), true, BlockIterator.OK).
Proof. repeat split; vm_compute; reflexivity. Qed.

(** C4.  The one-entry block with its restart offset overwritten by 1000
    iterates as if nothing had happened, status OK; the same block with
    its last byte removed is taken as an empty block (the member the
    constructor leaves unassigned being 0) and iterates to nothing, status
    OK. *)
Theorem damaged_block_reports_ok :
  observe_scan (content <- build (bytewise 16) a_entry ;;
                blk <- Block.Block 0 (overwrite_restart content 1000) ;;
                scan_forward 10 (iterator blk BytewiseComparator))
  = Done (a_entry, false, BlockIterator.OK)
  /\ observe_scan (content <- build (bytewise 16) a_entry ;;
                   blk <- Block.Block 0 (removelast content) ;;
                   scan_forward 10 (iterator blk BytewiseComparator))
     = Done ([], false, BlockIterator.OK).
Proof. repeat split; vm_compute; reflexivity. Qed.

(** C6.  On the block built from "a" and "b" with restart interval 1,
    [last()] and repeated [prev()] show an empty entry and then ("a","1"),
    not ("b","2") and then ("a","1"). *)
Theorem last_prev_misses_last_entry :
  observe_scan (blk <- open_block (bytewise 1) ab_entries ;;
                scan_backward 10 (iterator blk BytewiseComparator))
  = Done ([([], []); (str "a", str "1")], false, BlockIterator.OK)
  /\ rev ab_entries = [(str "b", str "2"); (str "a", str "1")].
Proof. repeat split; vm_compute; reflexivity. Qed.

(** C7.  [seek("")] on a new iterator over the two-entry block shows an
    empty entry, and after [first()] it shows ("a","1"); with restart
    interval 1, [seek("a")] after [first()] shows ("a","1"), and after the
    iterator ran off the end it reports corruption. *)
Theorem seek_depends_on_prior_state :
  observe (blk <- open_block (bytewise 16) ab_entries ;;
           BlockIterator.seek 10 (iterator blk BytewiseComparator) (str ""))
  = Done (Some ([], []), true, BlockIterator.OK)
  /\ observe (blk <- open_block (bytewise 16) ab_entries ;;
              it <- BlockIterator.first (iterator blk BytewiseComparator) ;;
              BlockIterator.seek 10 it (str ""))
     = Done (Some (str "a", str "1"), true, BlockIterator.OK)
  /\ observe (blk <- open_block (bytewise 1) ab_entries ;;
              it <- BlockIterator.first (iterator blk BytewiseComparator) ;;
              BlockIterator.seek 10 it (str "a"))
     = Done (Some (str "a", str "1"), true, BlockIterator.OK)
  /\ observe (blk <- open_block (bytewise 1) ab_entries ;;
              '(_, it) <- scan_forward 10 (iterator blk BytewiseComparator) ;;
              BlockIterator.seek 10 it (str "a"))
     = Done (None, false, BlockIterator.Corruption "invalid entry in block").
Proof. repeat split; vm_compute; reflexivity. Qed.

(* ================================================================== *)
(** ** More on the builder *)

Lemma Done_inj {A : Type} (a b : A) : Done a = Done b -> a = b.
Proof. intros H. injection H as H. exact H. Qed.

Lemma add_done_inv (b b' : BlockBuilder.t) (k v : bytes) :
  BlockBuilder.add b k v = Done b' ->
  BlockBuilder.finished_ b = false
  /\ (BlockBuilder.buffer_ b = []
      \/ BlockBuilder.comparator_ b k (BlockBuilder.last_key_ b) > 0).
Proof.
  unfold BlockBuilder.add. intros H.
  destruct (BlockBuilder.finished_ b); cbn [negb assert bind] in H; [discriminate H|].
  split; [reflexivity|].
  destruct (BlockBuilder.buffer_ b) as [|x buf]; [left; reflexivity|].
  right. cbn [orb] in H.
  destruct (BlockBuilder.comparator_ b k (BlockBuilder.last_key_ b) >? 0) eqn:E;
    cbn [assert bind] in H; [|discriminate H].
  rewrite Z.gtb_ltb in E. apply Z.ltb_lt in E. lia.
Qed.

Lemma add_fault_inv (b : BlockBuilder.t) (k v : bytes) (f : fault) :
  BlockBuilder.add b k v = Fault f -> f = AssertionFailed.
Proof.
  unfold BlockBuilder.add, assert. intros H.
  destruct (negb (BlockBuilder.finished_ b)); cbn [bind] in H;
    [|inversion H; reflexivity].
  destruct (match BlockBuilder.buffer_ b with [] => true | _ :: _ => false end
            || (BlockBuilder.comparator_ b k (BlockBuilder.last_key_ b) >? 0));
    cbn [bind] in H; [|inversion H; reflexivity].
  destruct (BlockBuilder.counter_ b <? BlockBuilder.block_restart_interval_ b);
    cbv zeta beta iota in H;
    match type of H with
    | context [if ?c then _ else _] => destruct c; cbn [bind] in H
    end; try discriminate H; inversion H; reflexivity.
Qed.

(** X1.  For lengths within 32 bits, [add] is accepted exactly when the
    builder is not finished and the buffer is empty or the key compares
    greater than the previous key; when it is refused, it is by a failed
    assertion. *)
Theorem add_accepted_iff (b : BlockBuilder.t) (k v : bytes) :
  size (BlockBuilder.last_key_ b) < 2 ^ 32 -> size k < 2 ^ 32 -> size v < 2 ^ 32 ->
  size (BlockBuilder.buffer_ b) < 2 ^ 32 ->
  ((exists b', BlockBuilder.add b k v = Done b')
   <-> BlockBuilder.finished_ b = false
       /\ (BlockBuilder.buffer_ b = []
           \/ BlockBuilder.comparator_ b k (BlockBuilder.last_key_ b) > 0))
  /\ ((forall b', BlockBuilder.add b k v <> Done b')
      -> BlockBuilder.add b k v = Fault AssertionFailed).
Proof.
  intros Hl Hk Hv Hb. split.
  - split.
    + intros [b' H]. exact (add_done_inv b b' k v H).
    + intros [Hf Hord]. eexists. apply add_step; assumption.
  - intros Hno. destruct (BlockBuilder.add b k v) as [b'|f] eqn:E.
    + exfalso. exact (Hno b' eq_refl).
    + rewrite (add_fault_inv b k v f E). reflexivity.
Qed.

Lemma add_accepted_iff_witness :
  let b := BlockBuilder.BlockBuilder (bytewise 16) in
  size (BlockBuilder.last_key_ b) < 2 ^ 32 /\ size (str "a") < 2 ^ 32
  /\ size (str "1") < 2 ^ 32 /\ size (BlockBuilder.buffer_ b) < 2 ^ 32
  /\ exists b', BlockBuilder.add b (str "a") (str "1") = Done b'.
Proof.
  assert (H1 : size (BlockBuilder.last_key_ (BlockBuilder.BlockBuilder (bytewise 16))) < 2 ^ 32)
    by (vm_compute; reflexivity).
  assert (H2 : size (str "a") < 2 ^ 32) by (vm_compute; reflexivity).
  assert (H3 : size (str "1") < 2 ^ 32) by (vm_compute; reflexivity).
  assert (H4 : size (BlockBuilder.buffer_ (BlockBuilder.BlockBuilder (bytewise 16))) < 2 ^ 32)
    by (vm_compute; reflexivity).
  cbv zeta. split; [exact H1|]. split; [exact H2|]. split; [exact H3|]. split; [exact H4|].
  apply (proj1 (add_accepted_iff (BlockBuilder.BlockBuilder (bytewise 16))
                  (str "a") (str "1") H1 H2 H3 H4)).
  split; [reflexivity | left; reflexivity].
Defined.

(** X2.  Every accepted [add] raises [sizeEstimate()] by at least the
    three length fields and the value, and by at most those, the whole
    key and one restart offset. *)
Theorem sizeEstimate_grows (b b' : BlockBuilder.t) (k v : bytes) :
  size (BlockBuilder.last_key_ b) < 2 ^ 32 -> size k < 2 ^ 32 -> size v < 2 ^ 32 ->
  size (BlockBuilder.buffer_ b) < 2 ^ 32 ->
  BlockBuilder.add b k v = Done b' ->
  BlockBuilder.sizeEstimate b + 12 + size v <= BlockBuilder.sizeEstimate b'
  /\ BlockBuilder.sizeEstimate b' <= BlockBuilder.sizeEstimate b + 16 + size k + size v.
Proof.
  intros Hl Hk Hv Hb Hadd.
  destruct (add_done_inv b b' k v Hadd) as [Hf Hord].
  pose proof (add_step b k v Hf Hord Hl Hk Hv Hb) as Hstep. cbv zeta in Hstep.
  pose proof (eq_trans (eq_sym Hadd) Hstep) as Hadd_eq.
  apply Done_inj in Hadd_eq. subst b'.
  unfold BlockBuilder.sizeEstimate.
  cbn [BlockBuilder.buffer_ BlockBuilder.restarts_].
  set (N := BlockBuilder.block_restart_interval_ b).
  set (c := BlockBuilder.counter_ b).
  pose proof (chosen_shared_bounds N c (BlockBuilder.last_key_ b) k) as (Hs0 & Hs1 & Hs2).
  rewrite size_app, length_app, size_encode_entry by lia.
  destruct (c <? N); cbn [length]; lia.
Qed.

Lemma sizeEstimate_grows_witness :
  exists b',
    BlockBuilder.add (BlockBuilder.BlockBuilder (bytewise 16)) (str "a") (str "1") = Done b'
    /\ BlockBuilder.sizeEstimate (BlockBuilder.BlockBuilder (bytewise 16)) + 12 + size (str "1")
       <= BlockBuilder.sizeEstimate b'.
Proof.
  eexists. split; [vm_compute; reflexivity|].
  refine (proj1 (sizeEstimate_grows (BlockBuilder.BlockBuilder (bytewise 16)) _
                   (str "a") (str "1") _ _ _ _ _));
    vm_compute; reflexivity.
Defined.

(** The adds on a new builder, in terms of the records and restarts laid
    out. *)
Lemma fresh_run (cmp : bytes -> bytes -> Z) (N : Z) (kvs : list entry) :
  strictly_increasing cmp kvs ->
  fits_u32 kvs ->
  exists b,
    add_all (BlockBuilder.BlockBuilder (mkOptions cmp N)) kvs = Done b
    /\ BlockBuilder.buffer_ b = encode_entries (layout N 0 [] kvs)
    /\ BlockBuilder.restarts_ b = 0 :: layout_restarts N 0 0 [] kvs.
Proof.
  intros Hinc Hfit. unfold fits_u32 in Hfit.
  destruct (add_all_layout kvs (BlockBuilder.BlockBuilder (mkOptions cmp N)))
    as (b & Hrun & _ & _ & _ & Hbuf & Hres).
  - reflexivity.
  - cbn. lia.
  - cbn [BlockBuilder.BlockBuilder BlockBuilder.buffer_]. rewrite size_nil. lia.
  - left. split; [reflexivity | exact Hinc].
  - exists b. split; [exact Hrun|].
    cbn [BlockBuilder.BlockBuilder BlockBuilder.buffer_ BlockBuilder.restarts_
         BlockBuilder.block_restart_interval_ BlockBuilder.counter_
         BlockBuilder.last_key_ comparator block_restart_interval app] in Hbuf, Hres.
    rewrite size_nil in Hres. split; assumption.
Qed.

Lemma size_encode_entry_chosen (N c : Z) (last k v : bytes) :
  12 <= size (encode_entry (chosen_shared N c last k, k, v)).
Proof.
  pose proof (chosen_shared_bounds N c last k) as (H0 & H1 & H2).
  pose proof (size_nonneg v).
  rewrite size_encode_entry by lia. lia.
Qed.

(** The restart offsets pushed from offset [off] on lie inside the records
    appended and increase strictly; none equals [off] when the first
    record does not start a restart group. *)
Lemma layout_restarts_sorted (N : Z) (kvs : list entry) : forall (c off : Z) (last : bytes),
  Forall (fun r => off <= r < off + size (encode_entries (layout N c last kvs)))
         (layout_restarts N c off last kvs)
  /\ StronglySorted Z.lt (layout_restarts N c off last kvs)
  /\ ((c <? N) = true -> Forall (fun r => off < r) (layout_restarts N c off last kvs)).
Proof.
  induction kvs as [|[k v] rest IH]; intros c off last.
  - cbn [layout_restarts]. repeat split; constructor.
  - cbn [layout layout_restarts]. rewrite size_encode_entries_cons, size_app.
    pose proof (size_encode_entry_chosen N c last k v) as Hsz.
    set (sz := size (encode_entry (chosen_shared N c last k, k, v))) in *.
    destruct (IH (next_counter N c) (off + sz) k) as (Hr & Hs & _).
    set (rs' := layout_restarts N (next_counter N c) (off + sz) k rest) in *.
    set (tot := size (encode_entries (layout N (next_counter N c) k rest))) in *.
    assert (Htot : 0 <= tot) by apply size_nonneg.
    assert (Hgt : Forall (fun r => off < r) rs').
    { eapply Forall_impl; [|exact Hr]. cbn beta. intros r Hrr. lia. }
    assert (Hrange : Forall (fun r => off <= r < off + (sz + tot)) rs').
    { eapply Forall_impl; [|exact Hr]. cbn beta. intros r Hrr. lia. }
    destruct (c <? N); cbn [app].
    + repeat split; auto.
    + repeat split.
      * constructor; [lia | exact Hrange].
      * constructor; assumption.
      * intros Hc. discriminate Hc.
Qed.

(** X3.  With interval [N >= 1], the restart list of a builder fed sorted
    input starts with 0, increases strictly, and every offset in it lies
    inside the buffer (strictly, once an entry was added). *)
Theorem restart_offsets_increasing (cmp : bytes -> bytes -> Z) (N : Z) (kvs : list entry) :
  1 <= N ->
  strictly_increasing cmp kvs ->
  fits_u32 kvs ->
  exists b,
    add_all (BlockBuilder.BlockBuilder (mkOptions cmp N)) kvs = Done b
    /\ hd_error (BlockBuilder.restarts_ b) = Some 0
    /\ StronglySorted Z.lt (BlockBuilder.restarts_ b)
    /\ Forall (fun r => 0 <= r <= size (BlockBuilder.buffer_ b)) (BlockBuilder.restarts_ b)
    /\ (kvs <> [] ->
        Forall (fun r => r < size (BlockBuilder.buffer_ b)) (BlockBuilder.restarts_ b)).
Proof.
  intros HN Hinc Hfit.
  destruct (fresh_run cmp N kvs Hinc Hfit) as (b & Hrun & Hbuf & Hres).
  exists b. split; [exact Hrun|]. rewrite Hres, Hbuf.
  destruct (layout_restarts_sorted N kvs 0 0 []) as (Hr & Hs & Hgt).
  assert (Hc : (0 <? N) = true) by (apply Z.ltb_lt; lia).
  specialize (Hgt Hc).
  pose proof (size_nonneg (encode_entries (layout N 0 [] kvs))) as Htot.
  split; [reflexivity|]. split; [|split].
  - constructor; assumption.
  - constructor; [lia|]. eapply Forall_impl; [|exact Hr]. cbn beta. intros r Hrr. lia.
  - intros Hne. constructor.
    + destruct kvs as [|[k v] rest]; [contradiction|].
      cbn [layout]. rewrite size_encode_entries_cons, size_app.
      pose proof (size_encode_entry_chosen N 0 [] k v).
      pose proof (size_nonneg (encode_entries (layout N (next_counter N 0) k rest))). lia.
    + eapply Forall_impl; [|exact Hr]. cbn beta. intros r Hrr. lia.
Qed.

Lemma restart_offsets_increasing_witness :
  1 <= 2
  /\ strictly_increasing BytewiseComparator fruit_entries
  /\ fits_u32 fruit_entries
  /\ exists b,
       add_all (BlockBuilder.BlockBuilder (mkOptions BytewiseComparator 2)) fruit_entries
       = Done b
       /\ StronglySorted Z.lt (BlockBuilder.restarts_ b).
Proof.
  assert (HN : 1 <= 2) by lia.
  assert (Hinc : strictly_increasing BytewiseComparator fruit_entries)
    by (vm_compute; repeat split; reflexivity).
  assert (Hfit : fits_u32 fruit_entries) by (vm_compute; reflexivity).
  split; [exact HN|]. split; [exact Hinc|]. split; [exact Hfit|].
  destruct (restart_offsets_increasing BytewiseComparator 2 fruit_entries HN Hinc Hfit)
    as (b & Hrun & _ & Hs & _).
  exists b. split; assumption.
Defined.

Lemma layout_restarts_length (N : Z) (kvs : list entry) : forall (c off : Z) (last : bytes),
  1 <= N -> 1 <= c <= N ->
  Z.of_nat (length (layout_restarts N c off last kvs))
  = (Z.of_nat (length kvs) + c - 1) / N.
Proof.
  induction kvs as [|[k v] rest IH]; intros c off last HN Hc.
  - cbn [layout_restarts length]. symmetry. apply Z.div_small. lia.
  - cbn [layout_restarts]. rewrite length_app. unfold next_counter.
    destruct (c <? N) eqn:E.
    + apply Z.ltb_lt in E. cbn [length Nat.add].
      rewrite IH by lia. f_equal. lia.
    + apply Z.ltb_ge in E. assert (c = N) by lia. subst c.
      cbn [length Nat.add]. rewrite Nat2Z.inj_succ, IH by lia.
      replace (Z.of_nat (S (length rest)) + N - 1) with (Z.of_nat (length rest) + 1 * N) by lia.
      rewrite Z.div_add by lia.
      replace (Z.of_nat (length rest) + (0 + 1) - 1) with (Z.of_nat (length rest)) by lia.
      lia.
Qed.

Lemma layout_restarts_fresh_length (N : Z) (kvs : list entry) :
  1 <= N ->
  Z.of_nat (length (layout_restarts N 0 0 [] kvs))
  = (Z.max 1 (Z.of_nat (length kvs)) - 1) / N.
Proof.
  intros HN. destruct kvs as [|[k v] rest].
  - cbn [layout_restarts length Z.of_nat]. change (Z.max 1 0 - 1) with 0.
    rewrite Z.div_0_l by lia. reflexivity.
  - cbn [layout_restarts]. unfold next_counter.
    replace (0 <? N) with true by (symmetry; apply Z.ltb_lt; lia).
    cbn [app]. rewrite layout_restarts_length by lia.
    f_equal. cbn [length]. lia.
Qed.

(** X4.  With interval [N >= 1], a builder fed [n] sorted entries records
    one restart offset per started group of [N] entries:
    [1 + (max 1 n - 1) / N] in all. *)
Theorem restart_count (cmp : bytes -> bytes -> Z) (N : Z) (kvs : list entry) :
  1 <= N ->
  strictly_increasing cmp kvs ->
  fits_u32 kvs ->
  exists b,
    add_all (BlockBuilder.BlockBuilder (mkOptions cmp N)) kvs = Done b
    /\ Z.of_nat (length (BlockBuilder.restarts_ b))
       = 1 + (Z.max 1 (Z.of_nat (length kvs)) - 1) / N.
Proof.
  intros HN Hinc Hfit.
  destruct (fresh_run cmp N kvs Hinc Hfit) as (b & Hrun & _ & Hres).
  exists b. split; [exact Hrun|]. rewrite Hres. cbn [length].
  rewrite Nat2Z.inj_succ, layout_restarts_fresh_length by exact HN. lia.
Qed.

Lemma restart_count_witness :
  1 <= 2
  /\ strictly_increasing BytewiseComparator fruit_entries
  /\ fits_u32 fruit_entries
  /\ exists b,
       add_all (BlockBuilder.BlockBuilder (mkOptions BytewiseComparator 2)) fruit_entries
       = Done b
       /\ Z.of_nat (length (BlockBuilder.restarts_ b)) = 2.
Proof.
  assert (HN : 1 <= 2) by lia.
  assert (Hinc : strictly_increasing BytewiseComparator fruit_entries)
    by (vm_compute; repeat split; reflexivity).
  assert (Hfit : fits_u32 fruit_entries) by (vm_compute; reflexivity).
  split; [exact HN|]. split; [exact Hinc|]. split; [exact Hfit|].
  destruct (restart_count BytewiseComparator 2 fruit_entries HN Hinc Hfit)
    as (b & Hrun & Hlen).
  exists b. split; [exact Hrun|]. rewrite Hlen. reflexivity.
Defined.

Lemma layout_nonpositive (N : Z) (kvs : list entry) : forall (c off : Z) (last : bytes),
  N <= 0 -> 0 <= c ->
  layout N c last kvs = full_key_records kvs
  /\ length (layout_restarts N c off last kvs) = length kvs
  /\ (kvs <> [] -> hd_error (layout_restarts N c off last kvs) = Some off).
Proof.
  induction kvs as [|[k v] rest IH]; intros c off last HN Hc.
  - repeat split; auto. intros H. contradiction.
  - cbn [layout layout_restarts full_key_records map fst snd].
    unfold chosen_shared.
    replace (c <? N) with false by (symmetry; apply Z.ltb_ge; lia).
    destruct (IH (next_counter N c)
                (off + size (encode_entry (0, k, v))) k HN) as (Hl & Hn & _).
    { unfold next_counter. destruct (c <? N); lia. }
    rewrite Hl. cbn [app length hd_error]. rewrite Hn. repeat split; auto.
Qed.

(** X5.  With an interval of zero or less every [add] starts a restart
    group: each key is stored in full, and the restart list has one offset
    more than there are entries, the offset 0 appearing twice. *)
Theorem nonpositive_interval_restarts_everywhere (cmp : bytes -> bytes -> Z) (N : Z)
    (kvs : list entry) :
  N <= 0 ->
  strictly_increasing cmp kvs ->
  fits_u32 kvs ->
  exists b,
    add_all (BlockBuilder.BlockBuilder (mkOptions cmp N)) kvs = Done b
    /\ BlockBuilder.buffer_ b = encode_entries (full_key_records kvs)
    /\ length (BlockBuilder.restarts_ b) = S (length kvs)
    /\ (kvs <> [] -> exists rs, BlockBuilder.restarts_ b = 0 :: 0 :: rs).
Proof.
  intros HN Hinc Hfit.
  destruct (fresh_run cmp N kvs Hinc Hfit) as (b & Hrun & Hbuf & Hres).
  destruct (layout_nonpositive N kvs 0 0 [] HN ltac:(lia)) as (Hl & Hn & Hhd).
  exists b. split; [exact Hrun|]. rewrite Hbuf, Hres, Hl.
  split; [reflexivity|]. split; [cbn [length]; rewrite Hn; reflexivity|].
  intros Hne. specialize (Hhd Hne).
  destruct (layout_restarts N 0 0 [] kvs) as [|r rs]; [discriminate Hhd|].
  cbn [hd_error] in Hhd. injection Hhd as ->. exists rs. reflexivity.
Qed.

Lemma nonpositive_interval_restarts_everywhere_witness :
  0 <= 0
  /\ strictly_increasing BytewiseComparator ab_entries
  /\ fits_u32 ab_entries
  /\ exists b,
       add_all (BlockBuilder.BlockBuilder (mkOptions BytewiseComparator 0)) ab_entries
       = Done b
       /\ length (BlockBuilder.restarts_ b) = 3%nat.
Proof.
  assert (HN : 0 <= 0) by lia.
  assert (Hinc : strictly_increasing BytewiseComparator ab_entries)
    by (vm_compute; split; [reflexivity | exact I]).
  assert (Hfit : fits_u32 ab_entries) by (vm_compute; reflexivity).
  split; [exact HN|]. split; [exact Hinc|]. split; [exact Hfit|].
  destruct (nonpositive_interval_restarts_everywhere BytewiseComparator 0 ab_entries
              HN Hinc Hfit) as (b & Hrun & _ & Hlen & _).
  exists b. split; assumption.
Defined.

(** X6.  [finish()] has no guard of its own: called a second time it
    returns the first result with the restart offsets and the count
    appended once more; and an [add] after [finish()] fails the
    assertion. *)
Theorem finish_twice_appends_trailer_again (b : BlockBuilder.t) (k v : bytes) :
  snd (BlockBuilder.finish (fst (BlockBuilder.finish b)))
  = snd (BlockBuilder.finish b)
      ++ concat (map encodeInt (BlockBuilder.restarts_ b))
      ++ encodeInt (u32 (Z.of_nat (length (BlockBuilder.restarts_ b))))
  /\ BlockBuilder.add (fst (BlockBuilder.finish b)) k v = Fault AssertionFailed.
Proof.
  split.
  - rewrite (finish_bytes (fst (BlockBuilder.finish b))). reflexivity.
  - reflexivity.
Qed.

(* ================================================================== *)
(** ** More on the Block constructor *)

Lemma Z_of_byte_range (b : byte) : 0 <= Z_of_byte b <= 255.
Proof.
  unfold Z_of_byte. pose proof (Byte.to_N_bounded b) as H.
  apply N2Z.inj_le in H. change (Z.of_N 255) with 255 in H.
  pose proof (N2Z.is_nonneg (Byte.to_N b)). lia.
Qed.

Lemma decodeInt_range (p : bytes) : 0 <= decodeInt p < 2 ^ 32.
Proof.
  unfold decodeInt.
  destruct p as [|b0 [|b1 [|b2 [|b3 [|b4 p]]]]]; try (cbn; lia).
  pose proof (Z_of_byte_range b0). pose proof (Z_of_byte_range b1).
  pose proof (Z_of_byte_range b2). pose proof (Z_of_byte_range b3).
  change (2 ^ 8) with 256. change (2 ^ 16) with 65536.
  change (2 ^ 24) with 16777216. change (2 ^ 32) with 4294967296. lia.
Qed.

(** X7.  The constructor reads the restart count from the last four bytes
    without looking at the size first: on content shorter than four bytes
    the read starts before the buffer. *)
Theorem Block_short_content_reads_outside (restart_offset_init : Z) (content : bytes) :
  size content < 4 ->
  Block.Block restart_offset_init content = Fault OutOfBounds.
Proof.
  intros H. unfold Block.Block, decodeInt_at, load.
  replace (0 <=? size content - 4) with false by (symmetry; apply Z.leb_gt; lia).
  reflexivity.
Qed.

Lemma Block_short_content_reads_outside_witness :
  size (str "abc") < 4 /\ Block.Block 0 (str "abc") = Fault OutOfBounds.
Proof.
  assert (H : size (str "abc") < 4) by (vm_compute; reflexivity).
  split; [exact H|]. exact (Block_short_content_reads_outside 0 (str "abc") H).
Defined.

(** X8.  On content of at least four bytes (and less than 2^32) the
    constructor returns a block that is either marked empty ([size_] 0,
    the restart count exceeding what the content can hold, the restart
    offset left as it was) or whose restart array, restart count included,
    ends exactly at the end of the content and starts inside it. *)
Theorem Block_restart_array_in_bounds (restart_offset_init : Z) (content : bytes) :
  4 <= size content < 2 ^ 32 ->
  exists blk,
    Block.Block restart_offset_init content = Done blk
    /\ Block.data_ blk = content
    /\ 0 <= Block.num_restarts_ blk < 2 ^ 32
    /\ ((Block.size_ blk = 0
         /\ Block.restart_offset_ blk = restart_offset_init
         /\ (size content - 4) / 4 < Block.num_restarts_ blk)
        \/ (Block.size_ blk = size content
            /\ 0 <= Block.restart_offset_ blk
            /\ Block.restart_offset_ blk + 4 * (Block.num_restarts_ blk + 1)
               = size content)).
Proof.
  intros Hsz. unfold Block.Block, decodeInt_at.
  destruct (load_in_bounds content (size content - 4) 4) as [bs Hbs]; try lia.
  rewrite Hbs. cbn [bind].
  pose proof (decodeInt_range bs) as Hn.
  destruct (decodeInt bs >? (size content - 4) / 4) eqn:E.
  - eexists. split; [reflexivity|]. cbn [Block.data_ Block.num_restarts_ Block.size_
      Block.restart_offset_]. split; [reflexivity|]. split; [exact Hn|].
    left. rewrite Z.gtb_ltb in E. apply Z.ltb_lt in E. auto.
  - rewrite Z.gtb_ltb in E. apply Z.ltb_ge in E.
    pose proof (Z.mul_div_le (size content - 4) 4 ltac:(lia)) as Hd.
    eexists. split; [reflexivity|]. cbn [Block.data_ Block.num_restarts_ Block.size_
      Block.restart_offset_]. split; [reflexivity|]. split; [exact Hn|].
    right. rewrite (u32_small (1 + decodeInt bs)) by lia.
    rewrite (u32_small ((1 + decodeInt bs) * 4)) by lia.
    rewrite u32_small by lia. split; [reflexivity|]. lia.
Qed.

Lemma Block_restart_array_in_bounds_witness :
  4 <= size (encodeInt 0 ++ encodeInt 1) < 2 ^ 32
  /\ exists blk,
       Block.Block 0 (encodeInt 0 ++ encodeInt 1) = Done blk
       /\ Block.restart_offset_ blk + 4 * (Block.num_restarts_ blk + 1) = 8.
Proof.
  assert (H : 4 <= size (encodeInt 0 ++ encodeInt 1) < 2 ^ 32)
    by (vm_compute; split; [discriminate | reflexivity]).
  split; [exact H|].
  destruct (Block_restart_array_in_bounds 0 (encodeInt 0 ++ encodeInt 1) H)
    as (blk & Hblk & _).
  exists blk. split; [exact Hblk|].
  vm_compute in Hblk. injection Hblk as <-. reflexivity.
Defined.

(** X9.  Whatever was added, the bytes [finish()] returns open as a block
    that is not marked empty: the restart count read back is the number of
    offsets the builder recorded, and the restart array is found right
    after the builder's entry data. *)
Theorem finished_bytes_open (restart_offset_init : Z) (b : BlockBuilder.t) :
  BlockBuilder.sizeEstimate b < 2 ^ 32 ->
  Block.Block restart_offset_init (snd (BlockBuilder.finish b))
  = Done (Block.mk (snd (BlockBuilder.finish b))
            (size (snd (BlockBuilder.finish b)))
            (Z.of_nat (length (BlockBuilder.restarts_ b)))
            (size (BlockBuilder.buffer_ b))).
Proof.
  intros Hsz. unfold BlockBuilder.sizeEstimate in Hsz.
  pose proof (size_nonneg (BlockBuilder.buffer_ b)) as Hb0.
  set (R := Z.of_nat (length (BlockBuilder.restarts_ b))) in *.
  assert (HR : 0 <= R) by (unfold R; lia).
  assert (Hsize : size (snd (BlockBuilder.finish b))
                  = size (BlockBuilder.buffer_ b) + 4 * R + 4).
  { rewrite finish_bytes, !size_app, size_concat_encodeInt, size_encodeInt. fold R. lia. }
  unfold Block.Block.
  rewrite (decodeInt_at_middle (snd (BlockBuilder.finish b))
             (BlockBuilder.buffer_ b ++ concat (map encodeInt (BlockBuilder.restarts_ b)))
             [] (u32 R)).
  2:{ rewrite finish_bytes. fold R. rewrite app_nil_r, <- app_assoc. reflexivity. }
  2:{ rewrite size_app, size_concat_encodeInt. fold R. lia. }
  cbn [bind]. rewrite !(u32_small R) by lia.
  replace (R >? (size (snd (BlockBuilder.finish b)) - 4) / 4) with false.
  2:{ symmetry. rewrite Z.gtb_ltb. apply Z.ltb_ge.
      apply Z.div_le_lower_bound; lia. }
  rewrite (u32_small (1 + R)) by lia.
  rewrite (u32_small ((1 + R) * 4)) by lia.
  rewrite u32_small by lia.
  f_equal. f_equal. lia.
Qed.

Lemma finished_bytes_open_witness :
  BlockBuilder.sizeEstimate (BlockBuilder.BlockBuilder (bytewise 16)) < 2 ^ 32
  /\ Block.Block 0 (snd (BlockBuilder.finish (BlockBuilder.BlockBuilder (bytewise 16))))
     = Done empty_block.
Proof.
  assert (H : BlockBuilder.sizeEstimate (BlockBuilder.BlockBuilder (bytewise 16)) < 2 ^ 32)
    by (vm_compute; reflexivity).
  split; [exact H|].
  exact (finished_bytes_open 0 (BlockBuilder.BlockBuilder (bytewise 16)) H).
Defined.

(** X10.  Content that ends in a restart count of zero passes the
    constructor; on an iterator with no restart point [first()] and
    [last()] fail the assertion of [getRestartOffset]. *)
Theorem zero_restart_count_accepted (restart_offset_init : Z)
    (cmp : bytes -> bytes -> Z) (entries_data : bytes) (fuel : nat) :
  size entries_data + 4 < 2 ^ 32 ->
  let content := entries_data ++ encodeInt 0 in
  let blk := Block.mk content (size content) 0 (size entries_data) in
  Block.Block restart_offset_init content = Done blk
  /\ BlockIterator.first (iterator blk cmp) = Fault AssertionFailed
  /\ BlockIterator.last fuel (iterator blk cmp) = Fault AssertionFailed.
Proof.
  intros Hsz content blk.
  pose proof (size_nonneg entries_data) as H0.
  assert (Hsize : size content = size entries_data + 4).
  { unfold content. rewrite size_app, size_encodeInt. reflexivity. }
  split; [|split; reflexivity].
  unfold Block.Block.
  rewrite (decodeInt_at_middle content entries_data [] 0).
  2:{ unfold content. rewrite app_nil_r. reflexivity. }
  2:{ lia. }
  cbn [bind]. change (u32 0) with 0.
  replace (0 >? (size content - 4) / 4) with false.
  2:{ symmetry. rewrite Z.gtb_ltb. apply Z.ltb_ge. apply Z.div_pos; lia. }
  change (u32 (u32 (1 + 0) * 4)) with 4.
  rewrite u32_small by lia. unfold blk. f_equal. f_equal. lia.
Qed.

Lemma zero_restart_count_accepted_witness :
  size (str "xy") + 4 < 2 ^ 32
  /\ BlockIterator.first
       (iterator (Block.mk (str "xy" ++ encodeInt 0) (size (str "xy" ++ encodeInt 0)) 0
                    (size (str "xy"))) BytewiseComparator)
     = Fault AssertionFailed.
Proof.
  assert (H : size (str "xy") + 4 < 2 ^ 32) by (vm_compute; reflexivity).
  split; [exact H|].
  exact (proj1 (proj2 (zero_restart_count_accepted 0 BytewiseComparator (str "xy") 1 H))).
Defined.

(* ================================================================== *)
(** ** More on the iterator: status *)

Lemma seekToRestartPoint_status (it it' : BlockIterator.t) (idx : Z) :
  BlockIterator.seekToRestartPoint it idx = Done it' ->
  BlockIterator.status_ it' = BlockIterator.status_ it.
Proof.
  unfold BlockIterator.seekToRestartPoint. intros H.
  match type of H with
  | context [BlockIterator.getRestartOffset ?i ?x] =>
      destruct (BlockIterator.getRestartOffset i x) as [off|]
  end; cbn [bind] in H; [|discriminate H].
  apply Done_inj in H. subst it'. reflexivity.
Qed.

Lemma last_loop_status (fuel : nat) : forall (it it' : BlockIterator.t),
  BlockIterator.last_loop fuel it = Done it' ->
  BlockIterator.status_ it' = BlockIterator.status_ it.
Proof.
  induction fuel as [|f IH]; intros it it' H; cbn [BlockIterator.last_loop] in H;
    [discriminate H|].
  destruct (BlockIterator.parseNextKeyVal it) as [[ok it1]|] eqn:P;
    cbn [bind] in H; [|discriminate H].
  apply parseNextKeyVal_status in P.
  destruct ok.
  - destruct (BlockIterator.nextEntryOffset it1) as [n|]; cbn [bind] in H; [|discriminate H].
    destruct (n <? BlockIterator.restarts_ it1).
    + apply IH in H. congruence.
    + apply Done_inj in H. congruence.
  - apply Done_inj in H. congruence.
Qed.

Lemma prev_loop_status (fuel : nat) : forall (it it' : BlockIterator.t) (old : Z),
  BlockIterator.prev_loop fuel it old = Done it' ->
  BlockIterator.status_ it' = BlockIterator.status_ it.
Proof.
  induction fuel as [|f IH]; intros it it' old H; cbn [BlockIterator.prev_loop] in H;
    [discriminate H|].
  destruct (BlockIterator.parseNextKeyVal it) as [[ok it1]|] eqn:P;
    cbn [bind] in H; [|discriminate H].
  apply parseNextKeyVal_status in P.
  destruct ok.
  - destruct (BlockIterator.nextEntryOffset it1) as [n|]; cbn [bind] in H; [|discriminate H].
    destruct (n <? old).
    + apply IH in H. congruence.
    + apply Done_inj in H. congruence.
  - apply Done_inj in H. congruence.
Qed.

Lemma prev_restart_status (fuel : nat) : forall (it : BlockIterator.t) (old : Z)
    (r : BlockIterator.t + BlockIterator.t),
  BlockIterator.prev_restart fuel it old = Done r ->
  BlockIterator.status_ (match r with inl i => i | inr i => i end)
  = BlockIterator.status_ it.
Proof.
  induction fuel as [|f IH]; intros it old r H; cbn [BlockIterator.prev_restart] in H;
    [discriminate H|].
  destruct (BlockIterator.getRestartOffset it (BlockIterator.current_restart_ it)) as [off|];
    cbn [bind] in H; [|discriminate H].
  destruct (off >=? old).
  - destruct (BlockIterator.current_restart_ it =? 0).
    + apply Done_inj in H. subst r. reflexivity.
    + apply IH in H. exact H.
  - apply Done_inj in H. subst r. reflexivity.
Qed.

(** X11.  [first()], [next()], [last()] and [prev()] never change the
    status: whenever one of them returns, [status()] is what it was
    before.  A malformed entry met by these operations is therefore never
    reported. *)
Theorem motion_keeps_status (fuel : nat) (m : motion) (it it' : BlockIterator.t) :
  run_motion fuel m it = Done it' ->
  BlockIterator.status it' = BlockIterator.status it.
Proof.
  destruct m; cbn [run_motion]; intros H.
  - exact (first_keeps_status it it' H).
  - exact (next_keeps_status it it' H).
  - unfold BlockIterator.last in H.
    destruct (BlockIterator.seekToRestartPoint it
                (u32 (BlockIterator.num_restarts_ it - 1))) as [it1|] eqn:S1;
      cbn [bind] in H; [|discriminate H].
    apply seekToRestartPoint_status in S1. apply last_loop_status in H.
    unfold BlockIterator.status. congruence.
  - unfold BlockIterator.prev in H.
    destruct (BlockIterator.valid it); cbn [assert bind] in H; [|discriminate H].
    destruct (BlockIterator.prev_restart fuel it (BlockIterator.current_ it))
      as [r|] eqn:R; cbn [bind] in H; [|discriminate H].
    apply prev_restart_status in R. destruct r as [it1|it1].
    + apply Done_inj in H. subst it'. exact R.
    + destruct (BlockIterator.seekToRestartPoint it1 (BlockIterator.current_restart_ it1))
        as [it2|] eqn:S1; cbn [bind] in H; [|discriminate H].
      apply seekToRestartPoint_status in S1. apply prev_loop_status in H.
      unfold BlockIterator.status. congruence.
Qed.

Lemma motion_keeps_status_witness :
  exists it',
    run_motion 1 First (iterator (Block.mk short_entry_block 9 1 1) BytewiseComparator)
    = Done it'
    /\ BlockIterator.status it' = BlockIterator.OK.
Proof.
  eexists. split; [vm_compute; reflexivity|].
  refine (motion_keeps_status 1 First
            (iterator (Block.mk short_entry_block 9 1 1) BytewiseComparator) _ _).
  vm_compute. reflexivity.
Defined.





(* ================================================================== *)
(** ** More on the iterator: failed parses and prior positions *)

Lemma parse_ignores_current (it : BlockIterator.t) (c : Z) :
  BlockIterator.parseNextKeyVal (BlockIterator.set_current it c)
  = BlockIterator.parseNextKeyVal it.
Proof. reflexivity. Qed.

(** A parse that fails while the iterator stays valid changed nothing but
    [current_], which it set to the offset of the bad entry. *)
Lemma failed_parse_state (it it' : BlockIterator.t) :
  BlockIterator.parseNextKeyVal it = Done (false, it') ->
  BlockIterator.valid it' = true ->
  exists cur, it' = BlockIterator.set_current it cur.
Proof.
  unfold BlockIterator.parseNextKeyVal. intros H Hv.
  destruct (BlockIterator.nextEntryOffset it) as [cur|]; cbn [bind] in H; [|discriminate H].
  it_simpl_in H.
  destruct (cur >=? BlockIterator.restarts_ it).
  - apply Done_inj in H. injection H as <-.
    unfold BlockIterator.valid in Hv. it_simpl_in Hv.
    rewrite Z.ltb_irrefl in Hv. discriminate Hv.
  - destruct (BlockIterator.decodeEntry (BlockIterator.set_current it cur) cur
                (BlockIterator.restarts_ it)) as [[[[[p sh] ns] vs]|]|];
      cbn [bind] in H; try discriminate H.
    + destruct (size (BlockIterator.key_ it) <? sh).
      * apply Done_inj in H. injection H as <-. exists cur. reflexivity.
      * destruct (load (BlockIterator.data_ it) p ns) as [suffix|]; cbn [bind] in H;
          [|discriminate H].
        match type of H with
        | context [BlockIterator.advance_restart ?f ?i] =>
            destruct (BlockIterator.advance_restart f i) as [it2|]
        end; cbn [bind] in H; discriminate H.
    + apply Done_inj in H. injection H as <-. exists cur. reflexivity.
Qed.

(** X13.  Once [parseNextKeyVal] has failed on a malformed entry and left
    the iterator valid, [next()] fails on it again and leaves the state as
    it is: a caller looping on [valid()] and [next()] never comes to an
    end. *)
Theorem failed_parse_repeats (it it' : BlockIterator.t) :
  BlockIterator.parseNextKeyVal it = Done (false, it') ->
  BlockIterator.valid it' = true ->
  BlockIterator.next it' = Done it'
  /\ forall fuel, exists f, collect_next fuel it' = Fault f.
Proof.
  intros H Hv.
  destruct (failed_parse_state it it' H Hv) as [cur ->].
  assert (Hnext : BlockIterator.next (BlockIterator.set_current it cur)
                  = Done (BlockIterator.set_current it cur)).
  { unfold BlockIterator.next. rewrite Hv. cbn [assert bind].
    rewrite parse_ignores_current, H. reflexivity. }
  split; [exact Hnext|].
  induction fuel as [|f IH]; cbn [collect_next].
  - exists OutOfFuel. reflexivity.
  - rewrite Hv.
    destruct (BlockIterator.val_bytes (BlockIterator.set_current it cur)) as [v|e];
      cbn [bind].
    + rewrite Hnext. cbn [bind]. destruct IH as [e ->]. exists e. reflexivity.
    + exists e. reflexivity.
Qed.

Lemma failed_parse_repeats_witness :
  let it := BlockIterator.mk BytewiseComparator short_entry_block 1 1 0 0 []
              (BlockIterator.mkBinary (Some 0) 0) BlockIterator.OK in
  BlockIterator.parseNextKeyVal it = Done (false, it)
  /\ BlockIterator.valid it = true
  /\ BlockIterator.next it = Done it.
Proof.
  cbv zeta.
  assert (H1 : BlockIterator.parseNextKeyVal
                 (BlockIterator.mk BytewiseComparator short_entry_block 1 1 0 0 []
                    (BlockIterator.mkBinary (Some 0) 0) BlockIterator.OK)
               = Done (false,
                       BlockIterator.mk BytewiseComparator short_entry_block 1 1 0 0 []
                         (BlockIterator.mkBinary (Some 0) 0) BlockIterator.OK))
    by (vm_compute; reflexivity).
  assert (H2 : BlockIterator.valid
                 (BlockIterator.mk BytewiseComparator short_entry_block 1 1 0 0 []
                    (BlockIterator.mkBinary (Some 0) 0) BlockIterator.OK) = true)
    by reflexivity.
  split; [exact H1|]. split; [exact H2|].
  exact (proj1 (failed_parse_repeats _ _ H1 H2)).
Defined.

Lemma bind_ext {A B : Type} (m : outcome A) (k1 k2 : A -> outcome B) :
  (forall a, k1 a = k2 a) -> bind m k1 = bind m k2.
Proof. intros H. destruct m; cbn [bind]; auto. Qed.







(* ================================================================== *)
(** ** Blocks with a single restart group *)

Lemma encode_entries_app (a b : list (Z * bytes * bytes)) :
  encode_entries (a ++ b) = encode_entries a ++ encode_entries b.
Proof. unfold encode_entries. rewrite map_app, concat_app. reflexivity. Qed.

Lemma size_encode_entries_single (e : Z * bytes * bytes) :
  size (encode_entries [e]) = size (encode_entry e).
Proof. unfold encode_entries. cbn [map concat]. rewrite app_nil_r. reflexivity. Qed.

Lemma last_key_of_nil (p : bytes) : last_key_of p [] = p.
Proof. reflexivity. Qed.

Lemma last_key_of_snoc (p : bytes) (a : list (Z * bytes * bytes)) (s : Z) (k v : bytes) :
  last_key_of p (a ++ [(s, k, v)]) = k.
Proof. unfold last_key_of. rewrite rev_unit. reflexivity. Qed.

Lemma last_key_of_cons (p : bytes) (s : Z) (k v : bytes) (a : list (Z * bytes * bytes)) :
  last_key_of p ((s, k, v) :: a) = last_key_of k a.
Proof.
  unfold last_key_of. cbn [rev]. destruct (rev a) as [|[[s' k'] v'] r]; reflexivity.
Qed.

Lemma chain_app (a b : list (Z * bytes * bytes)) : forall (p : bytes),
  chain p (a ++ b) -> chain p a /\ chain (last_key_of p a) b.
Proof.
  induction a as [|[[s k] v] a IH]; intros p H.
  - split; [exact I | exact H].
  - cbn [app chain] in H. destruct H as (H1 & H2 & H3 & H4 & H5 & H6).
    destruct (IH k H6) as [Ha Hb]. rewrite last_key_of_cons.
    split; [|exact Hb]. cbn [chain]. auto 10.
Qed.

Lemma size_encode_entry_chain (p : bytes) (s : Z) (k v : bytes)
    (rest : list (Z * bytes * bytes)) :
  chain p ((s, k, v) :: rest) -> 12 <= size (encode_entry (s, k, v)).
Proof.
  cbn [chain]. intros (H1 & H2 & _). pose proof (size_nonneg v).
  rewrite size_encode_entry by lia. lia.
Qed.

Lemma advance_restart_restarts (fuel : nat) : forall (it it' : BlockIterator.t),
  BlockIterator.advance_restart fuel it = Done it' ->
  BlockIterator.restarts_ it' = BlockIterator.restarts_ it.
Proof.
  induction fuel as [|f IH]; intros it it' H; cbn [BlockIterator.advance_restart] in H.
  - apply Done_inj in H. subst it'. reflexivity.
  - destruct (u32 (BlockIterator.current_restart_ it + 1) <? BlockIterator.num_restarts_ it).
    + destruct (BlockIterator.getRestartOffset it (BlockIterator.current_restart_ it))
        as [off|]; cbn [bind] in H; [|discriminate H].
      destruct (off <? BlockIterator.current_ it).
      * apply IH in H. exact H.
      * apply Done_inj in H. subst it'. reflexivity.
    + apply Done_inj in H. subst it'. reflexivity.
Qed.

Lemma parseNextKeyVal_restarts (it it' : BlockIterator.t) (ok : bool) :
  BlockIterator.parseNextKeyVal it = Done (ok, it') ->
  BlockIterator.restarts_ it' = BlockIterator.restarts_ it.
Proof.
  unfold BlockIterator.parseNextKeyVal. intros H.
  destruct (BlockIterator.nextEntryOffset it) as [cur|]; cbn [bind] in H; [|discriminate H].
  it_simpl_in H.
  destruct (cur >=? BlockIterator.restarts_ it).
  - apply Done_inj in H. injection H as _ <-. reflexivity.
  - destruct (BlockIterator.decodeEntry (BlockIterator.set_current it cur) cur
                (BlockIterator.restarts_ it)) as [[[[[p sh] ns] vs]|]|];
      cbn [bind] in H; try discriminate H.
    + destruct (size (BlockIterator.key_ it) <? sh).
      * apply Done_inj in H. injection H as _ <-. reflexivity.
      * destruct (load (BlockIterator.data_ it) p ns) as [suffix|]; cbn [bind] in H;
          [|discriminate H].
        match type of H with
        | context [BlockIterator.advance_restart ?f ?i] =>
            destruct (BlockIterator.advance_restart f i) as [it2|] eqn:A
        end; cbn [bind] in H; [|discriminate H].
        apply Done_inj in H. injection H as _ <-.
        apply advance_restart_restarts in A. exact A.
    + apply Done_inj in H. injection H as _ <-. reflexivity.
Qed.

(** The loop of [last()] is the loop of [prev()] run up to the restart
    array. *)
Lemma last_loop_as_prev_loop (fuel : nat) : forall (it : BlockIterator.t),
  BlockIterator.last_loop fuel it
  = BlockIterator.prev_loop fuel it (BlockIterator.restarts_ it).
Proof.
  induction fuel as [|f IH]; intros it; [reflexivity|].
  cbn [BlockIterator.last_loop BlockIterator.prev_loop].
  destruct (BlockIterator.parseNextKeyVal it) as [[ok it1]|] eqn:P; cbn [bind];
    [|reflexivity].
  apply parseNextKeyVal_restarts in P. rewrite P.
  destruct ok; [|reflexivity].
  apply bind_ext. intros n. destruct (n <? BlockIterator.restarts_ it); [|reflexivity].
  rewrite IH, P. reflexivity.
Qed.

Section SingleGroup.

Variable es : list (Z * bytes * bytes).
Variable it0 : BlockIterator.t.
Hypothesis Hover : over_single_group es it0.
Hypothesis Hch : chain [] es.
Hypothesis Hsz : size (block_bytes es []) < 2 ^ 32.

Lemma single_group_size :
  size (block_bytes es []) = size (encode_entries es) + 8.
Proof. rewrite size_block_bytes. cbn [length]. lia. Qed.

Lemma split_size (pre post : list (Z * bytes * bytes)) (e : Z * bytes * bytes) :
  es = pre ++ e :: post ->
  size (encode_entries es)
  = size (encode_entries pre) + size (encode_entry e) + size (encode_entries post).
Proof.
  intros ->. rewrite encode_entries_app, size_encode_entries_cons, !size_app. lia.
Qed.

Lemma split_entry_size (pre post : list (Z * bytes * bytes)) (e : Z * bytes * bytes) :
  es = pre ++ e :: post -> 12 <= size (encode_entry e).
Proof.
  intros He. pose proof Hch as H. rewrite He in H.
  apply chain_app in H. destruct H as [_ H]. destruct e as [[s k] v].
  exact (size_encode_entry_chain _ s k v post H).
Qed.

(** Parsing from the end of the records [pre] shows the next record. *)
Lemma parse_positions (pre post : list (Z * bytes * bytes)) (e : Z * bytes * bytes)
    (it : BlockIterator.t) :
  es = pre ++ e :: post ->
  same_block it it0 ->
  BlockIterator.nextEntryOffset it = Done (size (encode_entries pre)) ->
  BlockIterator.key_ it = last_key_of [] pre ->
  BlockIterator.current_restart_ it = 0 ->
  BlockIterator.parseNextKeyVal it = Done (true, positioned it0 pre e).
Proof.
  intros He (Hc & Hd & Hl & Hn & Hs) Hnext Hkey Hcr.
  destruct Hover as (Hd0 & Hl0 & Hn0).
  pose proof single_group_size as Hsize.
  pose proof (split_size pre post e He) as Hsplit.
  pose proof (size_nonneg (encode_entries post)) as Hpost0.
  pose proof Hch as Hchain. rewrite He in Hchain.
  apply chain_app in Hchain. destruct Hchain as [_ Hchain].
  destruct e as [[s k] v]. cbn [chain] in Hchain.
  destruct Hchain as (H1 & H2 & H3 & H4 & H5 & _).
  pose proof (size_nonneg v) as Hv0.
  pose proof (size_encode_entry s k v ltac:(lia)) as Hes.
  assert (P1 : BlockIterator.data_ it
               = encode_entries pre ++ encode_entry (s, k, v)
                   ++ (encode_entries post ++ concat (map encodeInt [0])
                         ++ encodeInt (Z.of_nat (length [0])))).
  { rewrite Hd, Hd0, He. unfold block_bytes.
    rewrite encode_entries_app, size_encode_entries_cons, <- !app_assoc. reflexivity. }
  assert (P2 : size (encode_entries pre) + size (encode_entry (s, k, v))
               <= BlockIterator.restarts_ it) by (rewrite Hl, Hl0; lia).
  assert (P3 : 0 <= BlockIterator.current_restart_ it < BlockIterator.num_restarts_ it)
    by (rewrite Hcr, Hn, Hn0; lia).
  assert (P4 : 4 * BlockIterator.num_restarts_ it <= size (BlockIterator.data_ it)).
  { rewrite Hn, Hn0, Hd, Hd0. pose proof (size_nonneg (encode_entries es)). lia. }
  assert (P5 : BlockIterator.num_restarts_ it < 2 ^ 32) by (rewrite Hn, Hn0; lia).
  destruct (parse_at_record it (encode_entries pre) _ (last_key_of [] pre) s k v
              P1 Hnext P2 Hkey H1 H2 H3 H4 H5 P3 P4 P5)
    as (cr & Hcr' & Hparse).
  rewrite Hparse. unfold positioned.
  rewrite Hc, Hd, Hl, Hn, Hs. rewrite Hn, Hn0 in Hcr'.
  replace cr with 0 by lia. reflexivity.
Qed.

Lemma positioned_same_block (pre : list (Z * bytes * bytes)) (e : Z * bytes * bytes) :
  same_block (positioned it0 pre e) it0.
Proof. destruct e as [[s k] v]. repeat split. Qed.

Lemma positioned_next_offset (pre post : list (Z * bytes * bytes))
    (e : Z * bytes * bytes) :
  es = pre ++ e :: post ->
  BlockIterator.nextEntryOffset (positioned it0 pre e)
  = Done (size (encode_entries (pre ++ [e]))).
Proof.
  intros He. pose proof (split_size pre post e He) as Hsplit.
  pose proof single_group_size as Hsize.
  pose proof (size_nonneg (encode_entries post)) as Hpost0.
  pose proof (size_nonneg (encode_entries pre)) as Hpre0.
  pose proof Hch as Hchain. rewrite He in Hchain.
  apply chain_app in Hchain. destruct Hchain as [_ Hchain].
  destruct e as [[s k] v]. cbn [chain] in Hchain.
  destruct Hchain as (H1 & H2 & H3 & H4 & H5 & _).
  pose proof (size_nonneg v) as Hv0.
  pose proof (size_encode_entry s k v ltac:(lia)) as Hes.
  unfold positioned, BlockIterator.nextEntryOffset. it_simpl.
  rewrite encode_entries_app, size_app, size_encode_entries_single, Hes.
  f_equal. rewrite u32_small; lia.
Qed.

Lemma positioned_key (pre : list (Z * bytes * bytes)) (e : Z * bytes * bytes) :
  BlockIterator.key_ (positioned it0 pre e) = last_key_of [] (pre ++ [e]).
Proof. destruct e as [[s k] v]. rewrite last_key_of_snoc. reflexivity. Qed.

Lemma positioned_restart (pre : list (Z * bytes * bytes)) (e : Z * bytes * bytes) :
  BlockIterator.current_restart_ (positioned it0 pre e) = 0.
Proof. destruct e as [[s k] v]. reflexivity. Qed.

Lemma positioned_current (pre : list (Z * bytes * bytes)) (e : Z * bytes * bytes) :
  BlockIterator.current_ (positioned it0 pre e) = size (encode_entries pre).
Proof. destruct e as [[s k] v]. reflexivity. Qed.

Lemma positioned_valid (pre post : list (Z * bytes * bytes)) (e : Z * bytes * bytes) :
  es = pre ++ e :: post ->
  BlockIterator.valid (positioned it0 pre e) = true.
Proof.
  intros He. pose proof (split_size pre post e He) as Hsplit.
  pose proof (split_entry_size pre post e He) as He12.
  pose proof (size_nonneg (encode_entries post)) as Hpost0.
  destruct Hover as (_ & Hl0 & _).
  unfold BlockIterator.valid. rewrite positioned_current.
  destruct e as [[s k] v]. unfold positioned. it_simpl.
  apply Z.ltb_lt. lia.
Qed.

Lemma positioned_entry (pre post : list (Z * bytes * bytes)) (e : Z * bytes * bytes) :
  es = pre ++ e :: post ->
  BlockIterator.val_bytes (positioned it0 pre e) = Done (snd (entry_of e))
  /\ BlockIterator.key (positioned it0 pre e) = fst (entry_of e)
  /\ current_entry (positioned it0 pre e) = Done (Some (entry_of e)).
Proof.
  intros He.
  assert (Hval : BlockIterator.val_bytes (positioned it0 pre e) = Done (snd (entry_of e))).
  { destruct Hover as (Hd0 & _ & _).
    pose proof Hch as Hchain. rewrite He in Hchain.
    apply chain_app in Hchain. destruct Hchain as [_ Hchain].
    destruct e as [[s k] v]. cbn [chain] in Hchain.
    destruct Hchain as (H1 & H2 & H3 & H4 & H5 & _).
    unfold positioned, BlockIterator.val_bytes. it_simpl. cbn [entry_of snd].
    apply (load_at _ (encode_entries pre ++ encodeInt s ++ encodeInt (size k - s)
                        ++ encodeInt (size v) ++ skipn (Z.to_nat s) k)
             v (encode_entries post ++ concat (map encodeInt [0])
                  ++ encodeInt (Z.of_nat (length [0])))).
    - rewrite Hd0, He. unfold block_bytes.
      rewrite encode_entries_app, size_encode_entries_cons. unfold encode_entry.
      rewrite <- !app_assoc. reflexivity.
    - rewrite !size_app, !size_encodeInt, size_skipn by lia. lia.
    - reflexivity. }
  split; [exact Hval|].
  assert (Hkey : BlockIterator.key (positioned it0 pre e) = fst (entry_of e))
    by (destruct e as [[s k] v]; reflexivity).
  split; [exact Hkey|].
  unfold current_entry. rewrite (positioned_valid pre post e He), Hval. cbn [bind].
  rewrite Hkey. destruct (entry_of e). reflexivity.
Qed.

(** Parsing at the end of the records leaves the iterator not valid. *)
Lemma parse_at_end (it : BlockIterator.t) :
  same_block it it0 ->
  BlockIterator.nextEntryOffset it = Done (size (encode_entries es)) ->
  exists it',
    BlockIterator.parseNextKeyVal it = Done (false, it')
    /\ BlockIterator.valid it' = false
    /\ same_block it' it0.
Proof.
  intros (Hc & Hd & Hl & Hn & Hs) Hnext.
  destruct Hover as (_ & Hl0 & _).
  unfold BlockIterator.parseNextKeyVal. rewrite Hnext. it_simpl.
  rewrite Hl, Hl0, Z.geb_leb, Z.leb_refl.
  eexists. split; [reflexivity|]. split.
  - unfold BlockIterator.valid. it_simpl. rewrite ?Hl, ?Hl0. apply Z.ltb_irrefl.
  - unfold same_block. it_simpl. auto.
Qed.

(** The restart offset read for the single group is 0. *)
Lemma single_group_restart_offset (it : BlockIterator.t) :
  same_block it it0 ->
  BlockIterator.getRestartOffset it 0 = Done 0.
Proof.
  intros (Hc & Hd & Hl & Hn & Hs). destruct Hover as (Hd0 & _ & Hn0).
  destruct (block_bytes_head es [] Hch) as (tail & Hhead).
  unfold BlockIterator.getRestartOffset. rewrite Hn, Hn0. cbn [Z.ltb Z.compare assert bind].
  rewrite Hd, Hd0.
  rewrite (decodeInt_at_middle _ [] tail 0 (0 * 4) Hhead eq_refl). reflexivity.
Qed.

(** [seekToRestartPoint(0)]: the state before the first record. *)
Lemma single_group_seek_restart (it : BlockIterator.t) :
  same_block it it0 ->
  exists g,
    BlockIterator.seekToRestartPoint it 0 = Done g
    /\ same_block g it0
    /\ BlockIterator.nextEntryOffset g = Done (size (encode_entries []))
    /\ BlockIterator.key_ g = last_key_of [] []
    /\ BlockIterator.current_restart_ g = 0
    /\ BlockIterator.current_ g = BlockIterator.current_ it.
Proof.
  intros Hs. unfold BlockIterator.seekToRestartPoint.
  assert (Hs' : same_block
                  (BlockIterator.set_current_restart (BlockIterator.set_key it []) 0) it0).
  { destruct Hs as (Hc & Hd & Hl & Hn & Hst). unfold same_block. it_simpl. auto. }
  rewrite (single_group_restart_offset _ Hs'). cbn [bind].
  eexists. split; [reflexivity|].
  destruct Hs as (Hc & Hd & Hl & Hn & Hst).
  unfold same_block, BlockIterator.nextEntryOffset. it_simpl. repeat split; auto.
Qed.

(** Replaying from the end of [pre0] up to the entry that starts at
    [old] stops at the record just before that offset. *)
Lemma prev_loop_positions (mid : list (Z * bytes * bytes)) :
  forall (pre0 post : list (Z * bytes * bytes)) (e : Z * bytes * bytes)
         (g : BlockIterator.t) (fuel : nat),
  es = pre0 ++ mid ++ e :: post ->
  same_block g it0 ->
  BlockIterator.nextEntryOffset g = Done (size (encode_entries pre0)) ->
  BlockIterator.key_ g = last_key_of [] pre0 ->
  BlockIterator.current_restart_ g = 0 ->
  (length mid < fuel)%nat ->
  BlockIterator.prev_loop fuel g (size (encode_entries (pre0 ++ mid ++ [e])))
  = Done (positioned it0 (pre0 ++ mid) e).
Proof.
  induction mid as [|m mid IH]; intros pre0 post e g fuel He Hs Hnext Hkey Hcr Hfuel;
    (destruct fuel as [|f]; [cbn [length] in Hfuel; lia|]);
    cbn [BlockIterator.prev_loop].
  - cbn [app] in He |- *. rewrite app_nil_r.
    rewrite (parse_positions pre0 post e g He Hs Hnext Hkey Hcr). cbn [bind].
    rewrite (positioned_next_offset pre0 post e He). cbn [bind].
    rewrite Z.ltb_irrefl. reflexivity.
  - cbn [app] in He.
    rewrite (parse_positions pre0 (mid ++ e :: post) m g He Hs Hnext Hkey Hcr).
    cbn [bind].
    rewrite (positioned_next_offset pre0 (mid ++ e :: post) m He). cbn [bind].
    assert (He' : es = (pre0 ++ [m]) ++ mid ++ e :: post)
      by (rewrite He, <- app_assoc; reflexivity).
    assert (Hlt : size (encode_entries (pre0 ++ [m]))
                  < size (encode_entries (pre0 ++ (m :: mid) ++ [e]))).
    { replace (pre0 ++ (m :: mid) ++ [e]) with ((pre0 ++ [m]) ++ mid ++ [e])
        by (rewrite <- app_assoc; reflexivity).
      rewrite (encode_entries_app (pre0 ++ [m])), size_app.
      rewrite (encode_entries_app mid), size_app, size_encode_entries_single.
      pose proof (size_nonneg (encode_entries mid)).
      assert (He2 : es = (pre0 ++ m :: mid) ++ e :: post)
        by (rewrite He, <- app_assoc; reflexivity).
      pose proof (split_entry_size _ _ _ He2). lia. }
    replace (size (encode_entries (pre0 ++ [m]))
             <? size (encode_entries (pre0 ++ (m :: mid) ++ [e]))) with true
      by (symmetry; apply Z.ltb_lt; exact Hlt).
    replace (pre0 ++ (m :: mid) ++ [e]) with ((pre0 ++ [m]) ++ mid ++ [e])
      by (rewrite <- app_assoc; reflexivity).
    replace (pre0 ++ m :: mid) with ((pre0 ++ [m]) ++ mid)
      by (rewrite <- app_assoc; reflexivity).
    apply (IH (pre0 ++ [m]) post e (positioned it0 pre0 m) f He').
    + apply positioned_same_block.
    + apply (positioned_next_offset pre0 (mid ++ e :: post) m He).
    + apply positioned_key.
    + apply positioned_restart.
    + cbn [length] in Hfuel. lia.
Qed.

(** [last()], from any state: the last record, or not valid on the
    empty block. *)
Lemma last_positions (it : BlockIterator.t) (fuel : nat) :
  same_block it it0 ->
  (length es <= fuel)%nat -> (0 < fuel)%nat ->
  match rev es with
  | [] => exists x, BlockIterator.last fuel it = Done x
                    /\ BlockIterator.valid x = false /\ same_block x it0
  | e :: rpre => BlockIterator.last fuel it = Done (positioned it0 (rev rpre) e)
  end.
Proof.
  intros Hs Hfuel Hpos.
  destruct (single_group_seek_restart it Hs) as (g & Hseek & Hg & Hnext & Hkey & Hcr & _).
  assert (Hn : BlockIterator.num_restarts_ it = 1).
  { destruct Hs as (_ & _ & _ & Hn & _). destruct Hover as (_ & _ & Hn0). congruence. }
  unfold BlockIterator.last. rewrite Hn. change (u32 (1 - 1)) with 0.
  rewrite Hseek. cbn [bind]. rewrite last_loop_as_prev_loop.
  destruct (rev es) as [|e rpre] eqn:Hrev.
  - assert (Hes : es = []).
    { apply (f_equal (@rev _)) in Hrev. rewrite rev_involutive in Hrev. exact Hrev. }
    destruct fuel as [|f]; [lia|]. cbn [BlockIterator.prev_loop].
    destruct (parse_at_end g Hg) as (x & Hparse & Hv & Hx).
    { rewrite Hnext, Hes. reflexivity. }
    rewrite Hparse. cbn [bind]. exists x. auto.
  - assert (Hes : es = rev rpre ++ [e]).
    { apply (f_equal (@rev _)) in Hrev. rewrite rev_involutive in Hrev.
      exact Hrev. }
    assert (Hr : BlockIterator.restarts_ g = size (encode_entries ([] ++ rev rpre ++ [e]))).
    { destruct Hg as (_ & _ & Hl & _). destruct Hover as (_ & Hl0 & _).
      rewrite Hl, Hl0, Hes. reflexivity. }
    rewrite Hr.
    apply (prev_loop_positions (rev rpre) [] [] e g fuel); auto.
    rewrite Hes, length_app in Hfuel. cbn [length] in Hfuel. lia.
Qed.

(** [prev()] from a record: the record before it, or not valid from the
    first. *)
Lemma prev_positions (pre post : list (Z * bytes * bytes)) (e : Z * bytes * bytes)
    (fuel : nat) :
  es = pre ++ e :: post ->
  (length pre <= fuel)%nat -> (0 < fuel)%nat ->
  match rev pre with
  | [] => exists x, BlockIterator.prev fuel (positioned it0 pre e) = Done x
                    /\ BlockIterator.valid x = false /\ same_block x it0
  | e' :: rpre =>
      BlockIterator.prev fuel (positioned it0 pre e) = Done (positioned it0 (rev rpre) e')
  end.
Proof.
  intros He Hfuel Hpos.
  pose proof (positioned_same_block pre e) as Hs.
  unfold BlockIterator.prev. rewrite (positioned_valid pre post e He).
  cbn [assert bind]. rewrite positioned_current.
  destruct fuel as [|f]; [lia|]. cbn [BlockIterator.prev_restart].
  rewrite positioned_restart, (single_group_restart_offset _ Hs). cbn [bind].
  destruct (rev pre) as [|e' rpre] eqn:Hrev.
  - assert (Hpre : pre = []).
    { apply (f_equal (@rev _)) in Hrev. rewrite rev_involutive in Hrev. exact Hrev. }
    subst pre. cbn [encode_entries map concat]. rewrite size_nil.
    cbn [Z.geb Z.compare Z.eqb bind].
    eexists. split; [reflexivity|].
    destruct Hover as (_ & Hl0 & _). destruct e as [[s k] v].
    unfold BlockIterator.valid, same_block, positioned. it_simpl.
    rewrite Z.ltb_irrefl. repeat split.
  - assert (Hpre : pre = rev rpre ++ [e']).
    { apply (f_equal (@rev _)) in Hrev. rewrite rev_involutive in Hrev. exact Hrev. }
    assert (He' : es = (rev rpre) ++ e' :: (e :: post)).
    { rewrite He, Hpre, <- app_assoc. reflexivity. }
    pose proof (split_entry_size _ _ _ He') as H12.
    assert (Hold : 0 < size (encode_entries pre)).
    { rewrite Hpre, encode_entries_app, size_app, size_encode_entries_single.
      pose proof (size_nonneg (encode_entries (rev rpre))). lia. }
    replace (0 >=? size (encode_entries pre)) with false
      by (symmetry; rewrite Z.geb_leb; apply Z.leb_gt; exact Hold).
    cbn [bind].
    destruct (single_group_seek_restart (positioned it0 pre e) Hs)
      as (g & Hseek & Hg & Hnext & Hkey & Hcr & _).
    rewrite positioned_restart, Hseek. cbn [bind].
    replace (size (encode_entries pre))
      with (size (encode_entries ([] ++ rev rpre ++ [e']))) by (rewrite Hpre; reflexivity).
    apply (prev_loop_positions (rev rpre) [] (e :: post) e' g (S f)); auto.
    rewrite Hpre, length_app in Hfuel. cbn [length] in Hfuel. lia.
Qed.

(** The caller's [valid()]/[prev()] loop from a record walks back to the
    first record and ends not valid. *)
Lemma collect_prev_positions (rpre : list (Z * bytes * bytes)) :
  forall (post : list (Z * bytes * bytes)) (e : Z * bytes * bytes) (fuel : nat),
  es = rev rpre ++ e :: post ->
  (length rpre + 2 <= fuel)%nat ->
  exists itf,
    collect_prev fuel (positioned it0 (rev rpre) e)
    = Done (entry_of e :: map entry_of rpre, itf)
    /\ BlockIterator.valid itf = false
    /\ BlockIterator.status itf = BlockIterator.status it0.
Proof.
  induction rpre as [|e' rpre IH]; intros post e fuel He Hfuel;
    (destruct fuel as [|f]; [lia|]); cbn [collect_prev].
  - cbn [rev app] in He |- *.
    rewrite (positioned_valid [] post e He).
    destruct (positioned_entry [] post e He) as (Hval & Hkey & _).
    rewrite Hval, Hkey. cbn [bind].
    pose proof (prev_positions [] post e (S f) He) as Hprev.
    cbn [rev length] in Hprev.
    destruct (Hprev ltac:(lia) ltac:(lia)) as (x & Hx & Hv & Hs).
    rewrite Hx. cbn [bind].
    destruct f as [|f]; [cbn [length] in Hfuel; lia|].
    cbn [collect_prev]. rewrite Hv. cbn [bind map].
    exists x. destruct (entry_of e). split; [reflexivity|]. split; [exact Hv|].
    destruct Hs as (_ & _ & _ & _ & Hst). exact Hst.
  - cbn [length] in Hfuel.
    rewrite (positioned_valid (rev (e' :: rpre)) post e He).
    destruct (positioned_entry (rev (e' :: rpre)) post e He) as (Hval & Hkey & _).
    rewrite Hval, Hkey. cbn [bind].
    pose proof (prev_positions (rev (e' :: rpre)) post e (S f) He) as Hprev.
    rewrite rev_involutive in Hprev.
    rewrite Hprev by (rewrite ?length_rev; cbn [length]; lia). cbn [bind].
    assert (He' : es = rev rpre ++ e' :: (e :: post)).
    { rewrite He. cbn [rev]. rewrite <- app_assoc. reflexivity. }
    destruct (IH (e :: post) e' f He' ltac:(lia)) as (itf & Hrun & Hv & Hst).
    rewrite Hrun. cbn [bind map].
    exists itf. destruct (entry_of e). auto.
Qed.

(** [last()] and then the caller's loop: all records, last to first. *)
Lemma scan_backward_positions (it : BlockIterator.t) (fuel : nat) :
  same_block it it0 ->
  (length es < fuel)%nat ->
  exists itf,
    scan_backward fuel it = Done (rev (map entry_of es), itf)
    /\ BlockIterator.valid itf = false
    /\ BlockIterator.status itf = BlockIterator.status it0.
Proof.
  intros Hs Hfuel. unfold scan_backward.
  pose proof (last_positions it fuel Hs ltac:(lia) ltac:(lia)) as Hlast.
  destruct (rev es) as [|e rpre] eqn:Hrev.
  - destruct Hlast as (x & Hx & Hv & Hxs).
    assert (Hes : es = []).
    { apply (f_equal (@rev _)) in Hrev. rewrite rev_involutive in Hrev. exact Hrev. }
    rewrite Hx. cbn [bind]. destruct fuel as [|f]; [lia|].
    cbn [collect_prev]. rewrite Hv, Hes. exists x.
    split; [reflexivity|]. split; [exact Hv|].
    destruct Hxs as (_ & _ & _ & _ & Hst). exact Hst.
  - assert (Hes : es = rev rpre ++ [e]).
    { apply (f_equal (@rev _)) in Hrev. rewrite rev_involutive in Hrev. exact Hrev. }
    rewrite Hlast. cbn [bind].
    destruct (collect_prev_positions rpre [] e fuel Hes) as (itf & Hrun & Hv & Hst).
    { rewrite Hes, length_app, length_rev in Hfuel. cbn [length] in Hfuel. lia. }
    exists itf. rewrite Hrun. split; [|auto].
    rewrite <- map_rev, Hrev. reflexivity.
Qed.

End SingleGroup.

(** A block of at most [N] entries has a single restart group. *)
Lemma single_group_layout (N : Z) (kvs : list entry) :
  1 <= N -> Z.of_nat (length kvs) <= N ->
  layout_restarts N 0 0 [] kvs = [].
Proof.
  intros HN Hlen. pose proof (layout_restarts_fresh_length N kvs HN) as H.
  assert (Hz : (Z.max 1 (Z.of_nat (length kvs)) - 1) / N = 0)
    by (apply Z.div_small; lia).
  rewrite Hz in H. destruct (layout_restarts N 0 0 [] kvs); [reflexivity|].
  cbn [length] in H. lia.
Qed.

(** X15.  For a block of at most [N] sorted entries (one restart group),
    [last()] followed by [prev()] until the iterator is invalid yields the
    entries in reverse order. *)
Theorem roundtrip_last_prev_single_group (options : Options) (restart_offset_init : Z)
    (kvs : list entry) :
  1 <= block_restart_interval options ->
  Z.of_nat (length kvs) <= block_restart_interval options ->
  strictly_increasing (comparator options) kvs ->
  fits_u32 kvs ->
  exists content blk,
    build options kvs = Done content
    /\ Block.Block restart_offset_init content = Done blk
    /\ forall fuel, (length kvs < fuel)%nat ->
       exists itf,
         scan_backward fuel (iterator blk (comparator options)) = Done (rev kvs, itf)
         /\ BlockIterator.valid itf = false
         /\ BlockIterator.status itf = BlockIterator.OK.
Proof.
  intros HN Hlen Hinc Hfit.
  destruct (build_layout options kvs Hinc Hfit) as [Hbuild Hsize].
  set (N := block_restart_interval options) in *.
  rewrite (single_group_layout N kvs HN Hlen) in Hbuild, Hsize.
  set (es := layout N 0 [] kvs) in *.
  assert (Hch : chain [] es).
  { apply layout_chain. unfold fits_u32 in Hfit. lia. }
  exists (block_bytes es []). eexists.
  split; [exact Hbuild|]. split; [apply Block_of_block_bytes; exact Hsize|].
  intros fuel Hfuel.
  set (it0 := iterator (Block.mk (block_bytes es []) (size (block_bytes es []))
                          (Z.of_nat (length [0])) (size (encode_entries es)))
                (comparator options)).
  assert (Hover : over_single_group es it0) by (repeat split).
  assert (Hs : same_block it0 it0) by (repeat split).
  assert (Hl : length es = length kvs).
  { unfold es. rewrite <- (map_entry_of_layout N kvs 0 []) at 2.
    rewrite length_map. reflexivity. }
  destruct (scan_backward_positions es it0 Hover Hch Hsize it0 fuel Hs ltac:(lia))
    as (itf & Hrun & Hv & Hst).
  exists itf. unfold es in Hrun. rewrite map_entry_of_layout in Hrun. auto.
Qed.

Lemma roundtrip_last_prev_single_group_witness :
  1 <= 16
  /\ Z.of_nat (length ab_entries) <= 16
  /\ strictly_increasing BytewiseComparator ab_entries
  /\ fits_u32 ab_entries
  /\ exists content blk,
       build (bytewise 16) ab_entries = Done content
       /\ Block.Block 0 content = Done blk
       /\ forall fuel, (length ab_entries < fuel)%nat ->
          exists itf,
            scan_backward fuel (iterator blk BytewiseComparator) = Done (rev ab_entries, itf)
            /\ BlockIterator.valid itf = false
            /\ BlockIterator.status itf = BlockIterator.OK.
Proof.
  assert (HN : 1 <= 16) by lia.
  assert (Hlen : Z.of_nat (length ab_entries) <= 16) by (vm_compute; discriminate).
  assert (Hinc : strictly_increasing BytewiseComparator ab_entries)
    by (vm_compute; split; [reflexivity | exact I]).
  assert (Hfit : fits_u32 ab_entries) by (vm_compute; reflexivity).
  split; [exact HN|]. split; [exact Hlen|]. split; [exact Hinc|]. split; [exact Hfit|].
  exact (roundtrip_last_prev_single_group (bytewise 16) 0 ab_entries HN Hlen Hinc Hfit).
Defined.

(* ================================================================== *)
(** ** Seeking in a block with a single restart group *)

Lemma lower_bound_skip (cmp : bytes -> bytes -> Z) (target : bytes) (l l' : list entry) :
  Forall (fun kv => cmp (fst kv) target < 0) l ->
  lower_bound cmp target (l ++ l') = lower_bound cmp target l'.
Proof.
  unfold lower_bound. induction l as [|kv l IH]; intros H; [reflexivity|].
  inversion H as [|? ? Hkv Hl]; subst. cbn [app find].
  replace (cmp (fst kv) target >=? 0) with false
    by (symmetry; rewrite Z.geb_leb; apply Z.leb_gt; exact Hkv).
  apply IH. exact Hl.
Qed.

Lemma keys_before_from (cmp : bytes -> bytes -> Z) (l1 l2 : list entry) (k v : bytes) :
  orders_keys cmp -> forall p,
  increasing_from cmp p (l1 ++ (k, v) :: l2) ->
  cmp p k < 0 /\ Forall (fun x => cmp (fst x) k < 0) l1.
Proof.
  intros [Hanti Htrans]. induction l1 as [|[k1 v1] l1 IH]; intros p H.
  - cbn [app increasing_from] in H. destruct H as [H _]. split; [auto | constructor].
  - cbn [app increasing_from] in H. destruct H as [H1 H2].
    destruct (IH k1 H2) as [Hk Hl]. split.
    + apply (Htrans p k1 k); [apply Hanti; exact H1 | lia].
    + constructor; [exact Hk | exact Hl].
Qed.

Lemma keys_before (cmp : bytes -> bytes -> Z) (l1 l2 : list entry) (k v : bytes) :
  orders_keys cmp ->
  strictly_increasing cmp (l1 ++ (k, v) :: l2) ->
  Forall (fun x => cmp (fst x) k < 0) l1.
Proof.
  intros Ho H. destruct l1 as [|[k1 v1] l1]; [constructor|].
  cbn [app strictly_increasing] in H.
  destruct (keys_before_from cmp l1 l2 k v Ho k1 H) as [Hk Hl].
  constructor; assumption.
Qed.

Lemma keys_before_target (cmp : bytes -> bytes -> Z) (l1 l2 : list entry) (k v target : bytes) :
  orders_keys cmp ->
  strictly_increasing cmp (l1 ++ (k, v) :: l2) ->
  cmp k target <= 0 ->
  Forall (fun x => cmp (fst x) target < 0) l1.
Proof.
  intros Ho H Hk. pose proof (keys_before cmp l1 l2 k v Ho H) as Hb.
  destruct Ho as [_ Htrans].
  eapply Forall_impl; [|exact Hb]. cbn beta. intros x Hx.
  exact (Htrans (fst x) k target Hx Hk).
Qed.

Section SingleGroupSeek.

Variable es : list (Z * bytes * bytes).
Variable it0 : BlockIterator.t.
Variable cmp : bytes -> bytes -> Z.
Hypothesis Hover : over_single_group es it0.
Hypothesis Hch : chain [] es.
Hypothesis Hsz : size (block_bytes es []) < 2 ^ 32.
Hypothesis Hcmp : BlockIterator.comparator_ it0 = cmp.

(** The closing scan of [seek], from the end of the records [pre0]. *)
Lemma seek_scan_positions (rest : list (Z * bytes * bytes)) :
  forall (pre0 : list (Z * bytes * bytes)) (g : BlockIterator.t) (fuel : nat)
         (target : bytes),
  es = pre0 ++ rest ->
  same_block g it0 ->
  BlockIterator.nextEntryOffset g = Done (size (encode_entries pre0)) ->
  BlockIterator.key_ g = last_key_of [] pre0 ->
  BlockIterator.current_restart_ g = 0 ->
  (length rest < fuel)%nat ->
  exists it',
    BlockIterator.seek_scan fuel g target = Done it'
    /\ current_entry it' = Done (lower_bound cmp target (map entry_of rest))
    /\ shows_record_or_ended es it0 it'.
Proof.
  induction rest as [|e rest IH]; intros pre0 g fuel target He Hs Hnext Hkey Hcr Hfuel;
    (destruct fuel as [|f]; [cbn [length] in Hfuel; lia|]);
    cbn [BlockIterator.seek_scan].
  - rewrite app_nil_r in He. subst pre0.
    destruct (parse_at_end es it0 Hover g Hs Hnext) as (x & Hparse & Hv & Hx).
    rewrite Hparse. cbn [bind negb]. exists x. split; [reflexivity|]. split.
    + unfold current_entry. rewrite Hv. reflexivity.
    + right. auto.
  - rewrite (parse_positions es it0 Hover Hch Hsz pre0 rest e g He Hs Hnext Hkey Hcr).
    cbn [bind negb].
    destruct (positioned_entry es it0 Hover Hch Hsz pre0 rest e He) as (_ & Hk & Hentry).
    unfold BlockIterator.key in Hk. unfold BlockIterator.compare.
    replace (BlockIterator.comparator_ (positioned it0 pre0 e)) with cmp
      by (destruct e as [[s k] v]; symmetry; exact Hcmp).
    rewrite Hk. cbn [map]. unfold lower_bound. cbn [find]. fold (lower_bound cmp target).
    destruct (cmp (fst (entry_of e)) target >=? 0).
    + exists (positioned it0 pre0 e). split; [reflexivity|]. split; [exact Hentry|].
      left. exists pre0, e, rest. auto.
    + assert (He' : es = (pre0 ++ [e]) ++ rest)
        by (rewrite He, <- app_assoc; reflexivity).
      apply (IH (pre0 ++ [e]) (positioned it0 pre0 e) f target He').
      * apply positioned_same_block.
      * apply (positioned_next_offset es it0 Hover Hch Hsz pre0 rest e He).
      * apply positioned_key.
      * apply positioned_restart.
      * cbn [length] in Hfuel. lia.
Qed.

Lemma single_group_num (it : BlockIterator.t) :
  same_block it it0 -> BlockIterator.num_restarts_ it = 1.
Proof.
  intros (_ & _ & _ & Hn & _). destruct Hover as (_ & _ & Hn0). congruence.
Qed.

(** [seek] from a state that is not valid. *)
Lemma seek_from_ended (it : BlockIterator.t) (fuel : nat) (target : bytes) :
  same_block it it0 ->
  BlockIterator.valid it = false ->
  (length es < fuel)%nat ->
  exists it',
    BlockIterator.seek fuel it target = Done it'
    /\ current_entry it' = Done (lower_bound cmp target (map entry_of es))
    /\ shows_record_or_ended es it0 it'.
Proof.
  intros Hs Hv Hfuel. unfold BlockIterator.seek. cbv zeta.
  rewrite Hv, (single_group_num it Hs). change (u32 (1 - 1)) with 0.
  destruct fuel as [|f]; [lia|].
  cbn [BlockIterator.seek_search Z.ltb Z.compare bind Z.eqb orb assert].
  rewrite andb_false_r. cbn [negb].
  destruct (single_group_seek_restart es it0 Hover Hch it Hs)
    as (g & Hseek & Hg & Hnext & Hkey & Hcr & _).
  rewrite Hseek. cbn [bind].
  apply (seek_scan_positions es [] g (S f) target); auto.
Qed.

Hypothesis Horder : orders_keys cmp.
Hypothesis Hinc : strictly_increasing cmp (map entry_of es).

(** [seek] from a record. *)
Lemma seek_from_record (pre post : list (Z * bytes * bytes)) (e : Z * bytes * bytes)
    (fuel : nat) (target : bytes) :
  es = pre ++ e :: post ->
  (length es < fuel)%nat ->
  exists it',
    BlockIterator.seek fuel (positioned it0 pre e) target = Done it'
    /\ current_entry it' = Done (lower_bound cmp target (map entry_of es))
    /\ shows_record_or_ended es it0 it'.
Proof.
  intros He Hfuel.
  pose proof (positioned_same_block it0 pre e) as Hs.
  destruct (positioned_entry es it0 Hover Hch Hsz pre post e He) as (_ & Hk & Hentry).
  unfold BlockIterator.key in Hk.
  assert (Hkvs : map entry_of es
                 = map entry_of pre ++ (fst (entry_of e), snd (entry_of e))
                     :: map entry_of post).
  { rewrite He, map_app. cbn [map]. destruct (entry_of e). reflexivity. }
  pose proof Hinc as Hinc'. rewrite Hkvs in Hinc'.
  assert (Hlen : (length post < length es)%nat).
  { rewrite He, length_app. cbn [length]. lia. }
  unfold BlockIterator.seek. cbv zeta.
  rewrite (positioned_valid es it0 Hover Hch Hsz pre post e He).
  rewrite (single_group_num _ Hs), positioned_restart. change (u32 (1 - 1)) with 0.
  unfold BlockIterator.compare.
  replace (BlockIterator.comparator_ (positioned it0 pre e)) with cmp
    by (destruct e as [[s k] v]; symmetry; exact Hcmp).
  rewrite Hk. set (c := cmp (fst (entry_of e)) target).
  destruct fuel as [|f]; [lia|].
  destruct (c <? 0) eqn:C1.
  - (* the current key is below the target: the scan goes on from here *)
    apply Z.ltb_lt in C1.
    cbn [BlockIterator.seek_search Z.ltb Z.compare bind Z.eqb].
    rewrite orb_true_r. cbn [assert bind andb negb].
    assert (He' : es = (pre ++ [e]) ++ post) by (rewrite He, <- app_assoc; reflexivity).
    destruct (seek_scan_positions post (pre ++ [e]) (positioned it0 pre e) (S f) target He')
      as (it' & Hrun & Hcur & Hshow).
    + exact Hs.
    + apply (positioned_next_offset es it0 Hover Hch Hsz pre post e He).
    + apply positioned_key.
    + apply positioned_restart.
    + lia.
    + exists it'. split; [exact Hrun|]. split; [|exact Hshow].
      rewrite Hcur, Hkvs. f_equal.
      replace (map entry_of pre ++ (fst (entry_of e), snd (entry_of e)) :: map entry_of post)
        with ((map entry_of pre ++ [(fst (entry_of e), snd (entry_of e))])
                ++ map entry_of post) by (rewrite <- app_assoc; reflexivity).
      symmetry. apply lower_bound_skip. apply Forall_app. split.
      * apply (keys_before_target cmp _ _ _ _ target Horder Hinc'). fold c. lia.
      * constructor; [cbn [fst]; fold c; exact C1 | constructor].
  - apply Z.ltb_ge in C1. destruct (c >? 0) eqn:C2.
    + (* the current key is above the target: back to the restart point *)
      cbn [BlockIterator.seek_search Z.ltb Z.compare bind Z.eqb].
      rewrite orb_true_r. cbn [assert bind andb negb].
      destruct (single_group_seek_restart es it0 Hover Hch (positioned it0 pre e) Hs)
        as (g & Hseek & Hg & Hnext & Hkey & Hcr & _).
      rewrite Hseek. cbn [bind].
      apply (seek_scan_positions es [] g (S f) target); auto.
    + (* the current key is the target *)
      rewrite Z.gtb_ltb in C2. apply Z.ltb_ge in C2.
      exists (positioned it0 pre e). split; [reflexivity|]. split.
      * rewrite Hentry, Hkvs. f_equal.
        rewrite (lower_bound_skip cmp target (map entry_of pre)).
        2:{ apply (keys_before_target cmp _ _ _ _ target Horder Hinc'). fold c. lia. }
        unfold lower_bound. cbn [find fst]. fold c.
        replace (c >=? 0) with true by (symmetry; rewrite Z.geb_leb; apply Z.leb_le; lia).
        destruct (entry_of e). reflexivity.
      * left. exists pre, e, post. auto.
Qed.

(** [seek] from any state that shows a record or is not valid. *)
Lemma seek_from_any (it : BlockIterator.t) (fuel : nat) (target : bytes) :
  shows_record_or_ended es it0 it ->
  (length es < fuel)%nat ->
  exists it',
    BlockIterator.seek fuel it target = Done it'
    /\ current_entry it' = Done (lower_bound cmp target (map entry_of es))
    /\ shows_record_or_ended es it0 it'.
Proof.
  intros [(pre & e & post & He & ->) | [Hv Hs]] Hfuel.
  - apply (seek_from_record pre post e fuel target He Hfuel).
  - apply (seek_from_ended it fuel target Hs Hv Hfuel).
Qed.

(** [first()] and [last()], from any state over the block, lead to a
    state that shows a record or is not valid. *)
Lemma positioning_shape (fuel : nat) (m : motion) (it it' : BlockIterator.t) :
  same_block it it0 ->
  m = First \/ m = Last ->
  (length es < fuel)%nat ->
  run_motion fuel m it = Done it' ->
  shows_record_or_ended es it0 it'.
Proof.
  clear Hcmp Horder Hinc.
  intros Hs [-> | ->] Hfuel Hrun; cbn [run_motion] in Hrun.
  - (* first *)
    unfold BlockIterator.first in Hrun.
    destruct (single_group_seek_restart es it0 Hover Hch it Hs)
      as (g & Hseek & Hg & Hnext & Hkey & Hcr & _).
    rewrite Hseek in Hrun. cbn [bind] in Hrun.
    destruct es as [|e post] eqn:Ees.
    + destruct (parse_at_end [] it0 Hover g Hg Hnext) as (x & Hparse & Hv & Hx).
      rewrite Hparse in Hrun. cbn [bind] in Hrun. apply Done_inj in Hrun. subst it'.
      right. auto.
    + rewrite (parse_positions (e :: post) it0 Hover Hch Hsz [] post e g eq_refl
                 Hg Hnext Hkey Hcr) in Hrun.
      cbn [bind] in Hrun. apply Done_inj in Hrun. subst it'.
      left. exists [], e, post. auto.
  - (* last *)
    pose proof (last_positions es it0 Hover Hch Hsz it fuel Hs ltac:(lia) ltac:(lia))
      as Hlast.
    destruct (rev es) as [|e rpre] eqn:Hrev.
    + destruct Hlast as (x & Hx & Hv & Hxs). rewrite Hx in Hrun.
      apply Done_inj in Hrun. subst it'. right. auto.
    + rewrite Hlast in Hrun. apply Done_inj in Hrun. subst it'.
      left. exists (rev rpre), e, []. split; [|reflexivity].
      apply (f_equal (@rev _)) in Hrev. rewrite rev_involutive in Hrev. exact Hrev.
Qed.

(** Every move that returns leads from such a state to such a state. *)
Lemma move_keeps_shape (fuel : nat) (mv : move) (it it' : BlockIterator.t) :
  shows_record_or_ended es it0 it ->
  (length es < fuel)%nat ->
  run_move fuel mv it = Done it' ->
  shows_record_or_ended es it0 it'.
Proof.
  intros Hshape Hfuel Hrun.
  assert (Hs : same_block it it0).
  { destruct Hshape as [(pre & e & post & He & ->) | [_ Hs]];
      [apply positioned_same_block | exact Hs]. }
  destruct mv as [[| | |]|target]; cbn [run_move run_motion] in Hrun.
  - apply (positioning_shape fuel First it it' Hs (or_introl eq_refl) Hfuel Hrun).
  - (* next *)
    unfold BlockIterator.next in Hrun.
    destruct Hshape as [(pre & e & post & He & ->) | [Hv _]].
    + rewrite (positioned_valid es it0 Hover Hch Hsz pre post e He) in Hrun.
      cbn [assert bind] in Hrun.
      pose proof (positioned_next_offset es it0 Hover Hch Hsz pre post e He) as Hnext.
      destruct post as [|e' post].
      * destruct (parse_at_end es it0 Hover (positioned it0 pre e) Hs)
          as (x & Hparse & Hv & Hx).
        { rewrite Hnext, He. reflexivity. }
        rewrite Hparse in Hrun. cbn [bind] in Hrun. apply Done_inj in Hrun. subst it'.
        right. auto.
      * assert (He' : es = (pre ++ [e]) ++ e' :: post)
          by (rewrite He, <- app_assoc; reflexivity).
        rewrite (parse_positions es it0 Hover Hch Hsz (pre ++ [e]) post e'
                   (positioned it0 pre e) He' Hs Hnext (positioned_key it0 pre e)
                   (positioned_restart it0 pre e)) in Hrun.
        cbn [bind] in Hrun. apply Done_inj in Hrun. subst it'.
        left. exists (pre ++ [e]), e', post. auto.
    + rewrite Hv in Hrun. cbn [assert bind] in Hrun. discriminate Hrun.
  - apply (positioning_shape fuel Last it it' Hs (or_intror eq_refl) Hfuel Hrun).
  - (* prev *)
    destruct Hshape as [(pre & e & post & He & ->) | [Hv _]].
    + assert (Hlen : (length pre <= fuel)%nat).
      { rewrite He, length_app in Hfuel. lia. }
      pose proof (prev_positions es it0 Hover Hch Hsz pre post e fuel He Hlen ltac:(lia))
        as Hprev.
      destruct (rev pre) as [|e' rpre] eqn:Hrev.
      * destruct Hprev as (x & Hx & Hv & Hxs). rewrite Hx in Hrun.
        apply Done_inj in Hrun. subst it'. right. auto.
      * rewrite Hprev in Hrun. apply Done_inj in Hrun. subst it'.
        left. exists (rev rpre), e', (e :: post). split; [|reflexivity].
        apply (f_equal (@rev _)) in Hrev. rewrite rev_involutive in Hrev.
        rewrite He, Hrev. cbn [rev]. rewrite <- app_assoc. reflexivity.
    + unfold BlockIterator.prev in Hrun. rewrite Hv in Hrun.
      cbn [assert bind] in Hrun. discriminate Hrun.
  - (* seek *)
    destruct (seek_from_any it fuel target Hshape Hfuel) as (x & Hx & _ & Hshow).
    rewrite Hx in Hrun. apply Done_inj in Hrun. subst it'. exact Hshow.
Qed.

Lemma moves_keep_shape (fuel : nat) (mvs : list move) :
  forall (it it' : BlockIterator.t),
  shows_record_or_ended es it0 it ->
  (length es < fuel)%nat ->
  run_moves fuel mvs it = Done it' ->
  shows_record_or_ended es it0 it'.
Proof.
  induction mvs as [|mv mvs IH]; intros it it' Hshape Hfuel Hrun; cbn [run_moves] in Hrun.
  - apply Done_inj in Hrun. subst it'. exact Hshape.
  - destruct (run_move fuel mv it) as [it1|] eqn:Hmv; cbn [bind] in Hrun;
      [|discriminate Hrun].
    apply (IH it1 it'); auto.
    apply (move_keeps_shape fuel mv it it1); auto.
Qed.

End SingleGroupSeek.

Lemma shape_status (es : list (Z * bytes * bytes)) (it0 it : BlockIterator.t) :
  shows_record_or_ended es it0 it ->
  BlockIterator.status it = BlockIterator.status it0.
Proof.
  intros [(pre & [[s k] v] & post & _ & ->) | [_ (_ & _ & _ & _ & H)]];
    [reflexivity | exact H].
Qed.

(** X16.  For a block of at most [N] sorted entries (one restart group)
    and a comparator that orders keys: after [first()] or [last()] and
    any further moves that return ([first], [next], [last], [prev],
    [seek]), [seek(target)] shows the first stored entry whose key is not
    below the target, or is invalid when there is none, with status OK. *)
Theorem seek_lower_bound_single_group (options : Options) (restart_offset_init : Z)
    (kvs : list entry) :
  1 <= block_restart_interval options ->
  Z.of_nat (length kvs) <= block_restart_interval options ->
  orders_keys (comparator options) ->
  strictly_increasing (comparator options) kvs ->
  fits_u32 kvs ->
  exists content blk,
    build options kvs = Done content
    /\ Block.Block restart_offset_init content = Done blk
    /\ forall (start : motion) (mvs : list move) (target : bytes) (fuel : nat)
              (it : BlockIterator.t),
       start = First \/ start = Last ->
       (length kvs < fuel)%nat ->
       (it1 <- run_motion fuel start (iterator blk (comparator options)) ;;
        run_moves fuel mvs it1) = Done it ->
       exists it',
         BlockIterator.seek fuel it target = Done it'
         /\ current_entry it' = Done (lower_bound (comparator options) target kvs)
         /\ BlockIterator.status it' = BlockIterator.OK.
Proof.
  intros HN Hlen Hord Hinc Hfit.
  destruct (build_layout options kvs Hinc Hfit) as [Hbuild Hsize].
  set (N := block_restart_interval options) in *.
  rewrite (single_group_layout N kvs HN Hlen) in Hbuild, Hsize.
  set (es := layout N 0 [] kvs) in *.
  assert (Hch : chain [] es).
  { apply layout_chain. unfold fits_u32 in Hfit. lia. }
  assert (Hmap : map entry_of es = kvs) by apply map_entry_of_layout.
  assert (Hl : length es = length kvs).
  { rewrite <- Hmap. rewrite length_map. reflexivity. }
  exists (block_bytes es []). eexists.
  split; [exact Hbuild|]. split; [apply Block_of_block_bytes; exact Hsize|].
  intros start mvs target fuel it Hstart Hfuel Hrun.
  set (it0 := iterator (Block.mk (block_bytes es []) (size (block_bytes es []))
                          (Z.of_nat (length [0])) (size (encode_entries es)))
                (comparator options)) in *.
  assert (Hover : over_single_group es it0) by (repeat split).
  assert (Hs : same_block it0 it0) by (repeat split).
  assert (Hinc' : strictly_increasing (comparator options) (map entry_of es))
    by (rewrite Hmap; exact Hinc).
  destruct (run_motion fuel start it0) as [it1|] eqn:Hstart_run; cbn [bind] in Hrun;
    [|discriminate Hrun].
  assert (Hshape1 : shows_record_or_ended es it0 it1).
  { apply (positioning_shape es it0 Hover Hch Hsize fuel start it0 it1 Hs Hstart);
      [lia | exact Hstart_run]. }
  assert (Hshape : shows_record_or_ended es it0 it).
  { apply (moves_keep_shape es it0 (comparator options) Hover Hch Hsize eq_refl
             Hord Hinc' fuel mvs it1 it Hshape1); [lia | exact Hrun]. }
  destruct (seek_from_any es it0 (comparator options) Hover Hch Hsize eq_refl
              Hord Hinc' it fuel target Hshape ltac:(lia))
    as (it' & Hseek & Hcur & Hshow).
  exists it'. split; [exact Hseek|]. split.
  - rewrite Hcur, Hmap. reflexivity.
  - rewrite (shape_status es it0 it' Hshow). reflexivity.
Qed.

Lemma Binary_compare_antisym (a : bytes) : forall (b : bytes),
  Binary_compare a b > 0 -> Binary_compare b a < 0.
Proof.
  induction a as [|x a IH]; intros [|y b]; cbn [Binary_compare]; try lia.
  destruct (Z_of_byte x <? Z_of_byte y) eqn:E1; [lia|].
  destruct (Z_of_byte y <? Z_of_byte x) eqn:E2; [lia|].
  apply IH.
Qed.

Lemma Binary_compare_trans (a : bytes) : forall (b c : bytes),
  Binary_compare a b < 0 -> Binary_compare b c <= 0 -> Binary_compare a c < 0.
Proof.
  induction a as [|x a IH]; intros [|y b] [|z c]; cbn [Binary_compare]; try lia.
  destruct (Z_of_byte x <? Z_of_byte y) eqn:E1;
    destruct (Z_of_byte y <? Z_of_byte x) eqn:E2;
    destruct (Z_of_byte y <? Z_of_byte z) eqn:E3;
    destruct (Z_of_byte z <? Z_of_byte y) eqn:E4;
    destruct (Z_of_byte x <? Z_of_byte z) eqn:E5;
    destruct (Z_of_byte z <? Z_of_byte x) eqn:E6;
    rewrite ?Z.ltb_lt, ?Z.ltb_ge in *; try lia.
  apply IH.
Qed.

Lemma BytewiseComparator_orders_keys : orders_keys BytewiseComparator.
Proof.
  split.
  - intros a b. apply Binary_compare_antisym.
  - intros a b c. apply Binary_compare_trans.
Qed.

Lemma seek_lower_bound_single_group_witness :
  1 <= 16
  /\ Z.of_nat (length ab_entries) <= 16
  /\ orders_keys BytewiseComparator
  /\ strictly_increasing BytewiseComparator ab_entries
  /\ fits_u32 ab_entries
  /\ exists content blk it,
       build (bytewise 16) ab_entries = Done content
       /\ Block.Block 0 content = Done blk
       /\ (it1 <- run_motion 3 First (iterator blk BytewiseComparator) ;;
           run_moves 3 [Move Next; Seek (str "b"); Move Prev] it1) = Done it
       /\ exists it',
            BlockIterator.seek 3 it (str "b") = Done it'
            /\ current_entry it' = Done (lower_bound BytewiseComparator (str "b") ab_entries)
            /\ BlockIterator.status it' = BlockIterator.OK.
Proof.
  assert (HN : 1 <= 16) by lia.
  assert (Hlen : Z.of_nat (length ab_entries) <= 16) by (vm_compute; discriminate).
  assert (Hinc : strictly_increasing BytewiseComparator ab_entries)
    by (vm_compute; split; [reflexivity | exact I]).
  assert (Hfit : fits_u32 ab_entries) by (vm_compute; reflexivity).
  split; [exact HN|]. split; [exact Hlen|].
  split; [exact BytewiseComparator_orders_keys|]. split; [exact Hinc|].
  split; [exact Hfit|].
  destruct (seek_lower_bound_single_group (bytewise 16) 0 ab_entries HN Hlen
              BytewiseComparator_orders_keys Hinc Hfit)
    as (content & blk & Hbuild & Hblk & Hseek).
  assert (Hc : content = block_bytes (layout 16 0 [] ab_entries) []).
  { vm_compute in Hbuild. apply Done_inj in Hbuild. subst content. vm_compute. reflexivity. }
  subst content.
  assert (Hb : blk = Block.mk (block_bytes (layout 16 0 [] ab_entries) []) 36 1 28).
  { vm_compute in Hblk. apply Done_inj in Hblk. subst blk. vm_compute. reflexivity. }
  subst blk.
  eexists. eexists. eexists. split; [exact Hbuild|]. split; [exact Hblk|].
  split.
  - vm_compute. reflexivity.
  - apply (Hseek First [Move Next; Seek (str "b"); Move Prev] (str "b") 3%nat).
    + left. reflexivity.
    + cbn. lia.
    + vm_compute. reflexivity.
Defined.

(* ================================================================== *)
(** ** TableIterator *)

Section TableIteratorFacts.

Context {I : Type} `{Iterator I}.



(** X18.  When the seek of the index iterator ends invalid (no index
    entry at or after the target), [TableIterator::seek] drops the
    data-block iterator and returns an invalid table iterator, without
    asking for any data block; [key()] then fails its assertion. *)
Theorem table_seek_past_the_index (fuel : nat) (ti : TableIterator.t I)
    (target : bytes) (idx : I) :
  (0 < fuel)%nat ->
  it_seek fuel (TableIterator.index_iter_ ti) target = Done idx ->
  it_valid idx = false ->
  let ti' := TableIterator.set_data_iter (TableIterator.set_index_iter ti idx) None in
  TableIterator.seek fuel ti target = Done ti'
  /\ TableIterator.valid ti' = false
  /\ TableIterator.key ti' = Fault AssertionFailed.
Proof.
  intros Hfuel Hseek Hinv ti'. split; [|split; reflexivity].
  unfold TableIterator.seek. rewrite Hseek. cbn [bind].
  unfold TableIterator.initDataBlock.
  cbn [TableIterator.set_index_iter TableIterator.index_iter_].
  rewrite Hinv. cbn [negb bind TableIterator.set_data_iter TableIterator.data_iter_].
  destruct fuel as [|f]; [lia|].
  cbn [TableIterator.skipEmptyDataBlock TableIterator.data_iter_
       TableIterator.index_iter_ TableIterator.set_data_iter
       TableIterator.set_index_iter].
  rewrite Hinv. reflexivity.
Qed.

End TableIteratorFacts.


Lemma table_seek_past_the_index_witness :
  let ti := TableIterator.mk (iterator empty_block BytewiseComparator) None
              (fun _ => None) [] BlockIterator.OK in
  (0 < 1)%nat
  /\ (exists idx,
        it_seek 1 (TableIterator.index_iter_ ti) (str "k") = Done idx
        /\ it_valid idx = false
        /\ TableIterator.seek 1 ti (str "k")
           = Done (TableIterator.set_data_iter (TableIterator.set_index_iter ti idx) None)).
Proof.
  cbv zeta. split; [apply Nat.lt_0_1|].
  eexists. split; [vm_compute; reflexivity|]. split; [reflexivity|].
  refine (proj1 (table_seek_past_the_index 1
                   (TableIterator.mk (iterator empty_block BytewiseComparator) None
                      (fun _ => None) [] BlockIterator.OK) (str "k") _
                   Nat.lt_0_1 _ _)).
  - vm_compute. reflexivity.
  - reflexivity.
Defined.

(* ================================================================== *)
(** ** The restart array and what the iterator reads *)

Lemma decodeInt_at_concat (pre post : bytes) (rs : list Z) : forall (i : nat),
  (i < length rs)%nat ->
  decodeInt_at (pre ++ concat (map encodeInt rs) ++ post) (size pre + 4 * Z.of_nat i)
  = Done (u32 (nth i rs 0)).
Proof.
  revert pre. induction rs as [|r rs IH]; intros pre i Hi; [cbn [length] in Hi; lia|].
  cbn [map concat]. destruct i as [|i].
  - cbn [nth]. rewrite <- app_assoc.
    apply (decodeInt_at_middle _ pre (concat (map encodeInt rs) ++ post) r).
    + reflexivity.
    + lia.
  - cbn [nth]. cbn [length] in Hi.
    replace (pre ++ (encodeInt r ++ concat (map encodeInt rs)) ++ post)
      with ((pre ++ encodeInt r) ++ concat (map encodeInt rs) ++ post)
      by (rewrite <- !app_assoc; reflexivity).
    replace (size pre + 4 * Z.of_nat (S i)) with (size (pre ++ encodeInt r) + 4 * Z.of_nat i)
      by (rewrite size_app, size_encodeInt; lia).
    apply IH. lia.
Qed.

(** X19.  The restart array [finish()] writes decodes back to the offsets
    the builder recorded: the four bytes at position [i] of the array,
    which starts where the entry data ends, give the [i]-th restart
    offset. *)
Theorem restart_array_round_trip (b : BlockBuilder.t) (i : nat) :
  Forall (fun r => 0 <= r < 2 ^ 32) (BlockBuilder.restarts_ b) ->
  (i < length (BlockBuilder.restarts_ b))%nat ->
  decodeInt_at (snd (BlockBuilder.finish b))
    (size (BlockBuilder.buffer_ b) + 4 * Z.of_nat i)
  = Done (nth i (BlockBuilder.restarts_ b) 0).
Proof.
  intros Hr Hi. rewrite finish_bytes.
  rewrite (decodeInt_at_concat (BlockBuilder.buffer_ b) _ (BlockBuilder.restarts_ b) i Hi).
  f_equal. apply u32_small.
  rewrite Forall_forall in Hr. apply Hr. apply nth_In. exact Hi.
Qed.

Lemma restart_array_round_trip_witness :
  exists b,
    add_all (BlockBuilder.BlockBuilder (bytewise 1)) ab_entries = Done b
    /\ Forall (fun r => 0 <= r < 2 ^ 32) (BlockBuilder.restarts_ b)
    /\ (1 < length (BlockBuilder.restarts_ b))%nat
    /\ decodeInt_at (snd (BlockBuilder.finish b)) (size (BlockBuilder.buffer_ b) + 4 * 1)
       = Done 14.
Proof.
  eexists. split; [vm_compute; reflexivity|].
  match goal with
  | |- Forall _ (BlockBuilder.restarts_ ?b) /\ _ =>
      assert (Hr : Forall (fun r => 0 <= r < 2 ^ 32) (BlockBuilder.restarts_ b))
        by (cbn [BlockBuilder.restarts_]; repeat constructor; lia);
      assert (Hi : (1 < length (BlockBuilder.restarts_ b))%nat)
        by (cbn [BlockBuilder.restarts_ length]; lia);
      split; [exact Hr|]; split; [exact Hi|];
      exact (restart_array_round_trip b 1 Hr Hi)
  end.
Defined.

(** X20.  [getRestartOffset(idx)] reads at [idx * 4] from the start of the
    block, where the first record lies: index 0 yields that record's
    shared length and index 1 its non-shared key length, whatever the
    restart array holds. *)
Theorem getRestartOffset_reads_first_record (it : BlockIterator.t) (s : Z) (k v rest : bytes) :
  BlockIterator.data_ it = encode_entry (s, k, v) ++ rest ->
  2 <= BlockIterator.num_restarts_ it ->
  BlockIterator.getRestartOffset it 0 = Done (u32 s)
  /\ BlockIterator.getRestartOffset it 1 = Done (u32 (size k - s)).
Proof.
  intros Hd Hn. unfold BlockIterator.getRestartOffset.
  replace (0 <? BlockIterator.num_restarts_ it) with true by (symmetry; apply Z.ltb_lt; lia).
  replace (1 <? BlockIterator.num_restarts_ it) with true by (symmetry; apply Z.ltb_lt; lia).
  cbn [assert bind]. unfold encode_entry in Hd. split.
  - apply (decodeInt_at_middle _ []
             (encodeInt (size k - s) ++ encodeInt (size v) ++ skipn (Z.to_nat s) k ++ v ++ rest)).
    + rewrite Hd, <- !app_assoc. reflexivity.
    + reflexivity.
  - apply (decodeInt_at_middle _ (encodeInt s)
             (encodeInt (size v) ++ skipn (Z.to_nat s) k ++ v ++ rest)).
    + rewrite Hd, <- !app_assoc. reflexivity.
    + reflexivity.
Qed.

Lemma getRestartOffset_reads_first_record_witness :
  exists content,
    build (bytewise 1) ab_entries = Done content
    /\ content = encode_entry (0, str "a", str "1") ++ skipn 14 content
    /\ BlockIterator.getRestartOffset
         (BlockIterator.BlockIterator BytewiseComparator content 28 2) 1 = Done 1.
Proof.
  eexists. split; [vm_compute; reflexivity|].
  match goal with
  | |- ?c = _ /\ _ =>
      assert (Hd : BlockIterator.data_ (BlockIterator.BlockIterator BytewiseComparator c 28 2)
                   = encode_entry (0, str "a", str "1") ++ skipn 14 c)
        by (vm_compute; reflexivity);
      assert (Hn : 2 <= BlockIterator.num_restarts_
                          (BlockIterator.BlockIterator BytewiseComparator c 28 2))
        by (vm_compute; discriminate);
      split; [exact Hd|];
      exact (proj2 (getRestartOffset_reads_first_record _ 0 (str "a") (str "1") _ Hd Hn))
  end.
Defined.

(** X21.  A new iterator over the block built from a non-empty sorted
    input reports [valid()] before any positioning call, with an empty key
    and an empty value: [current_] starts at 0, below the restart array. *)
Theorem new_iterator_reports_valid (options : Options) (restart_offset_init : Z)
    (kvs : list entry) :
  kvs <> [] ->
  strictly_increasing (comparator options) kvs ->
  fits_u32 kvs ->
  exists content blk,
    build options kvs = Done content
    /\ Block.Block restart_offset_init content = Done blk
    /\ BlockIterator.valid (iterator blk (comparator options)) = true
    /\ current_entry (iterator blk (comparator options)) = Done (Some ([], [])).
Proof.
  intros Hne Hinc Hfit.
  destruct (build_layout options kvs Hinc Hfit) as [Hbuild Hsize].
  set (N := block_restart_interval options) in *.
  eexists. eexists. split; [exact Hbuild|].
  split; [apply Block_of_block_bytes; exact Hsize|].
  assert (Hv : BlockIterator.valid
                 (iterator (Block.mk (block_bytes (layout N 0 [] kvs)
                                        (layout_restarts N 0 0 [] kvs))
                              (size (block_bytes (layout N 0 [] kvs)
                                       (layout_restarts N 0 0 [] kvs)))
                              (Z.of_nat (length (0 :: layout_restarts N 0 0 [] kvs)))
                              (size (encode_entries (layout N 0 [] kvs))))
                    (comparator options)) = true).
  { unfold BlockIterator.valid, iterator, BlockIterator.BlockIterator. it_simpl.
    cbn [Block.restart_offset_]. apply Z.ltb_lt.
    destruct kvs as [|[k v] rest]; [contradiction|].
    cbn [layout]. rewrite size_encode_entries_cons, size_app.
    pose proof (size_encode_entry_chosen N 0 [] k v).
    pose proof (size_nonneg (encode_entries (layout N (next_counter N 0) k rest))). lia. }
  split; [exact Hv|].
  unfold current_entry. rewrite Hv. reflexivity.
Qed.

Lemma new_iterator_reports_valid_witness :
  a_entry <> []
  /\ strictly_increasing BytewiseComparator a_entry
  /\ fits_u32 a_entry
  /\ exists content blk,
       build (bytewise 16) a_entry = Done content
       /\ Block.Block 0 content = Done blk
       /\ BlockIterator.valid (iterator blk BytewiseComparator) = true
       /\ current_entry (iterator blk BytewiseComparator) = Done (Some ([], [])).
Proof.
  assert (Hne : a_entry <> []) by discriminate.
  assert (Hinc : strictly_increasing BytewiseComparator a_entry) by exact I.
  assert (Hfit : fits_u32 a_entry) by (vm_compute; reflexivity).
  split; [exact Hne|]. split; [exact Hinc|]. split; [exact Hfit|].
  exact (new_iterator_reports_valid (bytewise 16) 0 a_entry Hne Hinc Hfit).
Defined.
